(** * cliche: struct-tag directives and command metadata

    A shallow embedding of the annotation parser (package [meta]: [Tag],
    [decompose], [parseArg], [parseFlag], [Arg], [Default], [Flag]) and of
    the metadata compiler ([compileInputs], [Command.Compile],
    [sanitizeHelp], [FromFile]) of the Go sources, followed by the
    properties of the specification stated against that embedding.

    Go strings are byte sequences; they are modelled as [list ascii].  Go's
    [int] is taken to be 64 bits wide and modelled as [Z]: the program only
    stores and compares such values, it never computes with them. *)

From Stdlib Require Import Ascii String.
From Stdlib Require Import List ZArith NArith Lia Bool Arith.
Import Datatypes.
Import ListNotations.

Open Scope string_scope.
Open Scope list_scope.

(** ** Go strings *)

Definition gostring : Type := list ascii.

(** String literals are read as the sequence of their bytes. *)
Coercion list_ascii_of_string : string >-> list.

Definition byte (c : ascii) : N := N_of_ascii c.

Definition in_range (lo hi c : ascii) : bool :=
  ((byte lo <=? byte c) && (byte c <=? byte hi))%N.

Definition str_eqb (a b : gostring) : bool :=
  if list_eq_dec ascii_dec a b then true else false.

Definition is_empty (s : gostring) : bool :=
  match s with [] => true | _ :: _ => false end.

Definition is_empty_list {A : Type} (l : list A) : bool :=
  match l with [] => true | _ :: _ => false end.

Module strings.

(** [strings.HasPrefix(s, prefix)]. *)
Fixpoint HasPrefix (s prefix : gostring) {struct prefix} : bool :=
  match prefix with
  | [] => true
  | p :: prefix' =>
      match s with
      | c :: s' => Ascii.eqb c p && HasPrefix s' prefix'
      | [] => false
      end
  end.

(** [strings.CutPrefix(s, prefix)]: the rest after the prefix, and whether
    the prefix was there ([None] stands for [(s, false)]). *)
Definition CutPrefix (s prefix : gostring) : option gostring :=
  if HasPrefix s prefix then Some (skipn (length prefix) s) else None.

(** [strings.Split(s, sep)] for a separator of one byte: every piece
    between two separators, the pieces before the first and after the
    last included, so that [n] separators give [n + 1] pieces. *)
Fixpoint Split (s : gostring) (sep : ascii) : list gostring :=
  match s with
  | [] => [[]]
  | c :: s' =>
      if Ascii.eqb c sep then [] :: Split s' sep
      else match Split s' sep with
           | piece :: pieces => (c :: piece) :: pieces
           | [] => [[c]]
           end
  end.

(** [strings.Join(elems, sep)], again for a separator of one byte. *)
Fixpoint Join (elems : list gostring) (sep : ascii) : gostring :=
  match elems with
  | [] => []
  | [e] => e
  | e :: rest => e ++ sep :: Join rest sep
  end.

(** The six ASCII white-space bytes: tab, line feed, vertical tab, form
    feed, carriage return and space. *)
Definition asciiSpace (c : ascii) : bool :=
  match byte c with
  | 9 | 10 | 11 | 12 | 13 | 32 => true
  | _ => false
  end%N.

(** The other code points of [unicode.IsSpace], by their UTF-8 encoding:
    U+0085 and U+00A0 on two bytes, and U+1680, U+2000 to U+200A, U+2028,
    U+2029, U+202F, U+205F and U+3000 on three. *)
Definition space2 (a b : ascii) : bool :=
  ((byte a =? 194) && ((byte b =? 133) || (byte b =? 160)))%N.

Definition space3 (a b c : ascii) : bool :=
  (((byte a =? 225) && (byte b =? 154) && (byte c =? 128))
   || ((byte a =? 226) && (byte b =? 128)
       && (((128 <=? byte c) && (byte c <=? 138))
           || (byte c =? 168) || (byte c =? 169) || (byte c =? 175)))
   || ((byte a =? 226) && (byte b =? 129) && (byte c =? 159))
   || ((byte a =? 227) && (byte b =? 128) && (byte c =? 128)))%N.

(** Width in bytes of the white-space rune [s] starts with, [0] when [s]
    does not start with one. *)
Definition space_width (s : gostring) : nat :=
  match s with
  | [] => 0
  | a :: t =>
      if asciiSpace a then 1
      else match t with
           | [] => 0
           | b :: u =>
               if space2 a b then 2
               else match u with
                    | [] => 0
                    | c :: _ => if space3 a b c then 3 else 0
                    end
           end
  end.

(** The same reading from the end: [r] is the string reversed, so that
    its first bytes are the last bytes of the rune. *)
Definition space_width_back (r : gostring) : nat :=
  match r with
  | [] => 0
  | a :: t =>
      if asciiSpace a then 1
      else match t with
           | [] => 0
           | b :: u =>
               if space2 b a then 2
               else match u with
                    | [] => 0
                    | c :: _ => if space3 c b a then 3 else 0
                    end
           end
  end.

Fixpoint trim_with (width : gostring -> nat) (fuel : nat) (s : gostring)
  : gostring :=
  match fuel with
  | 0 => s
  | S fuel' =>
      match width s with
      | 0 => s
      | w => trim_with width fuel' (skipn w s)
      end
  end.

(** [strings.TrimSpace(s)]: all leading and trailing white-space runes
    removed. *)
Definition TrimSpace (s : gostring) : gostring :=
  let l := trim_with space_width (length s) s in
  rev (trim_with space_width_back (length l) (rev l)).

(** [strings.Index(s, substr)]. *)
Fixpoint Index (s substr : gostring) : option nat :=
  if HasPrefix s substr then Some 0
  else match s with
       | [] => None
       | _ :: s' => option_map S (Index s' substr)
       end.

(** [strings.Replace(s, old, new, 1)]: the first occurrence of [old]
    replaced (an empty [old] occurs at the start). *)
Definition Replace (s old new : gostring) : gostring :=
  if str_eqb old new then s
  else match Index s old with
       | None => s
       | Some j => firstn j s ++ new ++ skipn (j + length old) s
       end.

End strings.

Module strconv.

(** [strconv.IntSize]. *)
Definition IntSize : Z := 64.

Definition is_digit (c : ascii) : bool := in_range "0" "9" c.

Fixpoint digits (acc : Z) (s : gostring) : option Z :=
  match s with
  | [] => Some acc
  | c :: s' =>
      if is_digit c then digits (10 * acc + (Z.of_N (byte c) - 48)) s'
      else None
  end.

(** [strconv.Atoi(s)]: an optional sign and at least one decimal digit,
    nothing else; [None] stands for a non-nil error (bad syntax, or a
    value out of the range of [int]). *)
Definition Atoi (s : gostring) : option Z :=
  let '(neg, ds) :=
    match s with
    | c :: t =>
        if Ascii.eqb c "-" then (true, t)
        else if Ascii.eqb c "+" then (false, t)
        else (false, s)
    | [] => (false, s)
    end in
  match ds with
  | [] => None
  | _ :: _ =>
      match digits 0 ds with
      | None => None
      | Some u =>
          if neg then
            if (u <=? 2 ^ (IntSize - 1))%Z then Some (- u)%Z else None
          else
            if (u <? 2 ^ (IntSize - 1))%Z then Some u else None
      end
  end.

(** The digit of a number below ten. *)
Definition digit_of (u : Z) : ascii := ascii_of_N (48 + Z.to_N u).

(** The decimal digits of a natural number; [fuel] bounds their count. *)
Fixpoint utoa (fuel : nat) (u : Z) : gostring :=
  match fuel with
  | 0 => []
  | S fuel' =>
      if (u <? 10)%Z then [digit_of u]
      else utoa fuel' (u / 10)%Z ++ [digit_of (u mod 10)%Z]
  end.

(** [strconv.Itoa(i)], which is also what [fmt] prints for an [int] under
    [%d] and [Sprint]: the decimal digits, after a minus sign when [i] is
    negative.  A number has no more decimal digits than binary ones. *)
Definition Itoa (i : Z) : gostring :=
  let u := Z.abs i in
  let ds := utoa (S (Z.to_nat (Z.log2 u))) u in
  if (i <? 0)%Z then "-"%char :: ds else ds.

End strconv.

(** ** Regular expressions

    The three expressions of the program repeat only character classes, so
    the syntax has a greedy star and plus over a class.  [exec] is a
    backtracking matcher in continuation-passing style: it tries the
    choices in the order of Go's leftmost-first semantics (the first
    alternative before the second, a longer repetition before a shorter
    one, an optional part present before absent), and the continuation
    decides whether the rest of the expression matches.

    The classes are classes of bytes where Go's are classes of runes.  The
    positive classes here hold ASCII only, and the two negated ones, of
    [argRe], exclude one ASCII byte each: a match begins and ends at the
    same ASCII bytes under both readings, and so do its groups. *)

Module regexp.

Inductive regex : Type :=
| Chr (c : ascii)                 (* a literal byte *)
| Cls (p : ascii -> bool)         (* one byte of a class *)
| Star (p : ascii -> bool)        (* class*, greedy *)
| Plus (p : ascii -> bool)        (* class+, greedy *)
| Cat (r1 r2 : regex)             (* r1 r2 *)
| Alt (r1 r2 : regex)             (* r1|r2 *)
| Opt (r : regex)                 (* r?, greedy *)
| Cap (i : nat) (r : regex)       (* capturing group number i *)
| Bot                             (* ^ (not multi-line: start of text) *)
| Eot.                            (* $ (not multi-line: end of text) *)

Fixpoint NumSubexp (r : regex) : nat :=
  match r with
  | Cat r1 r2 | Alt r1 r2 => Nat.max (NumSubexp r1) (NumSubexp r2)
  | Opt r' => NumSubexp r'
  | Cap i r' => Nat.max i (NumSubexp r')
  | _ => 0
  end.

(** The slice of submatches: entry [0] is the whole match, entry [i] the
    text of group [i], the empty string when the group took no part in
    the match. *)
Definition captures : Type := list gostring.

Fixpoint set_cap (i : nat) (v : gostring) (caps : captures) : captures :=
  match i, caps with
  | _, [] => []
  | 0, _ :: rest => v :: rest
  | S i', c :: rest => c :: set_cap i' v rest
  end.

Section Exec.
Context {A : Type}.

(** Greedy repetition of a class: as many bytes as possible first, one
    fewer each time the continuation fails. *)
Fixpoint star_k (p : ascii -> bool) (s : gostring)
         (k : gostring -> option A) : option A :=
  match s with
  | c :: s' =>
      if p c then
        match star_k p s' k with
        | Some x => Some x
        | None => k s
        end
      else k s
  | [] => k s
  end.

(** [exec n r s caps k]: match [r] at the head of [s], the rest of a
    text of [n] bytes, then hand what is left to [k]. *)
Fixpoint exec (n : nat) (r : regex) (s : gostring) (caps : captures)
         (k : gostring -> captures -> option A) : option A :=
  match r with
  | Chr c =>
      match s with
      | x :: s' => if Ascii.eqb x c then k s' caps else None
      | [] => None
      end
  | Cls p =>
      match s with
      | x :: s' => if p x then k s' caps else None
      | [] => None
      end
  | Star p => star_k p s (fun s' => k s' caps)
  | Plus p =>
      match s with
      | x :: s' => if p x then star_k p s' (fun s'' => k s'' caps) else None
      | [] => None
      end
  | Cat r1 r2 => exec n r1 s caps (fun s' caps' => exec n r2 s' caps' k)
  | Alt r1 r2 =>
      match exec n r1 s caps k with
      | Some x => Some x
      | None => exec n r2 s caps k
      end
  | Opt r' =>
      match exec n r' s caps k with
      | Some x => Some x
      | None => k s caps
      end
  | Cap i r' =>
      exec n r' s caps
           (fun s' caps' =>
              k s' (set_cap i (firstn (length s - length s') s) caps'))
  | Bot => if (length s =? n)%nat then k s caps else None
  | Eot => match s with [] => k s caps | _ :: _ => None end
  end.
End Exec.

(** A match found in a text: what precedes it, its submatches and what
    follows it. *)
Definition found : Type := gostring * captures * gostring.

Definition match_here (n : nat) (re : regex) (s : gostring)
  : option (captures * gostring) :=
  exec n re s (repeat [] (S (NumSubexp re)))
       (fun s' caps =>
          Some (set_cap 0 (firstn (length s - length s') s) caps, s')).

(** The leftmost match in [s], the rest of a text of [n] bytes. *)
Fixpoint search (n : nat) (re : regex) (s : gostring) : option found :=
  match match_here n re s with
  | Some (caps, rest) => Some ([], caps, rest)
  | None =>
      match s with
      | [] => None
      | c :: s' =>
          match search n re s' with
          | Some (before, caps, rest) => Some (c :: before, caps, rest)
          | None => None
          end
      end
  end.

(** [re.FindStringSubmatch(s)]: the submatches of the leftmost match, the
    nil slice when there is none. *)
Definition FindStringSubmatch (re : regex) (s : gostring) : captures :=
  match search (length s) re s with
  | Some (_, caps, _) => caps
  | None => []
  end.

(** [re.ReplaceAllLiteralString(src, repl)] for an expression that has no
    empty match, as [\s+], the one expression the program replaces with:
    every match replaced, from left to right, the search resuming where
    the last match ended.  (After an empty match Go steps over one rune
    before it searches again, which is left out here.)  The fuel is the
    number of matches the text can hold. *)
Fixpoint replace_from (fuel n : nat) (re : regex) (s repl : gostring)
  : gostring :=
  match fuel with
  | 0 => s
  | S fuel' =>
      match search n re s with
      | None => s
      | Some (before, _, rest) =>
          before ++ repl ++ replace_from fuel' n re rest repl
      end
  end.

Definition ReplaceAllLiteralString (re : regex) (src repl : gostring)
  : gostring :=
  replace_from (S (length src)) (length src) re src repl.

(** [\d], [\s] and the other classes of the program's expressions. *)
Definition digit (c : ascii) : bool := in_range "0" "9" c.

Definition space (c : ascii) : bool :=
  match byte c with
  | 9 | 10 | 12 | 13 | 32 => true
  | _ => false
  end%N.

Definition other_than (x c : ascii) : bool := negb (Ascii.eqb c x).

End regexp.

Import regexp.

Declare Scope regex_scope.
Delimit Scope regex_scope with re.
Infix ">>" := Cat (at level 61, right associativity) : regex_scope.
Infix "<|>" := Alt (at level 62, right associativity) : regex_scope.

Import strings.

(** ** What the Go parser hands over

    The declarations reach the program as a [go/ast] tree and as the
    package documentation [go/doc] computes from it.  The tree is kept to
    the nodes the program looks at; a comment group is kept as the text its
    method [Text] returns. *)

Module ast.

#[local] Unset Elimination Schemes.

Inductive Node : Type :=
| GenDecl (Specs : list Node)
| TypeSpec (Name : option gostring) (Type_ : Node)
    (* [Name] is the name of the identifier, [None] a nil identifier *)
| StructType (Fields : option (list Field))
    (* [None] is a nil field list *)
| Ident (Name : gostring)
| Other (children : list Node)
    (* any other node, with the nodes below it *)
with Field : Type :=
| mkField (Doc : option gostring) (Names : list gostring) (Type_ : Node)
          (Tag : option gostring).
    (* [Doc]: the text of the doc comment, [None] when there is none;
       [Names]: the names of the identifiers; [Tag]: the literal of the
       tag as written, quotes included, [None] when there is none *)

#[local] Set Elimination Schemes.

Definition Doc (f : Field) : option gostring :=
  let '(mkField d _ _ _) := f in d.
Definition Names (f : Field) : list gostring :=
  let '(mkField _ ns _ _) := f in ns.
Definition Type_ (f : Field) : Node :=
  let '(mkField _ _ t _) := f in t.
Definition Tag (f : Field) : option gostring :=
  let '(mkField _ _ _ t) := f in t.

End ast.

Module doc.

(** [doc.Type]: a type, its doc comment and its declaration. *)
Module Type_.
Record t : Type := mk
  { Name : gostring; Doc : gostring; Decl : ast.Node }.
End Type_.

(** [doc.Package]. *)
Module Package.
Record t : Type := mk
  { Name : gostring; Doc : gostring; Types : list Type_.t }.
End Package.

End doc.

(** The functions of other packages the metadata compiler calls and whose
    result the program takes as it comes. *)
Class Library : Type := {
  (** [strcase.ToKebab] *)
  ToKebab : gostring -> gostring;
  (** [unicode.IsUpper] of the first rune of a string that starts with a
      byte outside ASCII *)
  IsUpper : gostring -> bool;
  (** [strconv.Unquote]; [None] stands for a non-nil error *)
  Unquote : gostring -> option gostring;
  (** [reflect.StructTag.Lookup]: tag, then key; [None] stands for
      the result without a value *)
  Lookup : gostring -> gostring -> option gostring;
  (** [fmt.Sprintf("%s", e)] for a type expression [e] that is not an
      identifier *)
  Sprint : ast.Node -> gostring
}.

(** ** Package meta: struct tags *)

Module meta.

(** Positional arguments of a struct tag: [Start] inclusive, [End_]
    (the field [End] of the source) exclusive. *)
Record ArgSpec : Type := mkArgSpec { Start : Z; End_ : Z }.

Record FlagSpec : Type := mkFlagSpec { Long : gostring; Short : gostring }.

Definition Tag : Type := gostring.

(** One turn of the loop of [decompose] over the components; the state is
    the three results [(arg, def, flag)]. *)
Definition decompose_step (acc : gostring * gostring * gostring)
           (c : gostring) : gostring * gostring * gostring :=
  let '(arg, def, flag) := acc in
  let c := TrimSpace c in
  match CutPrefix c "arg:" with
  | Some a => (TrimSpace a, def, flag)
  | None =>
      match CutPrefix c "flag:" with
      | Some f => (arg, def, TrimSpace f)
      | None =>
          match CutPrefix c "default:" with
          | Some d => (arg, TrimSpace d, flag)
          | None => (arg, def, flag)
          end
      end
  end.

Definition decompose (tag : Tag) : gostring * gostring * gostring :=
  if is_empty tag then ([], [], [])
  else fold_left decompose_step (Split tag ";") ([], [], []).

(** [(\d+)|\[([^:]+)?(\:)?([^\]]+)?\]] *)
Definition argRe : regex :=
  (Cap 1 (Plus digit)
   <|> Chr "[" >> Opt (Cap 2 (Plus (other_than ":")))
               >> Opt (Cap 3 (Chr ":"))
               >> Opt (Cap 4 (Plus (other_than "]")))
               >> Chr "]")%re.

(** [parseArg(tval, spec)]: the result and the [ArgSpec] the pointer
    [spec] designates afterwards.  [err] is the variable of that name;
    [true] stands for a non-nil error. *)
Definition parseArg (tval : gostring) (spec : ArgSpec) : bool * ArgSpec :=
  let tval := TrimSpace tval in
  if is_empty tval then (false, spec)
  else
    let m := FindStringSubmatch argRe tval in
    if negb (length m =? 5)%nat then (false, spec)
    else
      let m1 := nth 1 m [] in
      (* [m[1]] is not empty and [err] is nil *)
      match (if negb (is_empty m1) then strconv.Atoi m1 else None) with
      | Some iconv => (true, mkArgSpec iconv (End_ spec))
      | None =>
          let s := nth 2 m [] in
          let r := nth 3 m [] in
          let e := nth 4 m [] in
          if is_empty s && is_empty r && is_empty e then (false, spec)
          else
            let '(spec, err) :=
              if is_empty s then (mkArgSpec 0 (End_ spec), false)
              else match strconv.Atoi s with
                   | Some iconv => (mkArgSpec iconv (End_ spec), false)
                   | None => (spec, true)
                   end in
            if is_empty r then (negb err, spec)
            else
              let '(spec, err) :=
                if is_empty e then (mkArgSpec (Start spec) (-1), err)
                else match strconv.Atoi e with
                     | Some iconv => (mkArgSpec (Start spec) iconv, false)
                     | None => (spec, true)
                     end in
              (negb err
               && (Start spec >=? 0)%Z
               && ((End_ spec =? -1)%Z || (End_ spec >? Start spec)%Z),
               spec)
      end.

(** [tag.Arg()]: [None] stands for [(nil, false)]. *)
Definition Arg (tag : Tag) : option ArgSpec :=
  let '(arg, _, _) := decompose tag in
  if is_empty arg then None
  else
    let '(ok, ret) := parseArg arg (mkArgSpec 0 0) in
    if ok then Some ret else None.

(** [tag.Default()]. *)
Definition Default (tag : Tag) : gostring * bool :=
  let '(_, def, _) := decompose tag in
  if negb (is_empty def) then (def, true) else ([], false).

Definition letter (c : ascii) : bool :=
  in_range "a" "z" c || in_range "A" "Z" c.

Definition name_byte (c : ascii) : bool :=
  in_range "a" "z" c || in_range "A" "Z" c || in_range "0" "9" c
  || Ascii.eqb c "_" || Ascii.eqb c "-".

(** The class [[a-zA-z]] of the source: its second range ends at the
    lower-case [z]. *)
Definition short_byte (c : ascii) : bool :=
  in_range "a" "z" c || in_range "A" "z" c.

(** [^([a-zA-Z][a-zA-Z0-9_-]+)(?:,\s*([a-zA-z]))?$] *)
Definition flagRe : regex :=
  (Bot >> Cap 1 (Cls letter >> Plus name_byte)
       >> Opt (Chr "," >> Star space >> Cap 2 (Cls short_byte))
       >> Eot)%re.

Definition parseFlag (tval : gostring) (spec : FlagSpec) : bool * FlagSpec :=
  let tval := TrimSpace tval in
  if is_empty tval then (false, spec)
  else
    let m := FindStringSubmatch flagRe tval in
    if is_empty_list m then (false, spec)
    else if negb (length m =? 3)%nat then (false, spec)
    else (true, mkFlagSpec (nth 1 m []) (nth 2 m [])).

(** [tag.Flag()]: [None] stands for [(nil, false)]. *)
Definition Flag (tag : Tag) : option FlagSpec :=
  let '(_, _, flag) := decompose tag in
  if is_empty flag then None
  else
    let '(ok, ret) := parseFlag flag (mkFlagSpec [] []) in
    if ok then Some ret else None.

(** [spec.String()] of an [*ArgSpec]; [None] is the nil pointer. *)
Definition ArgSpec_String (spec : option ArgSpec) : gostring :=
  match spec with
  | None => []
  | Some spec =>
      if (Start spec =? 0)%Z && (End_ spec =? -1)%Z then "arg:[:]"
      else if (Start spec =? End_ spec)%Z then strconv.Itoa (Start spec)
      else "[" ++ strconv.Itoa (Start spec) ++ ":"
               ++ strconv.Itoa (End_ spec) ++ "]"
  end.

(** [spec.Posixy()] of a [*FlagSpec]. *)
Definition Posixy (spec : option FlagSpec) : bool :=
  match spec with
  | None => false
  | Some spec =>
      negb (is_empty (Long spec)) && (length (Short spec) =? 1)%nat
  end.

(** [spec.String()] of a [*FlagSpec]. *)
Definition FlagSpec_String (spec : option FlagSpec) : gostring :=
  match spec with
  | None => []
  | Some spec' =>
      if Posixy spec then "flag:" ++ Long spec' ++ "," ++ Short spec'
      else "flag:" ++ Long spec'
  end.

(** ** Package meta: command metadata *)

Module CommandInput.
Record t : Type := mk
  { FieldName : gostring; Tag : gostring; Doc : gostring;
    Type_ : gostring }.
End CommandInput.

Module Command.
Record t : Type := mk
  { Name : gostring; Package : gostring; Type_ : gostring;
    Help : gostring; Description : gostring;
    Inputs : list CommandInput.t; typ : gostring }.

Definition with_Inputs (inputs : list CommandInput.t) (c : t) : t :=
  mk (Name c) (Package c) (Type_ c) (Help c) (Description c) inputs
     (typ c).
End Command.

Section Compiler.
Context {lib : Library}.

(** [ident.IsExported()]: the name starts with an upper-case letter. *)
Definition IsExported (name : gostring) : bool :=
  match name with
  | [] => false
  | c :: _ => if (byte c <? 128)%N then in_range "A" "Z" c else IsUpper name
  end.

(** [fmt.Sprintf("%s", field.Type)]: an identifier prints as its
    name. *)
Definition Sprintf_s (e : ast.Node) : gostring :=
  match e with
  | ast.Ident name => name
  | _ => Sprint e
  end.

(** One turn of the loop of [compileInputs]; the state is the slice
    [inputs]. *)
Definition compile_field (inputs : list CommandInput.t) (field : ast.Field)
  : list CommandInput.t :=
  let n := length (ast.Names field) in
  if (n =? 0)%nat then inputs
  else if (1 <? n)%nat then inputs
  else
    let name0 := nth 0 (ast.Names field) [] in
    if negb (IsExported name0) then inputs
    else
      let name := name0 in
      let doc :=
        match ast.Doc field with
        | Some text => text
        | None => []
        end in
      let stag :=
        match ast.Tag field with
        | Some tv =>
            match Unquote tv with
            | Some utv => utv
            | None => []
            end
        | None => []
        end in
      let tag :=
        match Lookup stag [] with
        | Some t => t
        | None => []
        end in
      inputs ++ [CommandInput.mk name tag doc (Sprintf_s (ast.Type_ field))].

(** [compileInputs(st)]: [st] is [None] for a nil pointer, and else the
    field list of the struct type, itself [None] when nil. *)
Definition compileInputs (st : option (option (list ast.Field)))
  : list CommandInput.t :=
  match st with
  | None | Some None => []
  | Some (Some fields) => fold_left compile_field fields []
  end.

(** [meta.Compile(n)]: the result, which tells the walk to go on below
    [n], and the [Command] behind the receiver afterwards.  [n] is
    [None] for the nil the walk passes when it leaves a node. *)
Definition Compile (meta : Command.t) (n : option ast.Node)
  : bool * Command.t :=
  match n with
  | None => (false, meta)
  | Some (ast.TypeSpec name type) =>
      match name with
      | None => (true, meta)
      | Some x_name =>
          if negb (str_eqb x_name (Command.typ meta)) then (true, meta)
          else
            match type with
            | ast.StructType fields =>
                (false,
                 Command.with_Inputs
                   (Command.Inputs meta ++ compileInputs (Some fields))
                   meta)
            | _ => (true, meta)
            end
      end
  | Some _ => (true, meta)
  end.

(** [ast.Inspect(n, meta.Compile)]: [Compile] on the node, then, when
    it says so, the walk of the nodes below in source order and
    [Compile] on nil. *)
Fixpoint Inspect (n : ast.Node) (meta : Command.t) {struct n} : Command.t :=
  let '(descend, meta) := Compile meta (Some n) in
  if descend then
    let meta :=
      match n with
      | ast.GenDecl specs =>
          fold_left (fun m spec => Inspect spec m) specs meta
      | ast.TypeSpec _ type => Inspect type meta
      | ast.StructType (Some fields) =>
          fold_left
            (fun m field =>
               match field with
               | ast.mkField _ _ type _ => Inspect type m
               end)
            fields meta
      | ast.StructType None => meta
      | ast.Ident _ => meta
      | ast.Other children =>
          fold_left (fun m child => Inspect child m) children meta
      end in
    snd (Compile meta None)
  else meta.

Definition commandName (pkg : gostring) : gostring :=
  let name := pkg in
  ToKebab name.

(** [\s+] *)
Definition whitespaceRunsRe : regex := Plus space.

Definition sanitizeHelp (doc pkg cmd : gostring) : gostring :=
  let doc :=
    match CutPrefix doc "Package " with
    | Some rest => rest
    | None => doc
    end in
  if is_empty doc then []
  else
    let doc := if HasPrefix doc pkg then Replace doc pkg cmd else doc in
    TrimSpace (ReplaceAllLiteralString whitespaceRunsRe doc " ").

(** What reading the file, [parser.ParseFile] and [doc.NewFromFiles]
    make of the source text. *)
Inductive Source : Type :=
| ReadFailed
| ParseFailed
| DocFailed
| Parsed (pkg : doc.Package.t).

(** [FromFile(from, typeName)]: [None] stands for the nil result. *)
Definition FromFile (from : Source) (typeName : gostring)
  : option Command.t :=
  match from with
  | ReadFailed | ParseFailed | DocFailed => None
  | Parsed pkg =>
      match
        find (fun typ => str_eqb (doc.Type_.Name typ) typeName)
             (doc.Package.Types pkg)
      with
      | None => None
      | Some ourType =>
          let cmdActual := commandName (doc.Package.Name pkg) in
          let meta :=
            Command.mk cmdActual
                       (doc.Package.Name pkg)
                       (doc.Type_.Name ourType)
                       (sanitizeHelp (doc.Package.Doc pkg)
                                     (doc.Package.Name pkg) cmdActual)
                       (TrimSpace (doc.Type_.Doc ourType))
                       [] [] in
          Some (Inspect (doc.Type_.Decl ourType) meta)
      end
  end.

End Compiler.

End meta.

(** ** Package cliche *)

Module cliche.

Definition sanitizeHelp (doc pkg cmd : gostring) : gostring :=
  let doc :=
    match CutPrefix doc "Package " with
    | Some rest => rest
    | None => doc
    end in
  if is_empty doc then []
  else
    let doc := if HasPrefix doc pkg then Replace doc pkg cmd else doc in
    TrimSpace doc.

End cliche.

Import meta.

(** ** Definitions the statements are written with *)

(** *** The specification's reading of a tag

    The directive values as the specification words them, to be compared
    with what [decompose] computes. *)

(** The components of a tag: the pieces between semicolons, trimmed. *)
Definition components (tag : Tag) : list gostring :=
  map TrimSpace (Split tag ";").

(** The components that carry the prefix of a kind. *)
Definition carrying (pfx : gostring) (comps : list gostring) : list gostring :=
  filter (fun c => HasPrefix c pfx) comps.

(** The trimmed value of the last component that carries [pfx], the empty
    string when no component does. *)
Definition directive (pfx : gostring) (comps : list gostring) : gostring :=
  match carrying pfx comps with
  | [] => []
  | c :: cs => TrimSpace (skipn (length pfx) (last (c :: cs) []))
  end.

(** The value of the kind of prefix [pfx] in a tag. *)
Definition last_value (pfx : gostring) (tag : Tag) : gostring :=
  directive pfx (components tag).

(** The value a kind would have after the components [comps], starting
    from [init]. *)
Definition updated (pfx init : gostring) (comps : list gostring) : gostring :=
  match carrying pfx comps with
  | [] => init
  | c :: cs => TrimSpace (skipn (length pfx) (last (c :: cs) []))
  end.

(** The arg directive value of a tag, as [Arg] obtains it. *)
Definition arg_value (tag : Tag) : gostring :=
  let '(arg, _, _) := decompose tag in arg.

(** The flag directive value of a tag, as [Flag] obtains it. *)
Definition flag_value (tag : Tag) : gostring :=
  let '(_, _, flag) := decompose tag in flag.

(** [v] occurs in [s] as it is. *)
Definition infix (v s : gostring) : Prop :=
  exists l r, s = l ++ v ++ r.

(** *** Numerals *)

(** The value of a string of decimal digits. *)
Definition decimal_value (d : gostring) : Z :=
  fold_left (fun acc c => 10 * acc + (Z.of_N (byte c) - 48))%Z d 0%Z.

(** [d] is a decimal numeral of [N]: digits only, at least one. *)
Definition numeral_of (N : Z) (d : gostring) : Prop :=
  d <> [] /\ forallb strconv.is_digit d = true /\ decimal_value d = N.

(** [d] is a numeral of [N] that may be left out, [N] being 0 then. *)
Definition opt_numeral_of (N : Z) (d : gostring) : Prop :=
  (d = [] /\ N = 0%Z) \/ numeral_of N d.

(** The largest [int]. *)
Definition MaxInt : Z := 2 ^ (strconv.IntSize - 1) - 1.

(** *** The fields that become inputs *)

(** A field is eligible when it has exactly one name and that name is
    exported. *)
Definition eligible {lib : Library} (f : ast.Field) : bool :=
  match ast.Names f with
  | [name] => IsExported name
  | _ => false
  end.

(** The name of a field with one name. *)
Definition sole_name {lib : Library} (f : ast.Field) : gostring :=
  match ast.Names f with
  | [name] => name
  | _ => []
  end.

(** The input of an eligible field: its name, its tag, its doc comment
    and its type. *)
Definition input_of {lib : Library} (f : ast.Field) : CommandInput.t :=
  CommandInput.mk
    (sole_name f)
    (match Lookup (match ast.Tag f with
                   | Some tv => match Unquote tv with
                                | Some utv => utv
                                | None => []
                                end
                   | None => []
                   end) [] with
     | Some t => t
     | None => []
     end)
    (match ast.Doc f with Some text => text | None => [] end)
    (Sprintf_s (ast.Type_ f)).

(** No type of the declaration is named by the empty string (the parser
    gives every identifier a name that is not empty). *)
Fixpoint well_named (n : ast.Node) : bool :=
  match n with
  | ast.GenDecl specs => forallb well_named specs
  | ast.TypeSpec name type =>
      negb (match name with Some [] => true | _ => false end)
      && well_named type
  | ast.StructType (Some fields) =>
      forallb (fun f => match f with ast.mkField _ _ t _ => well_named t end)
              fields
  | ast.StructType None => true
  | ast.Ident _ => true
  | ast.Other children => forallb well_named children
  end.

(** *** The help text before its last step *)

(** The text both functions hand to their last step: the doc comment
    without the prefix ["Package "], the package name at its start replaced
    by the command name; the empty string when nothing follows the
    prefix. *)
Definition helpText (doc pkg cmd : gostring) : gostring :=
  let doc :=
    match CutPrefix doc "Package " with
    | Some rest => rest
    | None => doc
    end in
  if is_empty doc then []
  else if HasPrefix doc pkg then Replace doc pkg cmd else doc.

(** Every white-space byte of [s], in the sense of [\s], is a space that
    no white-space byte follows. *)
Fixpoint single_spaced (s : gostring) : bool :=
  match s with
  | [] => true
  | c :: t =>
      (if space c
       then Ascii.eqb c " "
            && negb (match t with c' :: _ => space c' | [] => false end)
       else true)
      && single_spaced t
  end.

(** *** Bytes and strings of the proofs *)

(** An ASCII byte that is not white space. *)
Definition plain (c : ascii) : bool :=
  (byte c <? 128)%N && negb (asciiSpace c).

(** [s] does not go on with a byte of the class [p]. *)
Definition stops (p : ascii -> bool) (s : gostring) : Prop :=
  match s with
  | [] => True
  | c :: _ => p c = false
  end.

(** *** Texts of the tag grammar *)

(** A printable byte that is neither a digit nor an opening bracket. *)
Definition filler (c : ascii) : bool :=
  plain c && negb (digit c) && negb (Ascii.eqb c "[").

(** The six bytes between [Z] and [a], none of them a letter. *)
Definition non_letters : gostring := "[\]^_`".

(** A long name as [flagRe] wants it: a letter, then at least one letter,
    digit, underscore or hyphen. *)
Definition long_name (s : gostring) : bool :=
  match s with
  | a :: rest => letter a && negb (is_empty rest) && forallb name_byte rest
  | [] => false
  end.

(** *** The examples *)

(** The double quote, byte 34. *)
Definition dquote : ascii := "034".

(** The line feed, byte 10. *)
Definition LF : ascii := "010".

(** An instance of [Library] to state examples with: the library functions
    as they act on names that are ASCII words in lower case and on fields
    without a tag. *)
Definition words_library : Library :=
  {| ToKebab := fun s => s;
     IsUpper := fun _ => false;
     Unquote := fun _ => None;
     Lookup := fun _ _ => None;
     Sprint := fun _ => [] |}.

(** The four fields of the field-filtering example: an embedded field, a
    field with two names, an unexported field and an exported one. *)
Definition filtering_fields : list ast.Field :=
  [ast.mkField None [] (ast.Ident "Embedded") None;
   ast.mkField None ["A" : gostring; "B" : gostring] (ast.Ident "int") None;
   ast.mkField None ["hidden" : gostring] (ast.Ident "bool") None;
   ast.mkField (Some ("String command input." ++ [LF])) ["String" : gostring]
               (ast.Ident "string") None].

(** The source of the end-to-end example, as the parser and [go/doc] hand
    it over: package [simple] with its doc comment, and the type [Tester]
    with its doc comment and one field. *)
Definition simple_source : Source :=
  Parsed
    (doc.Package.mk
       "simple"
       ("Package simple is a simple test." ++ [LF])
       [doc.Type_.mk
          "Tester"
          ("Tester is a test." ++ [LF])
          (ast.GenDecl
             [ast.TypeSpec
                (Some ("Tester" : gostring))
                (ast.StructType
                   (Some [ast.mkField
                            (Some ("String command input." ++ [LF]))
                            ["String" : gostring]
                            (ast.Ident "string")
                            None]))])]).

(** The doc comment of the package [simple] of the test data. *)
Definition simple_doc : gostring :=
  "Package simple is a simple test for cliche. It contains a single Command with"
  ++ [LF] ++ "no tags." ++ [LF].

(** The file [testdata/simple/simple.go] as the parser and [go/doc] hand
    it over: eight exported fields, each with a doc comment and no tag;
    the slice types are not identifiers. *)
Definition testdata_simple : Source :=
  let field (doc name : gostring) (type : ast.Node) :=
    ast.mkField (Some (doc ++ [LF])) [name] type None in
  let slice (elt : gostring) := ast.Other [ast.Ident elt] in
  Parsed
    (doc.Package.mk
       "simple"
       simple_doc
       [doc.Type_.mk
          "Tester"
          ("Tester is a cliche command which exercises default inputs." ++ [LF])
          (ast.GenDecl
             [ast.TypeSpec
                (Some ("Tester" : gostring))
                (ast.StructType
                   (Some
                      [field "String command input." "String" (ast.Ident "string");
                       field "Int command input." "Int" (ast.Ident "int");
                       field "Float command input." "Float" (ast.Ident "float64");
                       field "Boolean command input." "Boolean" (ast.Ident "bool");
                       field "MoreStrings for the command." "MoreStrings" (slice "string");
                       field "MoreInts for the command." "MoreInts" (slice "int");
                       field "MoreFloats for the command." "MoreFloats" (slice "float64");
                       field "MoreBoolans for the command." "MoreBooleans" (slice "bool")]))])]).

(** *** Values, shapes and texts of the further properties *)

(** Neither end of [s] is a white-space rune. *)
Definition trimmed (s : gostring) : Prop :=
  space_width s = 0 /\ space_width_back (rev s) = 0.

(** The value of a kind in a tag made of two tags joined by a semicolon:
    that of the second tag when one of its components carries the prefix,
    that of the first otherwise. *)
Definition later_value (pfx : gostring) (t1 t2 : Tag) : gostring :=
  match carrying pfx (components t2) with
  | [] => last_value pfx t1
  | _ :: _ => last_value pfx t2
  end.

(** A tag that spells out the three values. *)
Definition serialize (a d f : gostring) : Tag :=
  "arg:" ++ a ++ ";default:" ++ d ++ ";flag:" ++ f.

(** A value as [decompose] returns them: trimmed, without semicolon. *)
Definition clean (v : gostring) : Prop :=
  TrimSpace v = v /\ ~ In ";"%char v.

(** The smallest [int]. *)
Definition MinInt : Z := - 2 ^ (strconv.IntSize - 1).

(** What every [ArgSpec] of [Arg] looks like: an index with [End] left at
    zero, or a range that starts at zero or above and either has no end
    or ends above its start. *)
Definition arg_shape (spec : ArgSpec) : Prop :=
  (End_ spec = 0 /\ MinInt <= Start spec <= MaxInt)%Z
  \/ ((0 <= Start spec <= MaxInt)%Z
      /\ (End_ spec = -1 \/ Start spec < End_ spec <= MaxInt)%Z).

(** A byte at which [argRe] cannot start: no digit, no opening bracket. *)
Definition no_start (c : ascii) : bool :=
  negb (digit c) && negb (Ascii.eqb c "[").

(** A flag directive value as [flagRe] reads it: a long name, alone or
    followed by a comma, white space of the class [\s] and one byte of
    the class of the short form. *)
Definition flag_text (long short v : gostring) : Prop :=
  long_name long = true
  /\ ((short = [] /\ v = long)
      \/ exists ws c, short = [c] /\ short_byte c = true
                      /\ forallb space ws = true
                      /\ v = long ++ "," ++ ws ++ [c]).

(** [m'] is [m] with inputs added at the end. *)
Definition extends (m m' : Command.t) : Prop :=
  exists extra,
    m' = Command.with_Inputs (Command.Inputs m ++ extra) m.

(** A package of two types for the examples: a type that is no struct
    and a struct type with the fields of the field-filtering example. *)
Definition sample_package : doc.Package.t :=
  doc.Package.mk
    "sample"
    ("Package sample is an example." ++ [LF])
    [doc.Type_.mk
       "Count" []
       (ast.GenDecl [ast.TypeSpec (Some ("Count" : gostring)) (ast.Ident "int")]);
     doc.Type_.mk
       "Cmd"
       ("Cmd is a command." ++ [LF])
       (ast.GenDecl
          [ast.TypeSpec (Some ("Cmd" : gostring))
                        (ast.StructType (Some filtering_fields))])].

(** Every run of white-space bytes of the class [\s] replaced by one
    space, by recursion on the text: a white-space byte that another one
    follows is dropped, the last one of a run becomes the space. *)
Fixpoint squeeze (s : gostring) : gostring :=
  match s with
  | [] => []
  | c :: t =>
      if space c then
        match t with
        | c' :: _ => if space c' then squeeze t else " "%char :: squeeze t
        | [] => [" "%char]
        end
      else c :: squeeze t
  end.

(** ** Strings: prefixes, pieces and trimming *)

Lemma HasPrefix_app (p r : gostring) : HasPrefix (p ++ r) p = true.
Proof.
  induction p as [|c p IH]; simpl; [reflexivity|].
  now rewrite Ascii.eqb_refl, IH.
Qed.

Lemma HasPrefix_inv (s p : gostring) :
  HasPrefix s p = true -> s = p ++ skipn (length p) s.
Proof.
  revert s; induction p as [|c p IH]; intros s H; simpl in *; [reflexivity|].
  destruct s as [|x s]; [discriminate|].
  apply andb_true_iff in H as [Hc Hp].
  apply Ascii.eqb_eq in Hc; subst x.
  simpl. f_equal. now apply IH.
Qed.

Lemma HasPrefix_head (c : gostring) (a b : ascii) (p q : gostring) :
  HasPrefix c (a :: p) = true -> HasPrefix c (b :: q) = true -> a = b.
Proof.
  destruct c as [|x c]; simpl; [discriminate|].
  intros H1 H2.
  apply andb_true_iff in H1 as [H1 _]. apply andb_true_iff in H2 as [H2 _].
  apply Ascii.eqb_eq in H1, H2. congruence.
Qed.

Lemma HasPrefix_other (c : gostring) (a b : ascii) (p q : gostring) :
  a <> b -> HasPrefix c (a :: p) = true -> HasPrefix c (b :: q) = false.
Proof.
  intros Hab H. destruct (HasPrefix c (b :: q)) eqn:E; [|reflexivity].
  exfalso. apply Hab. eapply HasPrefix_head; eassumption.
Qed.

Lemma is_empty_false (s : gostring) : s <> [] -> is_empty s = false.
Proof. now destruct s. Qed.

Lemma forallb_impl {T : Type} (p q : T -> bool) (l : list T) :
  (forall x, p x = true -> q x = true) ->
  forallb p l = true -> forallb q l = true.
Proof.
  intros Hpq. rewrite !forallb_forall. auto.
Qed.

Lemma last_In {A : Type} (x : A) (l : list A) (d : A) : In (last (x :: l) d) (x :: l).
Proof.
  revert x; induction l as [|y l IH]; intros x; [now left|].
  right. apply (IH y).
Qed.

Lemma infix_refl (s : gostring) : infix s s.
Proof. exists [], []. now rewrite app_nil_r. Qed.

Lemma infix_trans (a b c : gostring) : infix a b -> infix b c -> infix a c.
Proof.
  intros (l1 & r1 & ->) (l2 & r2 & ->).
  exists (l2 ++ l1), (r1 ++ r2). now rewrite !app_assoc.
Qed.

Lemma infix_skipn (n : nat) (s : gostring) : infix (skipn n s) s.
Proof.
  exists (firstn n s), []. now rewrite app_nil_r, firstn_skipn.
Qed.

Lemma infix_rev (a b : gostring) : infix a b -> infix (rev a) (rev b).
Proof.
  intros (l & r & ->). exists (rev r), (rev l).
  now rewrite !rev_app_distr, app_assoc.
Qed.

Lemma trim_with_infix (w : gostring -> nat) (fuel : nat) (s : gostring) :
  infix (trim_with w fuel s) s.
Proof.
  revert s; induction fuel as [|fuel IH]; intros s; cbn [trim_with].
  - apply infix_refl.
  - destruct (w s) as [|k]; [apply infix_refl|].
    eapply infix_trans; [apply IH | apply (infix_skipn (S k) s)].
Qed.

Lemma TrimSpace_infix (s : gostring) : infix (TrimSpace s) s.
Proof.
  unfold TrimSpace.
  eapply infix_trans; [|apply (trim_with_infix space_width (length s) s)].
  set (l := trim_with space_width (length s) s).
  pose proof (trim_with_infix space_width_back (length l) (rev l)) as H.
  apply infix_rev in H. now rewrite rev_involutive in H.
Qed.

Lemma Split_nonempty (s : gostring) (sep : ascii) : Split s sep <> [].
Proof.
  destruct s as [|c s]; simpl; [discriminate|].
  destruct (Ascii.eqb c sep); [discriminate|].
  destruct (Split s sep); discriminate.
Qed.

Lemma Split_infix (s : gostring) (sep : ascii) (c : gostring) :
  In c (Split s sep) -> infix c s.
Proof.
  revert c; induction s as [|x s IH]; intros c H; simpl in H.
  - destruct H as [<-|[]]. apply infix_refl.
  - destruct (Ascii.eqb x sep).
    + destruct H as [<-|H].
      * exists [], (x :: s). reflexivity.
      * destruct (IH c H) as (l & r & ->). now exists (x :: l), r.
    + destruct (Split s sep) as [|piece pieces] eqn:E.
      * now destruct (Split_nonempty s sep).
      * destruct H as [<-|H].
        -- destruct (IH piece (or_introl eq_refl)) as (l & r & Hs).
           (* the first piece of the rest starts the rest *)
           clear IH. revert l r Hs.
           assert (Hp : exists r, s = piece ++ r).
           { clear -E. revert piece pieces E.
             induction s as [|y s IH]; intros piece pieces E; simpl in E.
             - injection E as <- _. now exists [].
             - destruct (Ascii.eqb y sep).
               + injection E as <- _. now exists (y :: s).
               + destruct (Split s sep) as [|p ps] eqn:E'.
                 * now destruct (Split_nonempty s sep).
                 * injection E as <- _.
                   destruct (IH p ps eq_refl) as (r & ->).
                   now exists r. }
           destruct Hp as (r & ->). intros _ _ _.
           now exists [], r.
        -- destruct (IH c (or_intror H)) as (l & r & ->).
           now exists (x :: l), r.
Qed.

Lemma Split_Join (cs : list gostring) (sep : ascii) :
  cs <> [] ->
  Forall (fun c => ~ In sep c) cs ->
  Split (Join cs sep) sep = cs.
Proof.
  induction cs as [|c cs IH]; intros Hne Hall; [contradiction|].
  inversion Hall as [|? ? Hc Hcs]; subst.
  assert (Hpiece : forall rest pieces,
             Split rest sep = pieces ->
             Split (c ++ rest) sep =
             match pieces with
             | p :: ps => (c ++ p) :: ps
             | [] => [] end).
  { intros rest pieces <-. clear IH Hall Hne Hcs.
    induction c as [|x c IHc]; simpl.
    - now destruct (Split rest sep) eqn:E; [destruct (Split_nonempty rest sep)|].
    - destruct (Ascii.eqb x sep) eqn:Ex.
      + apply Ascii.eqb_eq in Ex; subst. exfalso; apply Hc; now left.
      + rewrite IHc by (intros Hin; apply Hc; now right).
        destruct (Split rest sep) eqn:E; [|reflexivity].
        now destruct (Split_nonempty rest sep). }
  destruct cs as [|c' cs].
  - simpl. rewrite <- (app_nil_r c) at 1.
    rewrite (Hpiece [] [[]] eq_refl). now rewrite app_nil_r.
  - change (Join (c :: c' :: cs) sep) with (c ++ sep :: Join (c' :: cs) sep).
    rewrite (Hpiece (sep :: Join (c' :: cs) sep) ([] :: c' :: cs)).
    + now rewrite app_nil_r.
    + simpl Split at 1. rewrite Ascii.eqb_refl. f_equal.
      apply IH; [discriminate|assumption].
Qed.

(** ** Trimming a string that starts and ends with a printable ASCII byte *)

Lemma plain_inv (c : ascii) :
  plain c = true -> (byte c < 128)%N /\ asciiSpace c = false.
Proof.
  unfold plain. intros H. apply andb_true_iff in H as [Hlt Hsp].
  apply N.ltb_lt in Hlt. now destruct (asciiSpace c).
Qed.

Ltac byte_neq :=
  match goal with
  | |- (_ =? _)%N = false => apply N.eqb_neq; lia
  | |- (_ <=? _)%N = false => apply N.leb_gt; lia
  end.

Lemma space2_first_plain (a b : ascii) : (byte a < 128)%N -> space2 a b = false.
Proof.
  intros H. unfold space2.
  replace (byte a =? 194)%N with false by (symmetry; byte_neq).
  reflexivity.
Qed.

Lemma space3_first_plain (a b c : ascii) :
  (byte a < 128)%N -> space3 a b c = false.
Proof.
  intros H. unfold space3.
  replace (byte a =? 225)%N with false by (symmetry; byte_neq).
  replace (byte a =? 226)%N with false by (symmetry; byte_neq).
  replace (byte a =? 227)%N with false by (symmetry; byte_neq).
  reflexivity.
Qed.

Lemma space2_last_plain (a b : ascii) : (byte b < 128)%N -> space2 a b = false.
Proof.
  intros H. unfold space2.
  replace (byte b =? 133)%N with false by (symmetry; byte_neq).
  replace (byte b =? 160)%N with false by (symmetry; byte_neq).
  apply andb_false_r.
Qed.

Lemma space3_last_plain (a b c : ascii) :
  (byte c < 128)%N -> space3 a b c = false.
Proof.
  intros H. unfold space3.
  replace (byte c =? 128)%N with false by (symmetry; byte_neq).
  replace (128 <=? byte c)%N with false by (symmetry; byte_neq).
  replace (byte c =? 168)%N with false by (symmetry; byte_neq).
  replace (byte c =? 169)%N with false by (symmetry; byte_neq).
  replace (byte c =? 175)%N with false by (symmetry; byte_neq).
  replace (byte c =? 159)%N with false by (symmetry; byte_neq).
  now rewrite !andb_false_r.
Qed.

Lemma space_width_plain (a : ascii) (t : gostring) :
  plain a = true -> space_width (a :: t) = 0.
Proof.
  intros H. apply plain_inv in H as [Hlt Hsp].
  unfold space_width. rewrite Hsp.
  destruct t as [|b [|c u]]; [reflexivity| |];
    rewrite space2_first_plain by assumption; [reflexivity|].
  now rewrite space3_first_plain.
Qed.

Lemma space_width_back_plain (a : ascii) (t : gostring) :
  plain a = true -> space_width_back (a :: t) = 0.
Proof.
  intros H. apply plain_inv in H as [Hlt Hsp].
  unfold space_width_back. rewrite Hsp.
  destruct t as [|b [|c u]]; [reflexivity| |];
    rewrite space2_last_plain by assumption; [reflexivity|].
  now rewrite space3_last_plain.
Qed.

Lemma trim_with_stop (w : gostring -> nat) (fuel : nat) (s : gostring) :
  w s = 0 -> trim_with w fuel s = s.
Proof. intros H. destruct fuel; simpl; [reflexivity|]. now rewrite H. Qed.

Lemma TrimSpace_plain_ends (a z : ascii) (m : gostring) :
  plain a = true -> plain z = true ->
  TrimSpace (a :: m ++ [z]) = a :: m ++ [z].
Proof.
  intros Ha Hz. unfold TrimSpace.
  rewrite (trim_with_stop space_width) by now apply space_width_plain.
  change (a :: m ++ [z]) with ((a :: m) ++ [z]).
  rewrite rev_app_distr. cbn [rev app].
  rewrite (trim_with_stop space_width_back)
    by now apply space_width_back_plain.
  change (z :: rev m ++ [a]) with (rev [z] ++ rev (a :: m)).
  now rewrite <- rev_app_distr, rev_involutive.
Qed.

Lemma TrimSpace_plain_one (a : ascii) : plain a = true -> TrimSpace [a] = [a].
Proof.
  intros Ha. unfold TrimSpace.
  rewrite (trim_with_stop space_width) by now apply space_width_plain.
  cbn [rev app].
  now rewrite (trim_with_stop space_width_back)
    by now apply space_width_back_plain.
Qed.

Lemma TrimSpace_all_plain (s : gostring) :
  forallb plain s = true -> TrimSpace s = s.
Proof.
  intros H. destruct s as [|a s]; [reflexivity|].
  destruct (exists_last (l := a :: s)) as (m & z & E); [discriminate|].
  assert (Hz : plain z = true).
  { rewrite forallb_forall in H. apply H. rewrite E.
    apply in_or_app. right. now left. }
  destruct m as [|a' m]; simpl in E; injection E as -> ->.
  - now apply TrimSpace_plain_one.
  - simpl in H. apply andb_true_iff in H as [Ha _].
    now apply TrimSpace_plain_ends.
Qed.

Lemma forallb_plain_app (a b : gostring) :
  forallb plain a = true -> forallb plain b = true ->
  forallb plain (a ++ b) = true.
Proof. intros Ha Hb. now rewrite forallb_app, Ha, Hb. Qed.

Lemma in_range_bounds (lo hi c : ascii) :
  in_range lo hi c = true -> (byte lo <= byte c <= byte hi)%N.
Proof.
  unfold in_range. intros H. apply andb_true_iff in H as [H1 H2].
  apply N.leb_le in H1, H2. lia.
Qed.

(** A byte between [!] and [~] is printable. *)
Lemma graphic_plain (c : ascii) : (33 <= byte c <= 126)%N -> plain c = true.
Proof.
  intros H. unfold plain, asciiSpace.
  replace (byte c <? 128)%N with true by (symmetry; apply N.ltb_lt; lia).
  destruct (byte c) as [|p]; [lia|].
  do 6 (destruct p as [p|p|]; try reflexivity; try lia).
Qed.

Lemma digit_plain (c : ascii) : digit c = true -> plain c = true.
Proof.
  unfold digit, in_range, plain, asciiSpace.
  change (byte "0") with 48%N. change (byte "9") with 57%N.
  intros H. apply andb_true_iff in H as [H1 H2].
  apply N.leb_le in H1, H2.
  replace (byte c <? 128)%N with true by (symmetry; apply N.ltb_lt; lia).
  destruct (byte c) as [|p]; [lia|].
  do 6 (destruct p as [p|p|]; try reflexivity; try lia).
Qed.

Lemma short_byte_bounds (c : ascii) :
  short_byte c = true -> (65 <= byte c <= 122)%N.
Proof.
  unfold short_byte. intros H. apply orb_true_iff in H as [H|H];
    apply in_range_bounds in H;
    change (byte "a") with 97%N in H; change (byte "z") with 122%N in H;
    change (byte "A") with 65%N in H; lia.
Qed.

Lemma name_byte_plain (c : ascii) : name_byte c = true -> plain c = true.
Proof.
  unfold name_byte. intros H. apply graphic_plain.
  repeat (apply orb_true_iff in H as [H|H]).
  - apply in_range_bounds in H.
    change (byte "a") with 97%N in H; change (byte "z") with 122%N in H. lia.
  - apply in_range_bounds in H.
    change (byte "A") with 65%N in H; change (byte "Z") with 90%N in H. lia.
  - apply in_range_bounds in H.
    change (byte "0") with 48%N in H; change (byte "9") with 57%N in H. lia.
  - apply Ascii.eqb_eq in H as ->. now vm_compute.
  - apply Ascii.eqb_eq in H as ->. now vm_compute.
Qed.

Lemma letter_plain (c : ascii) : letter c = true -> plain c = true.
Proof.
  unfold letter. intros H. apply graphic_plain.
  apply orb_true_iff in H as [H|H]; apply in_range_bounds in H;
    change (byte "a") with 97%N in H; change (byte "z") with 122%N in H;
    change (byte "A") with 65%N in H; change (byte "Z") with 90%N in H; lia.
Qed.

Lemma short_byte_not_space (c : ascii) : short_byte c = true -> space c = false.
Proof.
  intros H. apply short_byte_bounds in H. unfold space.
  destruct (byte c) as [|p]; [lia|].
  do 6 (destruct p as [p|p|]; try reflexivity; try lia).
Qed.

Lemma filler_inv (c : ascii) :
  filler c = true -> plain c = true /\ digit c = false /\ Ascii.eqb c "[" = false.
Proof.
  unfold filler. intros H.
  apply andb_true_iff in H as [H H3]. apply andb_true_iff in H as [H1 H2].
  repeat split; [assumption | now destruct (digit c) | now destruct (Ascii.eqb c "[")].
Qed.

(** ** The matcher on the shapes of text the statements speak of *)

Section Greedy.
Context {A : Type}.
Implicit Types (k : gostring -> captures -> option A) (x : A).

Lemma exec_Cat n r1 r2 s caps k :
  exec n (Cat r1 r2) s caps k
  = exec n r1 s caps (fun s' caps' => exec n r2 s' caps' k).
Proof. reflexivity. Qed.

Lemma exec_Alt n r1 r2 s caps k :
  exec n (Alt r1 r2) s caps k
  = match exec n r1 s caps k with
    | Some x => Some x
    | None => exec n r2 s caps k
    end.
Proof. reflexivity. Qed.

Lemma exec_Opt n r s caps k :
  exec n (Opt r) s caps k
  = match exec n r s caps k with
    | Some x => Some x
    | None => k s caps
    end.
Proof. reflexivity. Qed.

Lemma exec_Cap n i r s caps k :
  exec n (Cap i r) s caps k
  = exec n r s caps
         (fun s' caps' =>
            k s' (set_cap i (firstn (length s - length s') s) caps')).
Proof. reflexivity. Qed.

Lemma exec_Chr_here n c s caps k :
  exec n (Chr c) (c :: s) caps k = k s caps.
Proof. simpl. now rewrite Ascii.eqb_refl. Qed.

Lemma star_k_greedy p s1 s2 (k : gostring -> option A) x :
  forallb p s1 = true -> stops p s2 -> k s2 = Some x ->
  star_k p (s1 ++ s2) k = Some x.
Proof.
  intros H1 H2 Hk. induction s1 as [|c s1 IH]; simpl in *.
  - destruct s2 as [|c s2]; [assumption|]. simpl in *. now rewrite H2.
  - apply andb_true_iff in H1 as [Hc H1]. now rewrite Hc, IH.
Qed.

Lemma exec_Plus_greedy n p s1 s2 caps k x :
  s1 <> [] -> forallb p s1 = true -> stops p s2 -> k s2 caps = Some x ->
  exec n (Plus p) (s1 ++ s2) caps k = Some x.
Proof.
  intros Hne H1 H2 Hk. destruct s1 as [|c s1]; [contradiction|].
  simpl in *. apply andb_true_iff in H1 as [Hc H1]. rewrite Hc.
  now apply star_k_greedy.
Qed.

Lemma exec_Plus_stops n p s caps k :
  stops p s -> exec n (Plus p) s caps k = None.
Proof. destruct s as [|c s]; simpl; [reflexivity|]. now intros ->. Qed.

Lemma firstn_length_diff (s1 s2 : gostring) :
  firstn (length (s1 ++ s2) - length s2) (s1 ++ s2) = s1.
Proof.
  rewrite length_app, Nat.add_sub.
  rewrite firstn_app, Nat.sub_diag, firstn_all. simpl. apply app_nil_r.
Qed.

(** A group around a repetition that takes [s1] and stops there. *)
Lemma exec_Cap_Plus n i p s1 s2 caps k x :
  s1 <> [] -> forallb p s1 = true -> stops p s2 ->
  k s2 (set_cap i s1 caps) = Some x ->
  exec n (Cap i (Plus p)) (s1 ++ s2) caps k = Some x.
Proof.
  intros Hne H1 H2 Hk. rewrite exec_Cap.
  apply exec_Plus_greedy; try assumption.
  now rewrite firstn_length_diff.
Qed.

(** The same group made optional: [s1] may be empty, the group is then
    left out, which leaves its entry as it was. *)
Lemma exec_Opt_Cap_Plus n i p s1 s2 caps k x :
  forallb p s1 = true -> stops p s2 ->
  (s1 = [] -> set_cap i [] caps = caps) ->
  k s2 (set_cap i s1 caps) = Some x ->
  exec n (Opt (Cap i (Plus p))) (s1 ++ s2) caps k = Some x.
Proof.
  intros H1 H2 Hempty Hk. rewrite exec_Opt.
  destruct s1 as [|c s1].
  - rewrite exec_Cap, exec_Plus_stops by assumption.
    now rewrite Hempty in Hk.
  - now rewrite (exec_Cap_Plus n i p (c :: s1) s2 caps k x).
Qed.

End Greedy.

Lemma exec_Cap_Plus_all {A : Type} n i p (s1 : gostring) caps
      (k : gostring -> captures -> option A) x :
  s1 <> [] -> forallb p s1 = true ->
  k [] (set_cap i s1 caps) = Some x ->
  exec n (Cap i (Plus p)) s1 caps k = Some x.
Proof.
  intros Hne H1 Hk.
  pose proof (exec_Cap_Plus n i p s1 [] caps k x Hne H1 I Hk) as H.
  now rewrite app_nil_r in H.
Qed.

Lemma star_k_stops {A : Type} p s (k : gostring -> option A) :
  stops p s -> star_k p s k = k s.
Proof. destruct s as [|c s]; simpl; [reflexivity|]. now intros ->. Qed.

(** Greedy repetition that has to give one byte back: the class holds on
    all of [s1 ++ [c]], the continuation fails at the end and succeeds
    before [c]. *)
Lemma star_k_back_one {A : Type} p (s1 : gostring) (c : ascii)
      (k : gostring -> option A) x :
  forallb p s1 = true -> p c = true ->
  k [] = None -> k [c] = Some x ->
  star_k p (s1 ++ [c]) k = Some x.
Proof.
  intros H1 Hc Hend Hk. induction s1 as [|a s1 IH]; simpl in *.
  - now rewrite Hc, Hend.
  - apply andb_true_iff in H1 as [Ha H1]. now rewrite Ha, IH.
Qed.

Lemma exec_Plus_back_one {A : Type} n p (s1 : gostring) (c : ascii) caps
      (k : gostring -> captures -> option A) x :
  s1 <> [] -> forallb p s1 = true -> p c = true ->
  k [] caps = None -> k [c] caps = Some x ->
  exec n (Plus p) (s1 ++ [c]) caps k = Some x.
Proof.
  intros Hne H1 Hc Hend Hk.
  destruct s1 as [|a s1]; [contradiction|].
  cbn [exec app]. simpl in H1. apply andb_true_iff in H1 as [Ha H1].
  rewrite Ha. now apply star_k_back_one.
Qed.

Lemma exec_Cap_Plus_back_one {A : Type} n i p (s1 : gostring) (c : ascii) caps
      (k : gostring -> captures -> option A) x :
  s1 <> [] -> forallb p s1 = true -> p c = true ->
  k [] (set_cap i (s1 ++ [c]) caps) = None ->
  k [c] (set_cap i s1 caps) = Some x ->
  exec n (Cap i (Plus p)) (s1 ++ [c]) caps k = Some x.
Proof.
  intros Hne H1 Hc Hend Hk. rewrite exec_Cap.
  apply exec_Plus_back_one; try assumption.
  - cbn [length]. now rewrite Nat.sub_0_r, firstn_all.
  - now rewrite firstn_length_diff.
Qed.

Lemma exec_Chr_other {A : Type} n (c x : ascii) (s : gostring) caps
      (k : gostring -> captures -> option A) :
  Ascii.eqb x c = false -> exec n (Chr c) (x :: s) caps k = None.
Proof. intros H. cbn [exec]. now rewrite H. Qed.

Lemma exec_Cls_here {A : Type} n p (c : ascii) (s : gostring) caps
      (k : gostring -> captures -> option A) :
  p c = true -> exec n (Cls p) (c :: s) caps k = k s caps.
Proof. intros H. cbn [exec]. now rewrite H. Qed.

Lemma exec_Bot {A : Type} n (s : gostring) caps
      (k : gostring -> captures -> option A) :
  length s = n -> exec n Bot s caps k = k s caps.
Proof. intros <-. cbn [exec]. now rewrite Nat.eqb_refl. Qed.

Lemma exec_Star_stops {A : Type} n p (s : gostring) caps
      (k : gostring -> captures -> option A) :
  stops p s -> exec n (Star p) s caps k = k s caps.
Proof. intros H. cbn [exec]. now rewrite star_k_stops. Qed.

Lemma search_here (n : nat) (re : regex) (s : gostring) caps rest :
  match_here n re s = Some (caps, rest) ->
  search n re s = Some ([], caps, rest).
Proof. intros H. destruct s; simpl; now rewrite H. Qed.

Lemma search_skip (n : nat) (re : regex) (pre s : gostring) :
  (forall pre1 c pre2, pre = pre1 ++ c :: pre2 ->
                       match_here n re (c :: pre2 ++ s) = None) ->
  search n re (pre ++ s)
  = match search n re s with
    | Some (before, caps, rest) => Some (pre ++ before, caps, rest)
    | None => None
    end.
Proof.
  induction pre as [|c pre IH]; intros H.
  - cbn [app]. now destruct (search n re s) as [[[b caps] rest]|].
  - cbn [app search]. rewrite (H [] c pre eq_refl).
    rewrite IH.
    + now destruct (search n re s) as [[[b caps] rest]|].
    + intros pre1 c' pre2 ->. apply (H (c :: pre1) c' pre2). reflexivity.
Qed.

(** ** The submatches of [argRe] and [flagRe] *)

Lemma digit_other_than (x c : ascii) :
  digit x = false -> digit c = true -> other_than x c = true.
Proof.
  intros Hx Hc. unfold other_than.
  destruct (Ascii.eqb_spec c x); [congruence | reflexivity].
Qed.

(** The submatches of [argRe] on a string of digits: the first alternative
    takes all of it. *)
Lemma argRe_on_digits (d : gostring) :
  d <> [] -> forallb digit d = true ->
  FindStringSubmatch argRe d = [d; d; []; []; []].
Proof.
  intros Hne Hd. unfold FindStringSubmatch.
  erewrite search_here; [reflexivity|].
  unfold match_here, argRe.
  change (repeat [] _) with ([[]; []; []; []; []] : captures).
  rewrite exec_Alt.
  erewrite exec_Cap_Plus_all; try eassumption; [reflexivity|].
  cbn [set_cap length]. now rewrite Nat.sub_0_r, firstn_all.
Qed.

(** The submatches of [argRe] on a bracketed pair of digit strings, the
    first of which may be empty. *)
Lemma argRe_on_range (ds de : gostring) :
  forallb digit ds = true -> de <> [] -> forallb digit de = true ->
  FindStringSubmatch argRe ("[" ++ ds ++ ":" ++ de ++ "]")
  = ["[" ++ ds ++ ":" ++ de ++ "]"; []; ds; ":" : gostring; de].
Proof.
  intros Hs Hne He. unfold FindStringSubmatch.
  erewrite search_here; [reflexivity|].
  unfold match_here, argRe.
  change (repeat [] _) with ([[]; []; []; []; []] : captures).
  set (t := "[" ++ ds ++ ":" ++ de ++ "]").
  rewrite exec_Alt, (exec_Cap _ 1), exec_Plus_stops by reflexivity.
  rewrite exec_Cat. 
  change t with ("["%char :: ds ++ (":"%char :: de ++ ("]" : gostring))) at 2.
  rewrite exec_Chr_here, exec_Cat.
  erewrite exec_Opt_Cap_Plus; [reflexivity | | reflexivity | reflexivity |].
  { revert Hs. apply forallb_impl. intros c Hc.
    now apply digit_other_than. }
  rewrite exec_Cat, exec_Opt, exec_Cap, exec_Chr_here.
  rewrite exec_Cat.
  erewrite (exec_Opt_Cap_Plus _ 4 _ de "]");
    [reflexivity | | reflexivity | contradiction |].
  { revert He. apply forallb_impl. intros c Hc.
    now apply digit_other_than. }
  change ("]" : gostring) with ["]"%char].
  rewrite exec_Chr_here.
  cbn [set_cap length]. rewrite !Nat.sub_0_r, firstn_all.
  replace (S (length (de ++ ["]"%char])) - length (de ++ ["]"%char]))
    with 1 by lia.
  reflexivity.
Qed.

(** [argRe] matches nowhere at a byte that is neither a digit nor an
    opening bracket. *)
Lemma argRe_not_here (n : nat) (c : ascii) (s : gostring) :
  digit c = false -> Ascii.eqb c "[" = false ->
  match_here n argRe (c :: s) = None.
Proof.
  intros Hd Hb. unfold match_here, argRe.
  rewrite exec_Alt, exec_Cap, exec_Plus_stops by exact Hd.
  rewrite exec_Cat. cbn [exec]. now rewrite Hb.
Qed.

(** The submatches of [argRe] on digits inside other text. *)
Lemma argRe_on_embedded_digits (pre d post : gostring) :
  forallb filler pre = true -> forallb filler post = true ->
  d <> [] -> forallb digit d = true ->
  FindStringSubmatch argRe (pre ++ d ++ post) = [d; d; []; []; []].
Proof.
  intros Hpre Hpost Hne Hd. unfold FindStringSubmatch.
  rewrite search_skip.
  - erewrite search_here; [reflexivity|].
    unfold match_here, argRe.
    change (repeat [] _) with ([[]; []; []; []; []] : captures).
    rewrite exec_Alt.
    erewrite exec_Cap_Plus; try eassumption; [reflexivity | |].
    + destruct post as [|c post]; [exact I|]. simpl in Hpost |- *.
      apply andb_true_iff in Hpost as [Hc _].
      now apply filler_inv in Hc as (_ & Hc & _).
    + cbn [set_cap]. now rewrite firstn_length_diff.
  - intros pre1 c pre2 ->.
    rewrite forallb_app in Hpre. apply andb_true_iff in Hpre as [_ Hc].
    simpl in Hc. apply andb_true_iff in Hc as [Hc _].
    apply filler_inv in Hc as (_ & Hc1 & Hc2).
    now apply argRe_not_here.
Qed.

(** The submatches of [argRe] on a bracketed text without colon and
    bracket: the second group takes the text. *)
Lemma argRe_on_index (s : gostring) :
  s <> [] ->
  forallb (other_than ":") s = true -> forallb (other_than "]") s = true ->
  FindStringSubmatch argRe ("[" ++ s ++ "]")
  = ["[" ++ s ++ "]"; []; s; []; []].
Proof.
  intros Hne Hc Hb. unfold FindStringSubmatch.
  erewrite search_here; [reflexivity|].
  unfold match_here, argRe.
  change (repeat [] _) with ([[]; []; []; []; []] : captures).
  set (t := "[" ++ s ++ "]").
  rewrite exec_Alt, (exec_Cap _ 1), exec_Plus_stops by reflexivity.
  rewrite exec_Cat.
  change t with ("["%char :: s ++ ["]"%char]) at 2.
  rewrite exec_Chr_here, exec_Cat, exec_Opt.
  erewrite exec_Cap_Plus_back_one; [| assumption | assumption | reflexivity | reflexivity |].
  - reflexivity.
  - rewrite exec_Cat, exec_Opt, exec_Cap.
    rewrite exec_Chr_other by reflexivity.
    rewrite exec_Cat, exec_Opt, exec_Cap, exec_Plus_stops by reflexivity.
    rewrite exec_Chr_here. cbn [set_cap length].
    now rewrite Nat.sub_0_r, firstn_all.
Qed.

(** The submatches of [flagRe] on a long name, a comma and one byte of the
    class of the short form. *)
Lemma flagRe_on_long_short (long : gostring) (c : ascii) :
  long_name long = true -> short_byte c = true ->
  FindStringSubmatch flagRe (long ++ "," ++ [c])
  = [long ++ "," ++ [c]; long; [c]].
Proof.
  intros Hlong Hc. destruct long as [|a rest]; [discriminate|].
  cbn [long_name] in Hlong.
  apply andb_true_iff in Hlong as [Hlong Hrest].
  apply andb_true_iff in Hlong as [Ha Hne].
  unfold FindStringSubmatch.
  erewrite search_here; [reflexivity|].
  unfold match_here, flagRe.
  change (repeat [] _) with ([[]; []; []] : captures).
  set (t := (a :: rest) ++ "," ++ [c]).
  rewrite exec_Cat, exec_Bot by reflexivity.
  rewrite exec_Cat, exec_Cap, exec_Cat.
  change t with (a :: rest ++ ("," ++ [c])) at 2.
  rewrite exec_Cls_here by assumption.
  erewrite exec_Plus_greedy;
    [reflexivity | now destruct rest | assumption | reflexivity |].
  replace (firstn (length t - length ("," ++ [c])) t) with (a :: rest)
    by (symmetry; apply (firstn_length_diff (a :: rest) ("," ++ [c]))).
  rewrite exec_Cat, exec_Opt, exec_Cat.
  change ("," ++ [c]) with (","%char :: [c]).
  rewrite exec_Chr_here, exec_Cat.
  rewrite exec_Star_stops by (now apply short_byte_not_space).
  rewrite exec_Cap, exec_Cls_here by assumption.
  cbn [exec set_cap length Nat.sub firstn].
  now rewrite Nat.sub_0_r, firstn_all.
Qed.

(** ** Numerals and [Atoi] *)

Lemma digits_fold (d : gostring) (acc : Z) :
  forallb strconv.is_digit d = true ->
  strconv.digits acc d
  = Some (fold_left (fun acc c => 10 * acc + (Z.of_N (byte c) - 48))%Z d acc).
Proof.
  revert acc; induction d as [|c d IH]; intros acc H;
    cbn [fold_left forallb strconv.digits] in *.
  - reflexivity.
  - apply andb_true_iff in H as [Hc Hd]. now rewrite Hc, IH.
Qed.

Lemma is_digit_bounds (c : ascii) :
  strconv.is_digit c = true -> (48 <= Z.of_N (byte c) <= 57)%Z.
Proof.
  unfold strconv.is_digit, in_range.
  change (byte "0") with 48%N. change (byte "9") with 57%N.
  intros H. apply andb_true_iff in H as [H1 H2].
  apply N.leb_le in H1, H2. lia.
Qed.

Lemma fold_digits_nonneg (d : gostring) (acc : Z) :
  forallb strconv.is_digit d = true -> (0 <= acc)%Z ->
  (0 <= fold_left (fun acc c => 10 * acc + (Z.of_N (byte c) - 48))%Z d acc)%Z.
Proof.
  revert acc; induction d as [|c d IH]; intros acc H Hacc;
    cbn [fold_left forallb] in *.
  - assumption.
  - apply andb_true_iff in H as [Hc Hd]. apply IH; [assumption|].
    apply is_digit_bounds in Hc. lia.
Qed.

Lemma numeral_nonneg (N : Z) (d : gostring) : numeral_of N d -> (0 <= N)%Z.
Proof.
  intros (_ & Hd & <-). now apply fold_digits_nonneg.
Qed.

Lemma Atoi_numeral (N : Z) (d : gostring) :
  numeral_of N d ->
  strconv.Atoi d = if (N <=? MaxInt)%Z then Some N else None.
Proof.
  intros (Hne & Hd & HN). destruct d as [|c d]; [contradiction|].
  unfold strconv.Atoi.
  assert (Hc : strconv.is_digit c = true)
    by (simpl in Hd; now apply andb_true_iff in Hd as [Hc _]).
  destruct (Ascii.eqb_spec c "-") as [->|_]; [discriminate|].
  destruct (Ascii.eqb_spec c "+") as [->|_]; [discriminate|].
  rewrite digits_fold by assumption. fold (decimal_value (c :: d)).
  rewrite HN. unfold MaxInt.
  destruct (Z.ltb_spec N (2 ^ (strconv.IntSize - 1)));
    destruct (Z.leb_spec N (2 ^ (strconv.IntSize - 1) - 1)); (reflexivity || lia).
Qed.

Lemma Atoi_negative (N : Z) (d : gostring) :
  numeral_of N d -> (N <= MaxInt + 1)%Z ->
  strconv.Atoi ("-" ++ d) = Some (- N)%Z.
Proof.
  intros (Hne & Hd & HN) Hmax. unfold strconv.Atoi.
  cbn [list_ascii_of_string app Ascii.eqb Bool.eqb].
  destruct d as [|c d]; [contradiction|].
  rewrite digits_fold by assumption. fold (decimal_value (c :: d)).
  rewrite HN. unfold MaxInt in Hmax.
  replace (N <=? 2 ^ (strconv.IntSize - 1))%Z with true
    by (symmetry; apply Z.leb_le; lia).
  reflexivity.
Qed.

Lemma decimal_value_snoc (d : gostring) (c : ascii) :
  decimal_value (d ++ [c]) = (10 * decimal_value d + (Z.of_N (byte c) - 48))%Z.
Proof. unfold decimal_value. now rewrite fold_left_app. Qed.

(** Every natural number has a decimal numeral. *)
Lemma numeral_exists (N : Z) : (0 <= N)%Z -> exists d, numeral_of N d.
Proof.
  revert N. apply (Zlt_0_ind (fun N => exists d, numeral_of N d)).
  intros N IH HN.
  set (c := ascii_of_N (48 + Z.to_N (N mod 10))).
  assert (Hmod : (0 <= N mod 10 < 10)%Z) by (apply Z.mod_pos_bound; lia).
  assert (Hc : byte c = (48 + Z.to_N (N mod 10))%N)
    by (apply N_ascii_embedding; lia).
  assert (Hdig : strconv.is_digit c = true).
  { unfold strconv.is_digit, in_range. rewrite Hc.
    change (byte "0") with 48%N. change (byte "9") with 57%N.
    apply andb_true_iff. split; apply N.leb_le; lia. }
  destruct (Z_lt_le_dec N 10) as [Hsmall|Hbig].
  - exists [c]. split; [discriminate|]. split.
    + simpl. now rewrite Hdig.
    + unfold decimal_value. cbn [fold_left]. rewrite Hc.
      rewrite Z.mod_small in * by lia. lia.
  - destruct (IH (N / 10)%Z) as (d & Hne & Hd & Hv).
    { split; [apply Z.div_pos; lia | apply Z.div_lt; lia]. }
    exists (d ++ [c]). split; [now destruct d|]. split.
    + rewrite forallb_app, Hd. simpl. now rewrite Hdig.
    + rewrite decimal_value_snoc, Hv, Hc.
      pose proof (Z.div_mod N 10). lia.
Qed.

Lemma numeral_TrimSpace (N : Z) (d : gostring) :
  numeral_of N d -> TrimSpace d = d.
Proof.
  intros (_ & Hd & _). apply TrimSpace_all_plain.
  revert Hd. apply forallb_impl. exact digit_plain.
Qed.

(** ** [decompose] against the specification's reading *)

Lemma updated_cons (pfx init c : gostring) (comps : list gostring) :
  updated pfx init (c :: comps) =
  updated pfx (if HasPrefix c pfx then TrimSpace (skipn (length pfx) c)
               else init) comps.
Proof.
  unfold updated, carrying. cbn [filter].
  destruct (HasPrefix c pfx); [|reflexivity].
  destruct (filter _ comps) as [|c' cs]; reflexivity.
Qed.

Lemma decompose_step_cases (a d f c : gostring) :
  decompose_step (a, d, f) c =
  let c' := TrimSpace c in
  (if HasPrefix c' "arg:" then TrimSpace (skipn 4 c') else a,
   if HasPrefix c' "default:" then TrimSpace (skipn 8 c') else d,
   if HasPrefix c' "flag:" then TrimSpace (skipn 5 c') else f).
Proof.
  unfold decompose_step, CutPrefix. cbv zeta.
  set (c' := TrimSpace c).
  destruct (HasPrefix c' "arg:") eqn:Ea.
  - assert (Hd : HasPrefix c' "default:" = false)
      by (apply (HasPrefix_other c' "a" "d" "rg:" "efault:");
          [discriminate | exact Ea]).
    assert (Hf : HasPrefix c' "flag:" = false)
      by (apply (HasPrefix_other c' "a" "f" "rg:" "lag:");
          [discriminate | exact Ea]).
    now rewrite Hd, Hf.
  - destruct (HasPrefix c' "flag:") eqn:Ef.
    + assert (Hd : HasPrefix c' "default:" = false)
        by (apply (HasPrefix_other c' "f" "d" "lag:" "efault:");
            [discriminate | exact Ef]).
      now rewrite Hd.
    + destruct (HasPrefix c' "default:"); reflexivity.
Qed.

Lemma fold_decompose (l : list gostring) (a d f : gostring) :
  fold_left decompose_step l (a, d, f) =
  (updated "arg:" a (map TrimSpace l),
   updated "default:" d (map TrimSpace l),
   updated "flag:" f (map TrimSpace l)).
Proof.
  revert a d f; induction l as [|c l IH]; intros a d f; [reflexivity|].
  cbn [fold_left map]. rewrite decompose_step_cases. cbv zeta.
  rewrite IH, !updated_cons. reflexivity.
Qed.

(** [decompose] returns the three directive values of the specification's
    reading. *)
Lemma decompose_directives (tag : Tag) :
  decompose tag =
  (last_value "arg:" tag, last_value "default:" tag, last_value "flag:" tag).
Proof.
  unfold decompose. destruct tag as [|c tag]; [reflexivity|].
  cbn [is_empty]. apply fold_decompose.
Qed.

Lemma components_Join (cs : list gostring) (pfx : gostring) :
  Forall (fun c => ~ In ";"%char c) cs ->
  directive pfx (components (Join cs ";")) = directive pfx (map TrimSpace cs).
Proof.
  intros H. destruct cs as [|c cs].
  - unfold directive, carrying. simpl.
    destruct pfx; reflexivity.
  - unfold components. now rewrite Split_Join.
Qed.

(** C6: for every tag, [decompose] returns for each kind the trimmed value
    of the last component that carries the kind's prefix, the empty string
    when there is none; the result does not depend on how the components
    of different kinds are ordered among each other, components of no kind
    are ignored, and the two examples of the specification hold. *)
Theorem decompose_last_wins :
  (forall tag : Tag,
      decompose tag =
      (last_value "arg:" tag, last_value "default:" tag,
       last_value "flag:" tag))
  /\ (forall cs1 cs2 : list gostring,
         Forall (fun c => ~ In ";"%char c) cs1 ->
         Forall (fun c => ~ In ";"%char c) cs2 ->
         (forall pfx : gostring,
             In pfx ["arg:" : gostring; "default:" : gostring;
                     "flag:" : gostring] ->
             carrying pfx (map TrimSpace cs1)
             = carrying pfx (map TrimSpace cs2)) ->
         decompose (Join cs1 ";") = decompose (Join cs2 ";"))
  /\ decompose "arg:FOO;arg:QUX" = ("QUX" : gostring, [], [])
  /\ decompose "arg:FOO;default:BAR;flag:BAZ"
     = decompose "default:BAR;flag:BAZ;arg:FOO".
Proof.
  split; [exact decompose_directives|].
  split; [|split; reflexivity].
  intros cs1 cs2 H1 H2 Hsame.
  rewrite !decompose_directives. unfold last_value.
  rewrite !components_Join by assumption.
  unfold directive.
  rewrite (Hsame "arg:"), (Hsame "default:"), (Hsame "flag:");
    simpl; auto.
Qed.

(** The components ["nonsense"] and ["flag:B"] move around ["arg: FOO"]. *)
Lemma decompose_last_wins_witness :
  decompose (Join ["arg:A" : gostring; "nonsense" : gostring;
                   "flag: B" : gostring; "arg: FOO " : gostring] ";")
  = decompose (Join ["flag: B" : gostring; "arg:A" : gostring;
                     "arg: FOO " : gostring; "nonsense" : gostring] ";").
Proof.
  apply (proj1 (proj2 decompose_last_wins)).
  - repeat constructor; intros H; vm_compute in H; intuition congruence.
  - repeat constructor; intros H; vm_compute in H; intuition congruence.
  - intros pfx [<-|[<-|[<-|[]]]]; reflexivity.
Defined.

(** ** [Default] *)

Lemma directive_infix (pfx : gostring) (tag : Tag) :
  infix (last_value pfx tag) tag.
Proof.
  unfold last_value, directive.
  destruct (carrying pfx (components tag)) as [|c cs] eqn:E.
  - now exists [], tag.
  - assert (Hin : In (last (c :: cs) []) (carrying pfx (components tag)))
      by (rewrite E; apply last_In).
    apply filter_In in Hin as [Hin _].
    apply in_map_iff in Hin as (piece & Hpiece & Hin).
    eapply infix_trans; [apply TrimSpace_infix|].
    eapply infix_trans; [apply infix_skipn|].
    rewrite <- Hpiece.
    eapply infix_trans; [apply TrimSpace_infix|].
    eapply Split_infix; eassumption.
Qed.

Lemma Default_value (tag : Tag) :
  Default tag =
  if is_empty (last_value "default:" tag) then ([], false)
  else (last_value "default:" tag, true).
Proof.
  unfold Default. rewrite decompose_directives.
  now destruct (last_value "default:" tag).
Qed.

(** C8: [Default] returns the value of the default directive with ok
    exactly when that directive is there with a value that is not empty,
    and not-ok both when no component carries the prefix and when the
    value is empty; the value returned occurs in the tag as it is, quotes
    included. *)
Theorem Default_ok_iff :
  (forall (tag : Tag) (v : gostring),
      Default tag = (v, true) <-> v = last_value "default:" tag /\ v <> [])
  /\ (forall tag : Tag,
         last_value "default:" tag = [] <-> Default tag = ([], false))
  /\ (forall tag : Tag,
         carrying "default:" (components tag) = [] -> Default tag = ([], false))
  /\ (forall tag : Tag, infix (fst (Default tag)) tag)
  /\ Default "default:BAR" = ("BAR" : gostring, true)
  /\ Default "default:" = ([], false)
  /\ Default [] = ([], false)
  /\ Default ("default:" ++ dquote :: "foo" ++ [dquote])
     = (dquote :: "foo" ++ [dquote], true).
Proof.
  split; [|split; [|split; [|split; [|repeat split]]]].
  - intros tag v. rewrite Default_value.
    destruct (last_value "default:" tag) as [|c t]; cbn [is_empty]; split.
    + discriminate.
    + intros [-> Hne]. now destruct Hne.
    + intros H. injection H as <-. split; [reflexivity | discriminate].
    + now intros [-> _].
  - intros tag. rewrite Default_value.
    destruct (last_value "default:" tag) as [|c t]; cbn [is_empty]; split;
      (reflexivity || discriminate).
  - intros tag H. rewrite Default_value. unfold last_value, directive.
    now rewrite H.
  - intros tag. rewrite Default_value.
    destruct (last_value "default:" tag) as [|c t] eqn:E; cbn [is_empty fst].
    + now exists [], tag.
    + rewrite <- E. apply directive_infix.
Qed.

Lemma Default_ok_iff_witness :
  Default "flag:foo,F; default: BAR " = ("BAR" : gostring, true).
Proof.
  apply (proj1 Default_ok_iff). split; [reflexivity | discriminate].
Defined.

(** ** [Arg] *)

Lemma Arg_of_arg_value (tag : Tag) :
  Arg tag =
  if is_empty (arg_value tag) then None
  else let '(ok, ret) := parseArg (arg_value tag) (mkArgSpec 0 0) in
       if ok then Some ret else None.
Proof.
  unfold Arg, arg_value. now destruct (decompose tag) as [[a d] f].
Qed.

(** C2, as amended: when the arg directive value of a tag is a bare
    decimal numeral of [N], [Arg] returns ok with [Start] equal to [N] and
    [End] left at zero, provided [N] fits an [int]; a numeral beyond the
    largest [int] is not-ok.  Every natural number has such a numeral
    ([numeral_exists]). *)
Theorem Arg_bare_numeral (tag : Tag) (d : gostring) (N : Z) :
  numeral_of N d ->
  arg_value tag = d ->
  ((N <= MaxInt)%Z -> Arg tag = Some (mkArgSpec N 0))
  /\ ((MaxInt < N)%Z -> Arg tag = None).
Proof.
  intros Hnum Harg.
  assert (HArg : Arg tag =
                 if (N <=? MaxInt)%Z then Some (mkArgSpec N 0) else None).
  { rewrite Arg_of_arg_value, Harg.
    pose proof Hnum as (Hne & Hd & _).
    rewrite (is_empty_false d Hne). unfold parseArg.
    rewrite (numeral_TrimSpace N d Hnum), (is_empty_false d Hne).
    rewrite argRe_on_digits by assumption.
    cbn [length Nat.eqb negb nth].
    rewrite (is_empty_false d Hne). cbn [negb].
    rewrite (Atoi_numeral N d Hnum).
    destruct (N <=? MaxInt)%Z; reflexivity. }
  rewrite HArg. split; intros H.
  - now apply Z.leb_le in H as ->.
  - now apply Z.leb_gt in H as ->.
Qed.

Lemma Arg_bare_numeral_witness : Arg "arg:42" = Some (mkArgSpec 42 0).
Proof.
  assert (H : numeral_of 42 "42") by (split; [discriminate | split; reflexivity]).
  apply (proj1 (Arg_bare_numeral "arg:42" "42" 42 H eq_refl)).
  now vm_compute.
Defined.

(** C2 as stated fails: on ["arg:42"] the [End] of the result is 0, not
    42. *)
Lemma Arg_bare_42_End_zero :
  Arg "arg:42" = Some (mkArgSpec 42 0)
  /\ Arg "arg:42" <> Some (mkArgSpec 42 42).
Proof. split; [reflexivity | discriminate]. Qed.

Lemma range_text_shape (ds de : gostring) :
  "[" ++ ds ++ ":" ++ de ++ "]"
  = "["%char :: (ds ++ ":"%char :: de) ++ ["]"%char].
Proof. cbn [list_ascii_of_string app]. now rewrite <- app_assoc. Qed.

Lemma parseArg_range (ds de : gostring) (S E : Z) :
  opt_numeral_of S ds -> numeral_of E de ->
  (S <= MaxInt)%Z -> (E <= MaxInt)%Z ->
  parseArg ("[" ++ ds ++ ":" ++ de ++ "]") (mkArgSpec 0 0)
  = ((E >? S)%Z, mkArgSpec S E).
Proof.
  intros HS HE HSmax HEmax.
  pose proof HE as (Hne & Hde & _).
  assert (Hds : forallb digit ds = true).
  { destruct HS as [[-> _]|(_ & H & _)]; [reflexivity | exact H]. }
  unfold parseArg.
  replace (TrimSpace ("[" ++ ds ++ ":" ++ de ++ "]"))
    with ("[" ++ ds ++ ":" ++ de ++ "]")
    by (rewrite range_text_shape; symmetry;
        now apply TrimSpace_plain_ends).
  rewrite argRe_on_range by assumption.
  cbn [is_empty list_ascii_of_string app length Nat.eqb negb nth].
  rewrite andb_false_r. cbn [andb].
  rewrite (is_empty_false de Hne), (Atoi_numeral E de HE).
  apply Z.leb_le in HEmax as ->.
  pose proof (numeral_nonneg E de HE) as HE0.
  destruct HS as [[-> ->]|HS].
  - cbn [is_empty Start End_ negb andb].
    replace (0 >=? 0)%Z with true by reflexivity.
    replace (E =? -1)%Z with false by (symmetry; apply Z.eqb_neq; lia).
    reflexivity.
  - pose proof HS as (Hnes & _ & _).
    pose proof (numeral_nonneg S ds HS) as HS0.
    rewrite (is_empty_false ds Hnes), (Atoi_numeral S ds HS).
    apply Z.leb_le in HSmax as ->.
    cbn [Start End_ negb andb].
    replace (S >=? 0)%Z with true by (symmetry; apply Z.geb_le; lia).
    replace (E =? -1)%Z with false by (symmetry; apply Z.eqb_neq; lia).
    reflexivity.
Qed.

(** [parseArg] on a bracketed pair of numerals whose first is beyond the
    largest [int]: the start stays at zero, and the error of its reading
    is replaced by the outcome of reading the end. *)
Lemma parseArg_range_overflowing_start (ds de : gostring) (S E : Z) :
  numeral_of S ds -> numeral_of E de ->
  (MaxInt < S)%Z -> (E <= MaxInt)%Z ->
  parseArg ("[" ++ ds ++ ":" ++ de ++ "]") (mkArgSpec 0 0)
  = ((E >? 0)%Z, mkArgSpec 0 E).
Proof.
  intros HS HE HSmax HEmax.
  pose proof HE as (Hne & Hde & _).
  pose proof HS as (Hnes & Hds & _).
  unfold parseArg.
  replace (TrimSpace ("[" ++ ds ++ ":" ++ de ++ "]"))
    with ("[" ++ ds ++ ":" ++ de ++ "]")
    by (rewrite range_text_shape; symmetry;
        now apply TrimSpace_plain_ends).
  rewrite argRe_on_range by assumption.
  cbn [is_empty list_ascii_of_string app length Nat.eqb negb nth].
  rewrite andb_false_r. cbn [andb].
  rewrite (is_empty_false de Hne), (Atoi_numeral E de HE).
  apply Z.leb_le in HEmax as ->.
  pose proof (numeral_nonneg E de HE) as HE0.
  rewrite (is_empty_false ds Hnes), (Atoi_numeral S ds HS).
  replace (S <=? MaxInt)%Z with false by (symmetry; apply Z.leb_gt; lia).
  cbn [Start End_ negb andb].
  replace (0 >=? 0)%Z with true by reflexivity.
  replace (E =? -1)%Z with false by (symmetry; apply Z.eqb_neq; lia).
  reflexivity.
Qed.

(** Within the range of [int] the bounded range is read as the claim
    says: ok with [{Start: S, End: E}] when [E] is greater than [S],
    not-ok otherwise. *)
Lemma Arg_range_within_int (tag : Tag) (ds de : gostring) (S E : Z) :
  opt_numeral_of S ds -> numeral_of E de ->
  (S <= MaxInt)%Z -> (E <= MaxInt)%Z ->
  arg_value tag = "[" ++ ds ++ ":" ++ de ++ "]" ->
  ((S < E)%Z -> Arg tag = Some (mkArgSpec S E))
  /\ ((E <= S)%Z -> Arg tag = None).
Proof.
  intros HS HE HSmax HEmax Harg.
  rewrite Arg_of_arg_value, Harg.
  rewrite (parseArg_range ds de S E) by assumption.
  cbn [is_empty list_ascii_of_string app].
  split; intros H.
  - now replace (E >? S)%Z with true by (symmetry; apply Z.gtb_lt; lia).
  - replace (E >? S)%Z with false; [reflexivity|].
    symmetry. rewrite Z.gtb_ltb. apply Z.ltb_ge. lia.
Qed.

(** C7: the claim wants a bounded range whose end is not greater than its
    start rejected; when the start is a numeral beyond the largest [int]
    and the end a numeral of a positive [int], so that the end is the
    smaller, [Arg] returns ok with the range from zero to that end:
    [parseArg] keeps the error of reading the start in [err] and then
    assigns the outcome of reading the end to the same variable. *)
Theorem Arg_accepts_range_below_overflowing_start
        (tag : Tag) (ds de : gostring) (S E : Z) :
  numeral_of S ds -> numeral_of E de ->
  (MaxInt < S)%Z -> (0 < E <= MaxInt)%Z ->
  arg_value tag = "[" ++ ds ++ ":" ++ de ++ "]" ->
  (E < S)%Z /\ Arg tag = Some (mkArgSpec 0 E).
Proof.
  intros HS HE HSmax HEmax Harg. split; [lia|].
  rewrite Arg_of_arg_value, Harg.
  rewrite (parseArg_range_overflowing_start ds de S E) by (assumption || lia).
  cbn [is_empty list_ascii_of_string app].
  now replace (E >? 0)%Z with true by (symmetry; apply Z.gtb_lt; lia).
Qed.

Lemma Arg_accepts_range_below_overflowing_start_witness :
  (5 < 9223372036854775808)%Z
  /\ Arg "arg:[9223372036854775808:5]" = Some (mkArgSpec 0 5).
Proof.
  assert (HS : numeral_of 9223372036854775808 "9223372036854775808")
    by (split; [discriminate | split; reflexivity]).
  assert (HE : numeral_of 5 "5")
    by (split; [discriminate | split; reflexivity]).
  assert (HSmax : (MaxInt < 9223372036854775808)%Z) by now vm_compute.
  assert (HEmax : (0 < 5 <= MaxInt)%Z) by now vm_compute.
  exact (Arg_accepts_range_below_overflowing_start
           "arg:[9223372036854775808:5]" "9223372036854775808" "5"
           9223372036854775808 5 HS HE HSmax HEmax eq_refl).
Defined.

(** C3: the claim wants an arg directive value with text around a number
    rejected, as ["foo42bar"]; [argRe] is not anchored, so [Arg] finds the
    numeral inside any text without digits and opening brackets and
    returns ok with its value. *)
Theorem Arg_accepts_embedded_digits (tag : Tag) (pre d post : gostring) (N : Z) :
  forallb filler pre = true -> forallb filler post = true ->
  numeral_of N d -> (N <= MaxInt)%Z ->
  arg_value tag = pre ++ d ++ post ->
  Arg tag = Some (mkArgSpec N 0).
Proof.
  intros Hpre Hpost Hnum Hmax Harg.
  pose proof Hnum as (Hne & Hd & _).
  assert (Hval : pre ++ d ++ post <> [])
    by (destruct pre; [now destruct d | discriminate]).
  rewrite Arg_of_arg_value, Harg, (is_empty_false _ Hval).
  unfold parseArg.
  rewrite TrimSpace_all_plain.
  2:{ apply forallb_plain_app; [|apply forallb_plain_app].
      - revert Hpre. apply forallb_impl. intros c Hc.
        now apply filler_inv in Hc.
      - revert Hd. apply forallb_impl. exact digit_plain.
      - revert Hpost. apply forallb_impl. intros c Hc.
        now apply filler_inv in Hc. }
  rewrite (is_empty_false _ Hval).
  rewrite argRe_on_embedded_digits by assumption.
  cbn [length Nat.eqb negb nth].
  rewrite (is_empty_false d Hne). cbn [negb].
  rewrite (Atoi_numeral N d Hnum).
  now apply Z.leb_le in Hmax as ->.
Qed.

Lemma Arg_accepts_embedded_digits_witness :
  Arg "arg:foo42bar" = Some (mkArgSpec 42 0).
Proof.
  assert (H : numeral_of 42 "42") by (split; [discriminate | split; reflexivity]).
  assert (Hmax : (42 <= MaxInt)%Z) by now vm_compute.
  exact (Arg_accepts_embedded_digits "arg:foo42bar" "foo" "42" "bar" 42
           eq_refl eq_refl H Hmax eq_refl).
Defined.

(** C4: the claim wants every result of [Arg] to have a [Start] that is
    not negative and ["arg:[-1]"] rejected; the test on [Start] is made for
    ranges only, so on a bracketed negative numeral [Arg] returns ok with
    the negative [Start]. *)
Theorem Arg_accepts_negative_index (tag : Tag) (d : gostring) (N : Z) :
  numeral_of N d -> (N <= MaxInt + 1)%Z ->
  arg_value tag = "[-" ++ d ++ "]" ->
  Arg tag = Some (mkArgSpec (- N) 0).
Proof.
  intros Hnum Hmax Harg.
  pose proof Hnum as (Hne & Hd & _).
  rewrite Arg_of_arg_value, Harg.
  cbn [list_ascii_of_string app is_empty].
  unfold parseArg.
  replace (TrimSpace ("["%char :: "-"%char :: d ++ ["]"%char]))
    with ("["%char :: "-"%char :: d ++ ["]"%char])
    by (symmetry; now apply (TrimSpace_plain_ends "[" "]" ("-"%char :: d))).
  cbn [is_empty].
  change ("["%char :: "-"%char :: d ++ ["]"%char])
    with ("[" ++ ("-" ++ d) ++ "]").
  rewrite argRe_on_index.
  - cbn [length Nat.eqb negb nth is_empty].
    cbn [list_ascii_of_string app is_empty andb].
    change ("-"%char :: d) with ("-" ++ d).
    rewrite (Atoi_negative N d Hnum Hmax). reflexivity.
  - discriminate.
  - cbn [list_ascii_of_string app forallb]. apply andb_true_iff. split; [reflexivity|].
    revert Hd. apply forallb_impl. intros c Hc. now apply digit_other_than.
  - cbn [list_ascii_of_string app forallb]. apply andb_true_iff. split; [reflexivity|].
    revert Hd. apply forallb_impl. intros c Hc. now apply digit_other_than.
Qed.

Lemma Arg_accepts_negative_index_witness :
  Arg "arg:[-1]" = Some (mkArgSpec (-1) 0).
Proof.
  assert (H : numeral_of 1 "1") by (split; [discriminate | split; reflexivity]).
  assert (Hmax : (1 <= MaxInt + 1)%Z) by now vm_compute.
  exact (Arg_accepts_negative_index "arg:[-1]" "1" 1 H Hmax eq_refl).
Defined.

(** ** [Flag] *)

Lemma Flag_of_flag_value (tag : Tag) :
  Flag tag =
  if is_empty (flag_value tag) then None
  else let '(ok, ret) := parseFlag (flag_value tag) (mkFlagSpec [] []) in
       if ok then Some ret else None.
Proof.
  unfold Flag, flag_value. now destruct (decompose tag) as [[a d] f].
Qed.

Lemma Flag_on_long_short (tag : Tag) (long : gostring) (c : ascii) :
  long_name long = true -> short_byte c = true ->
  flag_value tag = long ++ "," ++ [c] ->
  Flag tag = Some (mkFlagSpec long [c]).
Proof.
  intros Hlong Hc Hflag.
  assert (Hval : long ++ "," ++ [c] <> []) by now destruct long.
  rewrite Flag_of_flag_value, Hflag, (is_empty_false _ Hval).
  unfold parseFlag.
  rewrite TrimSpace_all_plain.
  - rewrite (is_empty_false _ Hval).
    rewrite flagRe_on_long_short by assumption. reflexivity.
  - destruct long as [|a rest]; [discriminate|].
    cbn [long_name] in Hlong.
    apply andb_true_iff in Hlong as [Hlong Hrest].
    apply andb_true_iff in Hlong as [Ha _].
    cbn [app forallb]. rewrite (letter_plain a Ha). cbn [andb].
    rewrite forallb_app. apply andb_true_iff. split.
    + revert Hrest. apply forallb_impl. exact name_byte_plain.
    + cbn [list_ascii_of_string app forallb].
      rewrite (graphic_plain c) by (apply short_byte_bounds in Hc; lia).
      reflexivity.
Qed.

(** C5: the claim wants a short form that is not a letter rejected; the
    class of the short form is [[a-zA-z]], which holds the six bytes
    between [Z] and [a] too, so [Flag] returns ok on a long name followed
    by a comma and one of these bytes. *)
Theorem Flag_accepts_non_letter_short (tag : Tag) (long : gostring) (c : ascii) :
  long_name long = true ->
  In c non_letters ->
  flag_value tag = long ++ "," ++ [c] ->
  letter c = false /\ Flag tag = Some (mkFlagSpec long [c]).
Proof.
  intros Hlong Hin Hflag.
  assert (H : letter c = false /\ short_byte c = true).
  { unfold non_letters in Hin. cbn [list_ascii_of_string In] in Hin.
    repeat (destruct Hin as [<-|Hin]; [now split|]). contradiction. }
  destruct H as [Hnot Hc]. split; [exact Hnot|].
  now apply Flag_on_long_short.
Qed.

Lemma Flag_accepts_non_letter_short_witness :
  letter "_" = false /\ Flag "flag:foo,_" = Some (mkFlagSpec "foo" "_").
Proof.
  apply (Flag_accepts_non_letter_short "flag:foo,_" "foo" "_");
    [reflexivity | | reflexivity].
  do 4 right. now left.
Defined.

(** ** The fields [compileInputs] keeps *)

Section Inputs.
Context {lib : Library}.

Lemma compile_field_cases (inputs : list CommandInput.t) (f : ast.Field) :
  compile_field inputs f
  = if eligible f then inputs ++ [input_of f] else inputs.
Proof.
  unfold compile_field, eligible, input_of, sole_name.
  destruct (ast.Names f) as [|name [|name' names]]; cbn; try reflexivity.
  now destruct (IsExported name).
Qed.

Lemma fold_compile_field (fields : list ast.Field)
      (inputs : list CommandInput.t) :
  fold_left compile_field fields inputs
  = inputs ++ map input_of (filter eligible fields).
Proof.
  revert inputs; induction fields as [|f fields IH]; intros inputs;
    cbn [fold_left filter].
  - now rewrite app_nil_r.
  - rewrite IH, compile_field_cases.
    destruct (eligible f); [|reflexivity].
    cbn [map]. now rewrite <- app_assoc.
Qed.

Lemma not_eligible_cases (f : ast.Field) :
  eligible f = false
  <-> (ast.Names f = []
       \/ 1 < length (ast.Names f)
       \/ exists name, ast.Names f = [name] /\ IsExported name = false).
Proof.
  unfold eligible.
  destruct (ast.Names f) as [|name [|name' names]]; cbn [length]; split.
  - now left.
  - reflexivity.
  - intros H. right. right. now exists name.
  - intros [H|[H|(n & H & Hn)]]; [discriminate | lia |].
    now injection H as ->.
  - intros _. right. left. lia.
  - reflexivity.
Qed.

(** C9: [compileInputs] yields one input for each field that has exactly
    one name, an exported one, in the order of the declaration, and none
    for a field without a name, with several names or with an unexported
    name; it yields a list whatever the fields are, the empty one for a
    nil struct type or a nil field list. *)
Theorem compileInputs_eligible_fields :
  (forall fields : list ast.Field,
      compileInputs (Some (Some fields))
      = map input_of (filter eligible fields))
  /\ (forall fields : list ast.Field,
         map CommandInput.FieldName (compileInputs (Some (Some fields)))
         = map sole_name (filter eligible fields))
  /\ (forall f : ast.Field,
         eligible f = false
         <-> (ast.Names f = []
              \/ 1 < length (ast.Names f)
              \/ exists name,
                   ast.Names f = [name] /\ IsExported name = false))
  /\ compileInputs None = []
  /\ compileInputs (Some None) = [].
Proof.
  assert (H1 : forall fields : list ast.Field,
             compileInputs (Some (Some fields))
             = map input_of (filter eligible fields))
    by (intros fields; unfold compileInputs; now rewrite fold_compile_field).
  split; [exact H1|]. split; [|split; [|split; reflexivity]].
  - intros fields. rewrite H1, map_map. reflexivity.
  - exact not_eligible_cases.
Qed.

End Inputs.

Lemma compileInputs_eligible_fields_witness :
  @compileInputs words_library (Some (Some filtering_fields))
  = [CommandInput.mk "String" [] ("String command input." ++ [LF]) "string"].
Proof.
  rewrite (proj1 (@compileInputs_eligible_fields words_library)).
  reflexivity.
Defined.

(** ** [FromFile] *)

Section NodeInduction.
Variable P : ast.Node -> Prop.
Hypothesis H_GenDecl :
  forall specs, Forall P specs -> P (ast.GenDecl specs).
Hypothesis H_TypeSpec :
  forall name type, P type -> P (ast.TypeSpec name type).
Hypothesis H_StructType :
  forall fields, Forall (fun f => P (ast.Type_ f)) fields ->
                 P (ast.StructType (Some fields)).
Hypothesis H_StructNil : P (ast.StructType None).
Hypothesis H_Ident : forall name, P (ast.Ident name).
Hypothesis H_Other :
  forall children, Forall P children -> P (ast.Other children).

Lemma Node_induction : forall n, P n.
Proof.
  fix IH 1. intros [specs|name type|[fields|]|name|children].
  - apply H_GenDecl. induction specs as [|x r IHr]; constructor;
      [apply IH | exact IHr].
  - apply H_TypeSpec, IH.
  - apply H_StructType. induction fields as [|f r IHr]; constructor;
      [destruct f; apply IH | exact IHr].
  - exact H_StructNil.
  - apply H_Ident.
  - apply H_Other. induction children as [|x r IHr]; constructor;
      [apply IH | exact IHr].
Qed.
End NodeInduction.

Section NoInputs.
Context {lib : Library}.

Lemma fold_left_fixed {X Y : Type} (f : X -> Y -> X) (l : list Y) (x : X) :
  Forall (fun y => f x y = x) l -> fold_left f l x = x.
Proof.
  induction 1 as [|y l Hy _ IH]; cbn [fold_left]; [reflexivity|].
  now rewrite Hy.
Qed.

(** With [typ] empty, the walk leaves the [Command] as it is. *)
Lemma Inspect_typ_empty (n : ast.Node) :
  forall meta : Command.t,
    well_named n = true -> Command.typ meta = [] -> Inspect n meta = meta.
Proof.
  induction n as [specs IH|name type IH|fields IH| |name|children IH]
    using Node_induction; intros meta Hn Htyp; cbn [Inspect Compile].
  - cbn [well_named] in Hn. cbn [snd]. apply fold_left_fixed.
    rewrite forallb_forall in Hn. rewrite Forall_forall in IH |- *.
    intros spec Hin. now apply IH; [|apply Hn|].
  - cbn [well_named] in Hn. apply andb_true_iff in Hn as [Hname Htype].
    destruct name as [[|c name]|]; [discriminate| |].
    + rewrite Htyp. cbn [str_eqb]. 
      destruct (list_eq_dec ascii_dec (c :: name) []) as [E|_]; [discriminate|].
      cbn [negb snd Compile]. now apply IH.
    + cbn [snd Compile]. now apply IH.
  - cbn [well_named] in Hn. cbn [snd]. apply fold_left_fixed.
    rewrite forallb_forall in Hn. rewrite Forall_forall in IH |- *.
    intros [d ns t tg] Hin. apply (IH _ Hin); [|exact Htyp].
    exact (Hn _ Hin).
  - reflexivity.
  - reflexivity.
  - cbn [well_named] in Hn. cbn [snd]. apply fold_left_fixed.
    rewrite forallb_forall in Hn. rewrite Forall_forall in IH |- *.
    intros child Hin. now apply IH; [|apply Hn|].
Qed.

(** Whatever the source and the type asked for, the [Command] of
    [FromFile] has no inputs. *)
Lemma FromFile_never_compiles_inputs (pkg : doc.Package.t)
      (typeName : gostring) (c : Command.t) :
  forallb (fun typ => well_named (doc.Type_.Decl typ))
          (doc.Package.Types pkg) = true ->
  FromFile (Parsed pkg) typeName = Some c ->
  Command.Inputs c = [].
Proof.
  intros Hnamed. unfold FromFile.
  destruct (find _ (doc.Package.Types pkg)) as [ourType|] eqn:Efind;
    [|discriminate].
  apply find_some in Efind as [Hin _].
  rewrite forallb_forall in Hnamed. specialize (Hnamed _ Hin).
  cbv zeta. rewrite Inspect_typ_empty by (assumption || reflexivity).
  now intros [= <-].
Qed.

End NoInputs.

(** C1: on the source of the end-to-end example, [FromFile] returns the
    [Command] the claim describes in every field but [Inputs], which is
    empty where the claim wants the input of the field [String]:
    [FromFile] leaves the field [typ] of the [Command] empty, [Compile]
    compares the name [Tester] with it and never reaches
    [compileInputs]. *)
Theorem FromFile_simple_no_inputs (lib : Library) :
  ToKebab "simple" = "simple" ->
  FromFile simple_source "Tester"
  = Some (Command.mk "simple" "simple" "Tester" "simple is a simple test."
                     "Tester is a test." [] []).
Proof.
  intros H. unfold FromFile, simple_source.
  cbn [find doc.Package.Types doc.Type_.Name doc.Package.Name doc.Package.Doc
       doc.Type_.Doc doc.Type_.Decl].
  replace (str_eqb "Tester" "Tester") with true by reflexivity.
  cbv iota beta zeta. unfold commandName. rewrite H.
  reflexivity.
Qed.

Lemma FromFile_simple_no_inputs_witness :
  @FromFile words_library simple_source "Tester"
  = Some (Command.mk "simple" "simple" "Tester" "simple is a simple test."
                     "Tester is a test." [] []).
Proof.
  apply (FromFile_simple_no_inputs words_library). reflexivity.
Defined.

(** ** The two [sanitizeHelp] *)

Lemma cliche_sanitizeHelp_helpText (doc pkg cmd : gostring) :
  cliche.sanitizeHelp doc pkg cmd = TrimSpace (helpText doc pkg cmd).
Proof.
  unfold cliche.sanitizeHelp, helpText.
  destruct (CutPrefix doc "Package ") as [rest|];
    [destruct (is_empty rest) | destruct (is_empty doc)]; reflexivity.
Qed.

Lemma meta_sanitizeHelp_helpText (doc pkg cmd : gostring) :
  meta.sanitizeHelp doc pkg cmd
  = TrimSpace (ReplaceAllLiteralString whitespaceRunsRe
                                       (helpText doc pkg cmd) " ").
Proof.
  unfold meta.sanitizeHelp, helpText.
  destruct (CutPrefix doc "Package ") as [rest|];
    [destruct (is_empty rest) | destruct (is_empty doc)]; reflexivity.
Qed.

(** The leftmost white-space run of a single-spaced string is one space. *)
Lemma search_single_spaced (n : nat) (s : gostring) :
  single_spaced s = true ->
  match search n whitespaceRunsRe s with
  | None => True
  | Some (before, caps, rest) =>
      caps = [" " : gostring] /\ s = before ++ " " ++ rest
      /\ single_spaced rest = true
  end.
Proof.
  induction s as [|c t IH]; intros H; [exact I|].
  cbn [single_spaced] in H. apply andb_true_iff in H as [Hc Ht].
  cbn [search]. unfold match_here, whitespaceRunsRe. cbn [exec NumSubexp repeat].
  destruct (space c) eqn:Esp.
  - apply andb_true_iff in Hc as [Hsp Hnext].
    apply Ascii.eqb_eq in Hsp; subst c.
    rewrite star_k_stops.
    + cbn [length set_cap].
      replace (S (length t) - length t) with 1 by lia.
      repeat split. exact Ht.
    + destruct t as [|c' t']; [exact I|]. simpl.
      now destruct (space c').
  - specialize (IH Ht).
    fold whitespaceRunsRe.
    destruct (search n whitespaceRunsRe t) as [[[before caps] rest]|];
      [|exact I].
    destruct IH as (-> & -> & Hrest). repeat split. exact Hrest.
Qed.

Lemma replace_from_single_spaced (fuel n : nat) (s : gostring) :
  length s < fuel -> single_spaced s = true ->
  replace_from fuel n whitespaceRunsRe s " " = s.
Proof.
  revert s; induction fuel as [|fuel IH]; intros s Hlen Hs; [lia|].
  cbn [replace_from].
  pose proof (search_single_spaced n s Hs) as H.
  destruct (search n whitespaceRunsRe s) as [[[before caps] rest]|];
    [|reflexivity].
  destruct H as (-> & -> & Hrest).
  rewrite IH; [reflexivity | | exact Hrest].
  rewrite !length_app in Hlen. simpl in Hlen. lia.
Qed.

Lemma collapse_single_spaced (s : gostring) :
  single_spaced s = true ->
  ReplaceAllLiteralString whitespaceRunsRe s " " = s.
Proof.
  intros H. unfold ReplaceAllLiteralString.
  apply replace_from_single_spaced; [lia | exact H].
Qed.

(** C10 as stated fails: on the doc comment of the test data, which holds
    a line break, the [sanitizeHelp] of package [meta] puts a space where
    the one of package [cliche] keeps the line break. *)
Lemma sanitizeHelp_differ_on_line_break :
  meta.sanitizeHelp simple_doc "simple" "simple"
  = "simple is a simple test for cliche. It contains a single Command with no tags."
  /\ cliche.sanitizeHelp simple_doc "simple" "simple"
     = "simple is a simple test for cliche. It contains a single Command with"
       ++ [LF] ++ "no tags."
  /\ meta.sanitizeHelp simple_doc "simple" "simple"
     <> cliche.sanitizeHelp simple_doc "simple" "simple".
Proof.
  split; [reflexivity|]. split; [reflexivity|].
  vm_compute. discriminate.
Qed.

(** ** Trimming what is trimmed *)

Lemma space_width_le (s : gostring) : space_width s <= length s.
Proof.
  unfold space_width. destruct s as [|a [|b [|c u]]]; cbn [length];
    repeat match goal with |- context [if ?b then _ else _] => destruct b end;
    lia.
Qed.

Lemma space_width_back_le (s : gostring) : space_width_back s <= length s.
Proof.
  unfold space_width_back. destruct s as [|a [|b [|c u]]]; cbn [length];
    repeat match goal with |- context [if ?b then _ else _] => destruct b end;
    lia.
Qed.

(** With fuel for every byte, trimming ends at a string that does not
    start with a white-space rune. *)
Lemma trim_with_done (w : gostring -> nat) :
  (forall s, w s <= length s) ->
  forall fuel s, length s <= fuel -> w (trim_with w fuel s) = 0.
Proof.
  intros Hw. induction fuel as [|fuel IH]; intros s Hlen; cbn [trim_with].
  - pose proof (Hw s). lia.
  - destruct (w s) as [|k] eqn:E; [exact E|].
    apply IH. pose proof (Hw s). rewrite length_skipn. lia.
Qed.

Lemma trim_with_skipn (w : gostring -> nat) (fuel : nat) (s : gostring) :
  exists k, trim_with w fuel s = skipn k s.
Proof.
  revert s; induction fuel as [|fuel IH]; intros s; cbn [trim_with].
  - now exists 0.
  - destruct (w s) as [|k]; [now exists 0|].
    destruct (IH (skipn (S k) s)) as (j & ->).
    exists (S k + j). now rewrite skipn_skipn, Nat.add_comm.
Qed.

(** A white-space rune at the start of a string is one at the start of
    every string that goes on from it. *)
Lemma space_width_app (p q : gostring) :
  space_width p <> 0 -> space_width (p ++ q) = space_width p.
Proof.
  unfold space_width. destruct p as [|a [|b [|c u]]]; cbn [app]; intros H.
  - contradiction.
  - destruct (asciiSpace a); [reflexivity | contradiction].
  - destruct (asciiSpace a); [reflexivity|].
    destruct (space2 a b); [reflexivity | contradiction].
  - reflexivity.
Qed.

Lemma space_width_firstn (k : nat) (s : gostring) :
  space_width s = 0 -> space_width (firstn k s) = 0.
Proof.
  intros H. destruct (space_width (firstn k s)) as [|j] eqn:E; [reflexivity|].
  rewrite <- (firstn_skipn k s) in H.
  rewrite space_width_app in H by (rewrite E; discriminate). congruence.
Qed.

Lemma TrimSpace_trimmed (s : gostring) : trimmed (TrimSpace s).
Proof.
  unfold TrimSpace, trimmed.
  set (l := trim_with space_width (length s) s).
  assert (Hl : space_width l = 0)
    by (apply (trim_with_done _ space_width_le); lia).
  split.
  - destruct (trim_with_skipn space_width_back (length l) (rev l)) as (k & ->).
    rewrite skipn_rev, rev_involutive. now apply space_width_firstn.
  - rewrite rev_involutive.
    apply (trim_with_done _ space_width_back_le). rewrite length_rev. lia.
Qed.

Lemma TrimSpace_of_trimmed (s : gostring) : trimmed s -> TrimSpace s = s.
Proof.
  intros [Hl Hr]. unfold TrimSpace.
  rewrite (trim_with_stop space_width) by exact Hl.
  rewrite (trim_with_stop space_width_back) by exact Hr.
  apply rev_involutive.
Qed.

Lemma TrimSpace_idempotent (s : gostring) :
  TrimSpace (TrimSpace s) = TrimSpace s.
Proof. apply TrimSpace_of_trimmed, TrimSpace_trimmed. Qed.

(** ** [decompose]: the values, two tags in a row and printing back *)

Lemma Split_no_sep (s : gostring) (sep : ascii) (c : gostring) :
  In c (Split s sep) -> ~ In sep c.
Proof.
  revert c; induction s as [|x s IH]; intros c H; cbn [Split] in H.
  - destruct H as [<-|[]]. intros [].
  - destruct (Ascii.eqb_spec x sep) as [->|Hx].
    + destruct H as [<-|H]; [intros [] | now apply IH].
    + destruct (Split s sep) as [|piece pieces] eqn:E.
      * now destruct (Split_nonempty s sep).
      * destruct H as [<-|H].
        -- intros [->|Hin]; [now apply Hx|].
           now apply (IH piece (or_introl eq_refl)).
        -- apply IH. now right.
Qed.

Lemma Split_app (s1 s2 : gostring) (sep : ascii) :
  Split (s1 ++ sep :: s2) sep = Split s1 sep ++ Split s2 sep.
Proof.
  induction s1 as [|c s1 IH]; cbn [app Split].
  - now rewrite Ascii.eqb_refl.
  - rewrite IH. destruct (Ascii.eqb c sep); [reflexivity|].
    destruct (Split s1 sep) as [|piece pieces] eqn:E; [|reflexivity].
    now destruct (Split_nonempty s1 sep).
Qed.

Lemma infix_not_In (x : ascii) (v s : gostring) :
  infix v s -> ~ In x s -> ~ In x v.
Proof.
  intros (l & r & ->) H Hin. apply H.
  apply in_or_app. right. apply in_or_app. now left.
Qed.

Lemma last_app_cons {A : Type} (l1 : list A) (x : A) (l2 : list A) (d : A) :
  last (l1 ++ x :: l2) d = last (x :: l2) d.
Proof.
  induction l1 as [|y l1 IH]; [reflexivity|].
  cbn [app]. rewrite <- IH. cbn [last].
  now destruct (l1 ++ x :: l2) eqn:E; [destruct l1; discriminate|].
Qed.

(** The values of [decompose] are trimmed and hold no semicolon. *)
Lemma last_value_clean (pfx : gostring) (tag : Tag) :
  clean (last_value pfx tag).
Proof.
  unfold clean, last_value, directive.
  destruct (carrying pfx (components tag)) as [|c cs] eqn:E.
  - split; [reflexivity | intros []].
  - split; [apply TrimSpace_idempotent|].
    assert (Hin : In (last (c :: cs) []) (carrying pfx (components tag)))
      by (rewrite E; apply last_In).
    apply filter_In in Hin as [Hin _].
    apply in_map_iff in Hin as (piece & Hpiece & Hin).
    apply Split_no_sep in Hin.
    eapply infix_not_In; [apply TrimSpace_infix|].
    eapply infix_not_In; [apply infix_skipn|].
    rewrite <- Hpiece.
    eapply infix_not_In; [apply TrimSpace_infix | exact Hin].
Qed.

(** X1: whatever the tag, the three values of [decompose] are trimmed and
    hold no semicolon. *)
Theorem decompose_values_clean (tag : Tag) :
  let '(a, d, f) := decompose tag in clean a /\ clean d /\ clean f.
Proof.
  rewrite decompose_directives.
  repeat split; apply last_value_clean.
Qed.

Lemma last_value_app (pfx : gostring) (t1 t2 : Tag) :
  last_value pfx (t1 ++ ";" ++ t2) = later_value pfx t1 t2.
Proof.
  unfold later_value, last_value, components.
  change (t1 ++ ";" ++ t2) with (t1 ++ ";"%char :: t2).
  rewrite Split_app, map_app.
  unfold directive, carrying. rewrite filter_app.
  destruct (filter _ (map TrimSpace (Split t2 ";"))) as [|c cs].
  - now rewrite app_nil_r.
  - destruct (filter _ (map TrimSpace (Split t1 ";")) ++ c :: cs)
      as [|c' cs'] eqn:E.
    + now destruct (filter (fun c0 => HasPrefix c0 pfx)
                           (map TrimSpace (Split t1 ";"))).
    + now rewrite <- E, last_app_cons.
Qed.

(** X2: of two tags joined by a semicolon, [decompose] returns for each
    kind the value of the second tag when that tag has a component of the
    kind, and the value of the first tag otherwise. *)
Theorem decompose_later_wins (t1 t2 : Tag) :
  decompose (t1 ++ ";" ++ t2)
  = (later_value "arg:" t1 t2, later_value "default:" t1 t2,
     later_value "flag:" t1 t2).
Proof.
  rewrite decompose_directives. now rewrite !last_value_app.
Qed.

Lemma plain_ascii (c : ascii) : plain c = true -> (byte c < 128)%N.
Proof. intros H. now apply plain_inv in H. Qed.

(** Bytes of ASCII after the end of a string make no white-space rune
    with its last bytes. *)
Lemma space_width_back_app (r q : gostring) (b : ascii) :
  r <> [] -> space_width_back r = 0 -> (byte b < 128)%N ->
  space_width_back (r ++ b :: q) = 0.
Proof.
  intros Hne H Hb. unfold space_width_back in *.
  destruct r as [|x [|y [|z u]]]; [contradiction| | |]; cbn [app].
  - destruct (asciiSpace x); [discriminate|].
    rewrite space2_first_plain by assumption.
    destruct q as [|c q]; [reflexivity|].
    unfold space3.
    replace (byte b =? 154)%N with false by (symmetry; byte_neq).
    replace (byte b =? 128)%N with false by (symmetry; byte_neq).
    replace (byte b =? 129)%N with false by (symmetry; byte_neq).
    now rewrite !andb_false_r.
  - destruct (asciiSpace x); [discriminate|].
    destruct (space2 y x); [discriminate|].
    now rewrite space3_first_plain.
  - exact H.
Qed.

(** A word of printable bytes before a trimmed string gives a trimmed
    string. *)
Lemma trimmed_after_word (p a : gostring) :
  p <> [] -> forallb plain p = true -> trimmed a -> trimmed (p ++ a).
Proof.
  intros Hne Hp [Hl Hr].
  destruct p as [|c p]; [contradiction|].
  cbn [forallb] in Hp. apply andb_true_iff in Hp as [Hc Hp].
  split.
  - cbn [app]. now apply space_width_plain.
  - destruct a as [|x a].
    + rewrite app_nil_r.
      assert (Hall : forallb plain (c :: p) = true)
        by (cbn [forallb]; now rewrite Hc, Hp).
      pose proof (TrimSpace_all_plain (c :: p) Hall) as Hid.
      pose proof (TrimSpace_trimmed (c :: p)) as [_ Ht].
      now rewrite Hid in Ht.
    + rewrite rev_app_distr.
      destruct (exists_last (l := c :: p)) as (p' & z & E); [discriminate|].
      rewrite E, rev_app_distr. cbn [rev app].
      apply space_width_back_app.
      * intros H. apply (f_equal (@length ascii)) in H.
        rewrite length_app in H. simpl in H. lia.
      * exact Hr.
      * apply plain_ascii.
        assert (Hall : forallb plain (c :: p) = true)
          by (cbn [forallb]; now rewrite Hc, Hp).
        rewrite forallb_forall in Hall. apply Hall. rewrite E.
        apply in_or_app. right. now left.
Qed.

Lemma clean_trimmed (v : gostring) : clean v -> trimmed v.
Proof. intros [H _]. rewrite <- H. apply TrimSpace_trimmed. Qed.

Lemma TrimSpace_directive (p v : gostring) :
  p <> [] -> forallb plain p = true -> clean v ->
  TrimSpace (p ++ v) = p ++ v.
Proof.
  intros Hne Hp Hv. apply TrimSpace_of_trimmed.
  apply trimmed_after_word; try assumption. now apply clean_trimmed.
Qed.

Lemma skipn_prefix (p v : gostring) : skipn (length p) (p ++ v) = v.
Proof. induction p; [reflexivity | assumption]. Qed.

Lemma decompose_serialize (a d f : gostring) :
  clean a -> clean d -> clean f ->
  decompose (serialize a d f) = (a, d, f).
Proof.
  intros Ha Hd Hf.
  assert (E : serialize a d f
              = Join ["arg:" ++ a; "default:" ++ d; "flag:" ++ f] ";").
  { unfold serialize. cbn [Join]. now rewrite <- !app_assoc. }
  unfold decompose.
  replace (is_empty (serialize a d f)) with false by reflexivity.
  rewrite E, Split_Join.
  - cbn [fold_left]. rewrite !decompose_step_cases. cbv zeta.
    rewrite !TrimSpace_directive by (discriminate || reflexivity || assumption).
    rewrite !HasPrefix_app.
    replace (HasPrefix ("arg:" ++ a) "default:") with false by reflexivity.
    replace (HasPrefix ("arg:" ++ a) "flag:") with false by reflexivity.
    replace (HasPrefix ("default:" ++ d) "arg:") with false by reflexivity.
    replace (HasPrefix ("default:" ++ d) "flag:") with false by reflexivity.
    replace (HasPrefix ("flag:" ++ f) "arg:") with false by reflexivity.
    replace (HasPrefix ("flag:" ++ f) "default:") with false by reflexivity.
    change 8 with (length ("default:" : gostring)).
    change 5 with (length ("flag:" : gostring)).
    change 4 with (length ("arg:" : gostring)).
    rewrite !skipn_prefix.
    destruct Ha as [-> _], Hd as [-> _], Hf as [-> _]. reflexivity.
  - discriminate.
  - destruct Ha as [_ Ha], Hd as [_ Hd], Hf as [_ Hf].
    repeat constructor; intros Hin; apply in_app_or in Hin as [Hin|Hin];
      try contradiction; vm_compute in Hin; intuition congruence.
Qed.

(** X3: the values [decompose] returns, spelled out as a tag of three
    directives, are read back by [decompose] as they are. *)
Theorem decompose_serialize_round_trip (tag : Tag) :
  let '(a, d, f) := decompose tag in
  decompose (serialize a d f) = (a, d, f).
Proof.
  rewrite decompose_directives.
  apply decompose_serialize; apply last_value_clean.
Qed.


(** ** [Arg]: the shape of the results and the bracketed values *)

Lemma Atoi_range (s : gostring) (v : Z) :
  strconv.Atoi s = Some v -> (MinInt <= v <= MaxInt)%Z.
Proof.
  unfold strconv.Atoi, MinInt, MaxInt.
  assert (HB : (0 < 2 ^ (strconv.IntSize - 1))%Z) by reflexivity.
  set (B := (2 ^ (strconv.IntSize - 1))%Z) in *.
  destruct s as [|c t]; [discriminate|].
  assert (Hd : forall acc ds u, (0 <= acc)%Z -> strconv.digits acc ds = Some u ->
                                (0 <= u)%Z).
  { intros acc ds; revert acc; induction ds as [|x ds IH]; intros acc u Hacc H;
      cbn [strconv.digits] in H.
    - now injection H as <-.
    - destruct (strconv.is_digit x) eqn:Ex; [|discriminate].
      eapply IH; [|exact H]. apply is_digit_bounds in Ex. lia. }
  destruct (Ascii.eqb c "-"); [|destruct (Ascii.eqb c "+")].
  - destruct t as [|x t]; [discriminate|].
    destruct (strconv.digits 0 (x :: t)) as [u|] eqn:E; [|discriminate].
    apply Hd in E; [|lia].
    destruct (Z.leb_spec u B); [|discriminate].
    intros [= <-]. lia.
  - destruct t as [|x t]; [discriminate|].
    destruct (strconv.digits 0 (x :: t)) as [u|] eqn:E; [|discriminate].
    apply Hd in E; [|lia].
    destruct (Z.ltb_spec u B); [|discriminate].
    intros [= <-]. lia.
  - destruct (strconv.digits 0 (c :: t)) as [u|] eqn:E; [|discriminate].
    apply Hd in E; [|lia].
    destruct (Z.ltb_spec u B); [|discriminate].
    intros [= <-]. lia.
Qed.

Lemma parseArg_shape (tval : gostring) (spec : ArgSpec) :
  parseArg tval (mkArgSpec 0 0) = (true, spec) -> arg_shape spec.
Proof.
  assert (H0 : (MinInt <= 0 <= MaxInt)%Z) by now vm_compute.
  unfold parseArg, arg_shape.
  destruct (is_empty (TrimSpace tval)); [discriminate|].
  set (m := FindStringSubmatch argRe (TrimSpace tval)).
  destruct (negb (length m =? 5)%nat); [discriminate|].
  destruct (if negb (is_empty (nth 1 m [])) then strconv.Atoi (nth 1 m []) else None)
    as [iconv|] eqn:E1.
  { intros [= <-]. left. cbn [Start End_].
    destruct (negb (is_empty (nth 1 m []))); [|discriminate].
    apply Atoi_range in E1. lia. }
  destruct (is_empty (nth 2 m []) && is_empty (nth 3 m []) && is_empty (nth 4 m []));
    [discriminate|].
  cbn [End_].
  assert (Hs : exists S err,
             (if is_empty (nth 2 m []) then (mkArgSpec 0 0, false)
              else match strconv.Atoi (nth 2 m []) with
                   | Some iconv => (mkArgSpec iconv 0, false)
                   | None => (mkArgSpec 0 0, true)
                   end) = (mkArgSpec S 0, err)
             /\ (MinInt <= S <= MaxInt)%Z).
  { destruct (is_empty (nth 2 m [])); [now exists 0%Z, false|].
    destruct (strconv.Atoi (nth 2 m [])) as [v|] eqn:E;
      [apply Atoi_range in E; now exists v, false | now exists 0%Z, true]. }
  destruct Hs as (S & err & -> & HS).
  destruct (is_empty (nth 3 m [])).
  { intros [= _ <-]. left. cbn [Start End_]. lia. }
  cbn [Start].
  assert (He : exists E err',
             (if is_empty (nth 4 m []) then (mkArgSpec S (-1), err)
              else match strconv.Atoi (nth 4 m []) with
                   | Some iconv => (mkArgSpec S iconv, false)
                   | None => (mkArgSpec S 0, true)
                   end) = (mkArgSpec S E, err')
             /\ (MinInt <= E <= MaxInt)%Z).
  { destruct (is_empty (nth 4 m [])); [exists (-1)%Z, err; split; [reflexivity|now vm_compute]|].
    destruct (strconv.Atoi (nth 4 m [])) as [v|] eqn:E;
      [apply Atoi_range in E; now exists v, false | now exists 0%Z, true]. }
  destruct He as (E & err' & -> & HE).
  cbn [Start End_]. intros [= Hok <-]. right. cbn [Start End_].
  apply andb_true_iff in Hok as [Hok Hend].
  apply andb_true_iff in Hok as [_ Hstart].
  apply Z.geb_le in Hstart.
  apply orb_true_iff in Hend as [Hend|Hend].
  - apply Z.eqb_eq in Hend. lia.
  - apply Z.gtb_lt in Hend. lia.
Qed.

(** X4: every [ArgSpec] that [Arg] returns is an index, with [End] left
    at zero, or a range that starts at zero or above and has no end
    ([End] is [-1]) or an end above its start; the numbers are in the
    range of [int]. *)
Theorem Arg_result_shape (tag : Tag) (spec : ArgSpec) :
  Arg tag = Some spec -> arg_shape spec.
Proof.
  rewrite Arg_of_arg_value.
  destruct (is_empty (arg_value tag)); [discriminate|].
  destruct (parseArg (arg_value tag) (mkArgSpec 0 0)) as [[|] ret] eqn:E;
    [|discriminate].
  intros [= <-]. eapply parseArg_shape, E.
Qed.

Lemma Arg_result_shape_witness : arg_shape (mkArgSpec 2 (-1)).
Proof. exact (Arg_result_shape "arg:[2:]" (mkArgSpec 2 (-1)) eq_refl). Defined.

Lemma forallb_infix {T : Type} (p : T -> bool) (v s : list T) :
  (exists l r, s = l ++ v ++ r) -> forallb p s = true -> forallb p v = true.
Proof.
  intros (l & r & ->). rewrite !forallb_app.
  intros H. apply andb_true_iff in H as [_ H].
  now apply andb_true_iff in H as [H _].
Qed.

(** [argRe] finds nothing in a text without digit and opening bracket. *)
Lemma argRe_finds_nothing (n : nat) (s : gostring) :
  forallb no_start s = true -> search n argRe s = None.
Proof.
  intros H. rewrite <- (app_nil_r s). rewrite search_skip.
  - reflexivity.
  - intros pre1 c pre2 ->.
    rewrite forallb_app in H. apply andb_true_iff in H as [_ H].
    cbn [forallb] in H. apply andb_true_iff in H as [H _].
    unfold no_start in H. apply andb_true_iff in H as [Hd Hb].
    apply argRe_not_here;
      [now destruct (digit c) | now destruct (Ascii.eqb c "[")].
Qed.

(** X5: [Arg] rejects an arg value that holds no digit and no opening
    bracket. *)
Theorem Arg_rejects_without_digit_or_bracket (tag : Tag) :
  forallb no_start (arg_value tag) = true -> Arg tag = None.
Proof.
  intros H. rewrite Arg_of_arg_value.
  destruct (is_empty (arg_value tag)); [reflexivity|].
  unfold parseArg.
  destruct (is_empty (TrimSpace (arg_value tag))); [reflexivity|].
  unfold FindStringSubmatch.
  rewrite argRe_finds_nothing; [reflexivity|].
  exact (forallb_infix _ _ _ (TrimSpace_infix _) H).
Qed.

Lemma Arg_rejects_without_digit_or_bracket_witness :
  Arg "arg:I thrive in chaos." = None.
Proof.
  exact (Arg_rejects_without_digit_or_bracket "arg:I thrive in chaos." eq_refl).
Defined.

(** The submatches of [argRe] on a bracketed pair of texts around a colon,
    the first without colon, the second without closing bracket. *)
Lemma argRe_on_pair (x e : gostring) :
  forallb (other_than ":") x = true -> forallb (other_than "]") e = true ->
  FindStringSubmatch argRe ("[" ++ x ++ ":" ++ e ++ "]")
  = ["[" ++ x ++ ":" ++ e ++ "]"; []; x; ":" : gostring; e].
Proof.
  intros Hx He. unfold FindStringSubmatch.
  erewrite search_here; [reflexivity|].
  unfold match_here, argRe.
  change (repeat [] _) with ([[]; []; []; []; []] : captures).
  set (t := "[" ++ x ++ ":" ++ e ++ "]").
  rewrite exec_Alt, (exec_Cap _ 1), exec_Plus_stops by reflexivity.
  rewrite exec_Cat.
  change t with ("["%char :: x ++ (":"%char :: e ++ ("]" : gostring))) at 2.
  rewrite exec_Chr_here, exec_Cat.
  erewrite exec_Opt_Cap_Plus;
    [reflexivity | assumption | reflexivity | reflexivity |].
  rewrite exec_Cat, exec_Opt, exec_Cap, exec_Chr_here.
  rewrite exec_Cat.
  erewrite (exec_Opt_Cap_Plus _ 4 _ e "]");
    [reflexivity | assumption | reflexivity | reflexivity |].
  change ("]" : gostring) with ["]"%char].
  rewrite exec_Chr_here.
  cbn [set_cap length]. rewrite !Nat.sub_0_r, firstn_all.
  replace (S (length (e ++ ["]"%char])) - length (e ++ ["]"%char]))
    with 1 by lia.
  reflexivity.
Qed.

(** [parseArg] on such a pair, after the match. *)
Lemma parseArg_on_pair (x e : gostring) :
  forallb (other_than ":") x = true -> forallb (other_than "]") e = true ->
  parseArg ("[" ++ x ++ ":" ++ e ++ "]") (mkArgSpec 0 0)
  = let '(spec, err) :=
      if is_empty x then (mkArgSpec 0 0, false)
      else match strconv.Atoi x with
           | Some iconv => (mkArgSpec iconv 0, false)
           | None => (mkArgSpec 0 0, true)
           end in
    let '(spec, err) :=
      if is_empty e then (mkArgSpec (Start spec) (-1), err)
      else match strconv.Atoi e with
           | Some iconv => (mkArgSpec (Start spec) iconv, false)
           | None => (spec, true)
           end in
    (negb err && (Start spec >=? 0)%Z
     && ((End_ spec =? -1)%Z || (End_ spec >? Start spec)%Z), spec).
Proof.
  intros Hx He. unfold parseArg.
  replace (TrimSpace ("[" ++ x ++ ":" ++ e ++ "]"))
    with ("[" ++ x ++ ":" ++ e ++ "]")
    by (rewrite range_text_shape; symmetry;
        now apply TrimSpace_plain_ends).
  rewrite argRe_on_pair by assumption.
  cbn [is_empty list_ascii_of_string app length Nat.eqb negb nth].
  rewrite andb_false_r. cbn [andb End_]. reflexivity.
Qed.

(** X6: on a start in brackets followed by a colon, the start a numeral
    or left out, [Arg] returns the range from that start, or from zero,
    without end. *)
Theorem Arg_open_range (tag : Tag) (ds : gostring) (S : Z) :
  opt_numeral_of S ds -> (S <= MaxInt)%Z ->
  arg_value tag = "[" ++ ds ++ ":]" ->
  Arg tag = Some (mkArgSpec S (-1)).
Proof.
  intros HS Hmax Harg.
  assert (Hds : forallb (other_than ":") ds = true).
  { destruct HS as [[-> _]|(_ & H & _)]; [reflexivity|].
    revert H. apply forallb_impl. intros c Hc. now apply digit_other_than. }
  rewrite Arg_of_arg_value, Harg.
  change ("[" ++ ds ++ ":]") with ("[" ++ ds ++ ":" ++ [] ++ "]").
  rewrite parseArg_on_pair by (assumption || reflexivity).
  cbn [is_empty list_ascii_of_string app].
  destruct HS as [[-> ->]|HS].
  - reflexivity.
  - pose proof HS as (Hne & _ & _).
    pose proof (numeral_nonneg S ds HS) as HS0.
    rewrite (is_empty_false ds Hne), (Atoi_numeral S ds HS).
    apply Z.leb_le in Hmax as ->.
    cbn [Start End_ negb andb].
    replace (S >=? 0)%Z with true by (symmetry; apply Z.geb_le; lia).
    reflexivity.
Qed.

Lemma Arg_open_range_witness :
  Arg "arg:[2:]" = Some (mkArgSpec 2 (-1)).
Proof.
  assert (H2 : numeral_of 2 "2") by (split; [discriminate | split; reflexivity]).
  assert (Hmax : (2 <= MaxInt)%Z) by now vm_compute.
  exact (Arg_open_range "arg:[2:]" "2" 2 (or_intror H2) Hmax eq_refl).
Defined.

(** X7: on a numeral in brackets [Arg] returns the index of that number,
    with [End] left at zero. *)
Theorem Arg_bracket_index (tag : Tag) (d : gostring) (N : Z) :
  numeral_of N d -> (N <= MaxInt)%Z ->
  arg_value tag = "[" ++ d ++ "]" ->
  Arg tag = Some (mkArgSpec N 0).
Proof.
  intros Hnum Hmax Harg.
  pose proof Hnum as (Hne & Hd & _).
  rewrite Arg_of_arg_value, Harg.
  cbn [list_ascii_of_string app is_empty].
  unfold parseArg.
  replace (TrimSpace ("["%char :: d ++ ["]"%char]))
    with ("["%char :: d ++ ["]"%char])
    by (symmetry; now apply (TrimSpace_plain_ends "[" "]" d)).
  cbn [is_empty].
  change ("["%char :: d ++ ["]"%char]) with ("[" ++ d ++ "]").
  rewrite argRe_on_index; try assumption.
  - cbn [length Nat.eqb negb nth is_empty].
    rewrite (is_empty_false d Hne). cbn [andb].
    rewrite (Atoi_numeral N d Hnum).
    now apply Z.leb_le in Hmax as ->.
  - revert Hd. apply forallb_impl. intros c Hc. now apply digit_other_than.
  - revert Hd. apply forallb_impl. intros c Hc. now apply digit_other_than.
Qed.

Lemma Arg_bracket_index_witness :
  Arg "arg:[42]" = Some (mkArgSpec 42 0).
Proof.
  assert (H : numeral_of 42 "42") by (split; [discriminate | split; reflexivity]).
  assert (Hmax : (42 <= MaxInt)%Z) by now vm_compute.
  exact (Arg_bracket_index "arg:[42]" "42" 42 H Hmax eq_refl).
Defined.

(** X8: a start that [Atoi] cannot read is dropped when an end follows:
    reading the end overwrites the error, and [Arg] returns the range from
    zero to that end; without an end the value is rejected. *)
Theorem Arg_drops_unparsable_start (x : gostring) :
  x <> [] -> forallb (other_than ":") x = true -> strconv.Atoi x = None ->
  (forall (tag : Tag) (de : gostring) (E : Z),
      numeral_of E de -> (0 < E <= MaxInt)%Z ->
      arg_value tag = "[" ++ x ++ ":" ++ de ++ "]" ->
      Arg tag = Some (mkArgSpec 0 E))
  /\ (forall tag : Tag,
         arg_value tag = "[" ++ x ++ ":]" -> Arg tag = None).
Proof.
  intros Hne Hx Hbad. split.
  - intros tag de E HE [Hpos Hmax] Harg.
    pose proof HE as (Hnee & Hde & _).
    rewrite Arg_of_arg_value, Harg.
    rewrite parseArg_on_pair;
      [| assumption
       | revert Hde; apply forallb_impl; intros c Hc; now apply digit_other_than].
    cbn [is_empty list_ascii_of_string app].
    rewrite (is_empty_false x Hne), Hbad.
    rewrite (is_empty_false de Hnee), (Atoi_numeral E de HE).
    apply Z.leb_le in Hmax as ->.
    cbn [Start End_ negb andb].
    replace (0 >=? 0)%Z with true by reflexivity.
    replace (E >? 0)%Z with true by (symmetry; apply Z.gtb_lt; lia).
    now rewrite orb_true_r.
  - intros tag Harg.
    rewrite Arg_of_arg_value, Harg.
    change ("[" ++ x ++ ":]") with ("[" ++ x ++ ":" ++ [] ++ "]").
    rewrite parseArg_on_pair by (assumption || reflexivity).
    cbn [is_empty list_ascii_of_string app].
    now rewrite (is_empty_false x Hne), Hbad.
Qed.

Lemma Arg_drops_unparsable_start_witness :
  Arg "arg:[a:4]" = Some (mkArgSpec 0 4) /\ Arg "arg:[a:]" = None.
Proof.
  assert (H4 : numeral_of 4 "4") by (split; [discriminate | split; reflexivity]).
  assert (Hmax : (0 < 4 <= MaxInt)%Z) by now vm_compute.
  assert (Hne : ("a" : gostring) <> []) by discriminate.
  destruct (Arg_drops_unparsable_start "a" Hne eq_refl eq_refl) as [H1 H2].
  split.
  - exact (H1 "arg:[a:4]" "4" 4%Z H4 Hmax eq_refl).
  - exact (H2 "arg:[a:]" eq_refl).
Defined.

(** X9: [Arg] rejects a range whose end [Atoi] cannot read. *)
Theorem Arg_rejects_unparsable_end (tag : Tag) (x e : gostring) :
  e <> [] -> forallb (other_than ":") x = true ->
  forallb (other_than "]") e = true -> strconv.Atoi e = None ->
  arg_value tag = "[" ++ x ++ ":" ++ e ++ "]" ->
  Arg tag = None.
Proof.
  intros Hne Hx He Hbad Harg.
  rewrite Arg_of_arg_value, Harg.
  rewrite parseArg_on_pair by assumption.
  cbn [is_empty list_ascii_of_string app].
  rewrite (is_empty_false e Hne), Hbad.
  destruct (is_empty x); [reflexivity|].
  destruct (strconv.Atoi x); reflexivity.
Qed.

Lemma Arg_rejects_unparsable_end_witness : Arg "arg:[2:a]" = None.
Proof.
  assert (Hne : ("a" : gostring) <> []) by discriminate.
  exact (Arg_rejects_unparsable_end "arg:[2:a]" "2" "a" Hne eq_refl eq_refl
           eq_refl eq_refl).
Defined.

(** ** [ArgSpec.String] *)

Lemma digit_of_spec (u : Z) :
  (0 <= u < 10)%Z ->
  strconv.is_digit (strconv.digit_of u) = true
  /\ Z.of_N (byte (strconv.digit_of u)) = (48 + u)%Z.
Proof.
  intros Hu. unfold strconv.digit_of.
  assert (Hc : byte (ascii_of_N (48 + Z.to_N u)) = (48 + Z.to_N u)%N)
    by (apply N_ascii_embedding; lia).
  split.
  - unfold strconv.is_digit, in_range. rewrite Hc.
    change (byte "0") with 48%N. change (byte "9") with 57%N.
    apply andb_true_iff. split; apply N.leb_le; lia.
  - rewrite Hc. lia.
Qed.

Lemma utoa_numeral (fuel : nat) (u : Z) :
  (0 <= u < 2 ^ Z.of_nat fuel)%Z -> 1 <= fuel ->
  numeral_of u (strconv.utoa fuel u).
Proof.
  revert u; induction fuel as [|fuel IH]; intros u Hu Hfuel; [lia|].
  cbn [strconv.utoa].
  destruct (Z.ltb_spec u 10) as [Hsmall|Hbig].
  - destruct (digit_of_spec u ltac:(lia)) as [Hd Hv].
    split; [discriminate|]. split.
    + cbn [forallb]. now rewrite Hd.
    + unfold decimal_value. cbn [fold_left]. lia.
  - assert (Hmod : (0 <= u mod 10 < 10)%Z) by (apply Z.mod_pos_bound; lia).
    destruct (digit_of_spec (u mod 10) Hmod) as [Hd Hv].
    rewrite Nat2Z.inj_succ, Z.pow_succ_r in Hu by lia.
    assert (Hfuel' : 1 <= fuel).
    { destruct fuel as [|fuel']; [|lia]. simpl in Hu. lia. }
    destruct (IH (u / 10)%Z) as (Hne & Hds & Hval); [|exact Hfuel'|].
    { split; [apply Z.div_pos; lia|].
      apply Z.div_lt_upper_bound; lia. }
    split; [now destruct (strconv.utoa fuel (u / 10))|]. split.
    + rewrite forallb_app, Hds. cbn [forallb]. now rewrite Hd.
    + rewrite decimal_value_snoc, Hval, Hv.
      pose proof (Z.div_mod u 10). lia.
Qed.

(** [Itoa] of a natural number is a numeral of it. *)
Lemma Itoa_numeral (u : Z) : (0 <= u)%Z -> numeral_of u (strconv.Itoa u).
Proof.
  intros Hu. unfold strconv.Itoa.
  replace (u <? 0)%Z with false by (symmetry; apply Z.ltb_ge; lia).
  rewrite Z.abs_eq by lia.
  apply utoa_numeral; [|lia].
  split; [lia|].
  rewrite Nat2Z.inj_succ, Z2Nat.id by apply Z.log2_nonneg.
  destruct (Z.eq_dec u 0) as [->|Hnz]; [reflexivity|].
  apply Z.log2_spec. lia.
Qed.

Lemma Itoa_minus_one : strconv.Itoa (-1) = "-1".
Proof. reflexivity. Qed.

(** The arg directive value of a tag that is one arg directive. *)
Lemma arg_value_single (v : gostring) :
  clean v -> arg_value ("arg:" ++ v) = v.
Proof.
  intros Hv. unfold arg_value, decompose.
  replace (is_empty ("arg:" ++ v)) with false by reflexivity.
  replace (Split ("arg:" ++ v) ";") with ["arg:" ++ v].
  - cbn [fold_left]. rewrite decompose_step_cases. cbv zeta.
    rewrite TrimSpace_directive by (discriminate || reflexivity || assumption).
    rewrite HasPrefix_app.
    change 4 with (length ("arg:" : gostring)).
    rewrite skipn_prefix. now destruct Hv as [-> _].
  - symmetry. apply (Split_Join ["arg:" ++ v] ";"); [discriminate|].
    destruct Hv as [_ Hv]. repeat constructor.
    intros Hin. apply in_app_or in Hin as [Hin|Hin]; [|contradiction].
    vm_compute in Hin. intuition congruence.
Qed.

(** A text of printable bytes other than the semicolon is clean. *)
Lemma clean_plain (v : gostring) :
  forallb (fun c => plain c && other_than ";" c) v = true -> clean v.
Proof.
  intros H. split.
  - apply TrimSpace_all_plain. revert H. apply forallb_impl.
    intros c Hc. now apply andb_true_iff in Hc as [Hc _].
  - intros Hin. rewrite forallb_forall in H. specialize (H _ Hin).
    apply andb_true_iff in H as [_ H]. unfold other_than in H.
    now rewrite Ascii.eqb_refl in H.
Qed.

Lemma numeral_clean_byte (N : Z) (d : gostring) :
  numeral_of N d ->
  forallb (fun c => plain c && other_than ";" c) d = true.
Proof.
  intros (_ & Hd & _). revert Hd. apply forallb_impl. intros c Hc.
  rewrite (digit_plain c Hc). now apply digit_other_than.
Qed.

(** A bracketed pair of texts made of clean bytes is clean. *)
Lemma clean_pair (x e : gostring) :
  forallb (fun c => plain c && other_than ";" c) x = true ->
  forallb (fun c => plain c && other_than ";" c) e = true ->
  clean ("[" ++ x ++ ":" ++ e ++ "]").
Proof.
  intros Hx He. apply clean_plain.
  cbn [list_ascii_of_string app forallb]. cbn [andb].
  replace (plain "[" && other_than ";" "[") with true by reflexivity.
  rewrite forallb_app, Hx. cbn [forallb andb].
  replace (plain ":" && other_than ";" ":") with true by reflexivity.
  rewrite forallb_app, He. reflexivity.
Qed.

(** X10: what [String] prints for a range, one that starts at zero or
    above and has no end or an end above its start, is an arg value that
    [Arg] reads as the same range. *)
Theorem ArgSpec_String_parses_back (S E : Z) :
  (0 <= S <= MaxInt)%Z -> (E = -1 \/ S < E <= MaxInt)%Z ->
  Arg ("arg:" ++ ArgSpec_String (Some (mkArgSpec S E)))
  = Some (mkArgSpec S E).
Proof.
  intros HS HE. unfold ArgSpec_String. cbn [Start End_].
  pose proof (Itoa_numeral S ltac:(lia)) as HnS.
  destruct (Z.eqb_spec S 0) as [->|HS0]; destruct (Z.eqb_spec E (-1)) as [->|HE1];
    cbn [andb].
  - reflexivity.
  - replace (0 =? E)%Z with false by (symmetry; apply Z.eqb_neq; lia).
    pose proof (Itoa_numeral E ltac:(lia)) as HnE.
    rewrite Arg_of_arg_value, arg_value_single
      by (apply clean_pair; eapply numeral_clean_byte; eassumption).
    rewrite (parseArg_range _ _ 0 E) by (try assumption; (now right) || lia).
    cbn [is_empty list_ascii_of_string app].
    now replace (E >? 0)%Z with true by (symmetry; apply Z.gtb_lt; lia).
  - replace (S =? -1)%Z with false by (symmetry; apply Z.eqb_neq; lia).
    rewrite Itoa_minus_one.
    rewrite Arg_of_arg_value, arg_value_single
      by (apply clean_pair; [eapply numeral_clean_byte; eassumption | reflexivity]).
    rewrite parseArg_on_pair;
      [| destruct HnS as (_ & H & _); revert H; apply forallb_impl;
         intros c Hc; now apply digit_other_than
       | reflexivity].
    cbn [is_empty list_ascii_of_string app].
    destruct HnS as (Hne & _ & _).
    rewrite (is_empty_false _ Hne).
    rewrite (Atoi_numeral S _ (Itoa_numeral S ltac:(lia))).
    replace (S <=? MaxInt)%Z with true by (symmetry; apply Z.leb_le; lia).
    replace (strconv.Atoi ["-"%char; "1"%char]) with (Some (-1)%Z)
      by reflexivity.
    cbv iota beta. cbn [Start End_ negb andb].
    replace (S >=? 0)%Z with true by (symmetry; apply Z.geb_le; lia).
    reflexivity.
  - replace (S =? E)%Z with false by (symmetry; apply Z.eqb_neq; lia).
    pose proof (Itoa_numeral E ltac:(lia)) as HnE.
    rewrite Arg_of_arg_value, arg_value_single
      by (apply clean_pair; eapply numeral_clean_byte; eassumption).
    rewrite (parseArg_range _ _ S E) by (try assumption; (now right) || lia).
    cbn [is_empty list_ascii_of_string app].
    now replace (E >? S)%Z with true by (symmetry; apply Z.gtb_lt; lia).
Qed.

Lemma ArgSpec_String_parses_back_witness :
  Arg ("arg:" ++ ArgSpec_String (Some (mkArgSpec 2 4))) = Some (mkArgSpec 2 4).
Proof.
  apply ArgSpec_String_parses_back; [now vm_compute | right; now vm_compute].
Defined.

(** X11: this fails for an index above zero: [Arg] reads the numeral as
    the index with [End] at zero, [String] prints that as a range that
    ends at zero, and [Arg] rejects this text. *)
Theorem ArgSpec_String_of_index_is_rejected (N : Z) :
  (0 < N <= MaxInt)%Z ->
  Arg ("arg:" ++ strconv.Itoa N) = Some (mkArgSpec N 0)
  /\ Arg ("arg:" ++ ArgSpec_String (Some (mkArgSpec N 0))) = None.
Proof.
  intros HN.
  pose proof (Itoa_numeral N ltac:(lia)) as Hn.
  pose proof Hn as (Hne & Hd & _).
  assert (H0 : numeral_of 0 (strconv.Itoa 0))
    by (split; [discriminate | split; reflexivity]).
  split.
  - rewrite Arg_of_arg_value, arg_value_single
      by (apply clean_plain; eapply numeral_clean_byte; eassumption).
    rewrite (is_empty_false _ Hne). unfold parseArg.
    rewrite (numeral_TrimSpace N _ Hn), (is_empty_false _ Hne).
    rewrite argRe_on_digits by assumption.
    cbn [length Nat.eqb negb nth].
    rewrite (is_empty_false _ Hne). cbn [negb].
    rewrite (Atoi_numeral N _ Hn).
    now replace (N <=? MaxInt)%Z with true by (symmetry; apply Z.leb_le; lia).
  - unfold ArgSpec_String. cbn [Start End_].
    replace (N =? 0)%Z with false by (symmetry; apply Z.eqb_neq; lia).
    cbn [andb].
    rewrite Arg_of_arg_value, arg_value_single
      by (apply clean_pair; eapply numeral_clean_byte; eassumption).
    rewrite (parseArg_range _ _ N 0) by (try assumption; (now right) || lia).
    cbn [is_empty list_ascii_of_string app].
    now replace (0 >? N)%Z with false
      by (symmetry; rewrite Z.gtb_ltb; apply Z.ltb_ge; lia).
Qed.

Lemma ArgSpec_String_of_index_is_rejected_witness :
  Arg ("arg:" ++ strconv.Itoa 42) = Some (mkArgSpec 42 0)
  /\ Arg ("arg:" ++ ArgSpec_String (Some (mkArgSpec 42 0))) = None.
Proof.
  apply ArgSpec_String_of_index_is_rejected. now vm_compute.
Defined.


(** ** [Flag], [Posixy] and [FlagSpec.String] *)

Lemma star_k_sound {A : Type} p (s : gostring) (k : gostring -> option A) x :
  star_k p s k = Some x ->
  exists s1 s2, s = s1 ++ s2 /\ forallb p s1 = true /\ k s2 = Some x.
Proof.
  induction s as [|c s IH]; cbn [star_k]; intros H.
  - now exists [], [].
  - destruct (p c) eqn:Hc; [|now exists [], (c :: s)].
    destruct (star_k p s k) as [y|] eqn:E; [|now exists [], (c :: s)].
    injection H as ->.
    destruct (IH eq_refl) as (s1 & s2 & -> & H1 & H2).
    exists (c :: s1), s2. cbn [forallb app]. now rewrite Hc.
Qed.

Section Inversion.
Context {A : Type}.
Implicit Types (k : gostring -> captures -> option A) (x : A).

Lemma exec_Cls_inv n p s caps k x :
  exec n (Cls p) s caps k = Some x ->
  exists c s', s = c :: s' /\ p c = true /\ k s' caps = Some x.
Proof.
  destruct s as [|c s']; cbn [exec]; [discriminate|].
  destruct (p c) eqn:Hc; [|discriminate]. intros H. now exists c, s'.
Qed.

Lemma exec_Chr_inv n c s caps k x :
  exec n (Chr c) s caps k = Some x ->
  exists s', s = c :: s' /\ k s' caps = Some x.
Proof.
  destruct s as [|a s']; cbn [exec]; [discriminate|].
  destruct (Ascii.eqb_spec a c) as [->|]; [|discriminate].
  intros H. now exists s'.
Qed.

Lemma exec_Plus_inv n p s caps k x :
  exec n (Plus p) s caps k = Some x ->
  exists s1 s2, s = s1 ++ s2 /\ s1 <> [] /\ forallb p s1 = true
                /\ k s2 caps = Some x.
Proof.
  destruct s as [|c s']; cbn [exec]; [discriminate|].
  destruct (p c) eqn:Hc; [|discriminate]. intros H.
  apply star_k_sound in H as (s1 & s2 & -> & H1 & H2).
  exists (c :: s1), s2. cbn [forallb app]. rewrite Hc.
  repeat split; (discriminate || assumption).
Qed.

Lemma exec_Star_inv n p s caps k x :
  exec n (Star p) s caps k = Some x ->
  exists s1 s2, s = s1 ++ s2 /\ forallb p s1 = true /\ k s2 caps = Some x.
Proof. cbn [exec]. apply star_k_sound. Qed.

Lemma exec_Opt_inv n r s caps k x :
  exec n (Opt r) s caps k = Some x ->
  exec n r s caps k = Some x \/ k s caps = Some x.
Proof.
  rewrite exec_Opt. destruct (exec n r s caps k); [now left | now right].
Qed.

Lemma exec_Eot_inv n s caps k x :
  exec n Eot s caps k = Some x -> s = [] /\ k [] caps = Some x.
Proof. destruct s; cbn [exec]; [now split | discriminate]. Qed.

Lemma exec_Star_greedy n p s1 s2 caps k x :
  forallb p s1 = true -> stops p s2 -> k s2 caps = Some x ->
  exec n (Star p) (s1 ++ s2) caps k = Some x.
Proof. intros H1 H2 Hk. cbn [exec]. now apply star_k_greedy. Qed.

Lemma exec_Plus_all n p s caps k x :
  s <> [] -> forallb p s = true -> k [] caps = Some x ->
  exec n (Plus p) s caps k = Some x.
Proof.
  intros Hne Hs Hk.
  pose proof (exec_Plus_greedy n p s [] caps k x Hne Hs I Hk) as H.
  now rewrite app_nil_r in H.
Qed.

End Inversion.

(** An expression that begins with [^] matches at the start of the text
    or nowhere. *)
Lemma search_Bot_later (n : nat) (r : regex) (s : gostring) :
  length s < n -> search n (Cat Bot r) s = None.
Proof.
  assert (Hhere : forall t : gostring,
             length t < n -> match_here n (Cat Bot r) t = None).
  { intros t Ht. unfold match_here. rewrite exec_Cat. cbn [exec].
    now replace (length t =? n)%nat with false
      by (symmetry; apply Nat.eqb_neq; lia). }
  induction s as [|c s IH]; intros H; cbn [search]; rewrite Hhere by exact H.
  - reflexivity.
  - rewrite IH; [reflexivity|]. cbn [length] in H. lia.
Qed.

Lemma search_anchored (r : regex) (s : gostring) :
  search (length s) (Cat Bot r) s
  = match match_here (length s) (Cat Bot r) s with
    | Some (caps, rest) => Some ([], caps, rest)
    | None => None
    end.
Proof.
  destruct s as [|c s]; cbn [search];
    destruct (match_here _ _ _) as [[caps rest]|]; try reflexivity.
  rewrite search_Bot_later; [reflexivity|]. cbn [length]. lia.
Qed.

Lemma FindStringSubmatch_flagRe (s : gostring) :
  FindStringSubmatch flagRe s
  = match match_here (length s) flagRe s with
    | Some (caps, _) => caps
    | None => []
    end.
Proof.
  unfold FindStringSubmatch, flagRe. rewrite search_anchored.
  now destruct (match_here _ _ _) as [[caps rest]|].
Qed.

(** What a match of [flagRe] says about the text. *)
Lemma flagRe_match_inv (s : gostring) caps rest :
  match_here (length s) flagRe s = Some (caps, rest) ->
  exists long short, flag_text long short s /\ caps = [s; long; short].
Proof.
  unfold match_here, flagRe.
  change (repeat [] _) with ([[]; []; []] : captures).
  rewrite exec_Cat, exec_Bot by reflexivity.
  rewrite exec_Cat, exec_Cap, exec_Cat.
  intros H.
  apply exec_Cls_inv in H as (a & s1 & -> & Ha & H). cbv beta in H.
  apply exec_Plus_inv in H as (m & s3 & -> & Hne & Hm & H). cbv beta in H.
  change (a :: m ++ s3) with ((a :: m) ++ s3) in H.
  rewrite firstn_length_diff in H. cbn [set_cap] in H.
  assert (Hlong : long_name (a :: m) = true).
  { cbn [long_name]. now rewrite Ha, Hm, (is_empty_false _ Hne). }
  rewrite exec_Cat in H. apply exec_Opt_inv in H as [H|H].
  - rewrite exec_Cat in H.
    apply exec_Chr_inv in H as (s4 & -> & H). cbv beta in H.
    rewrite exec_Cat in H.
    apply exec_Star_inv in H as (ws & s5 & -> & Hws & H). cbv beta in H.
    rewrite exec_Cap in H.
    apply exec_Cls_inv in H as (c & s6 & -> & Hc & H). cbv beta in H.
    apply exec_Eot_inv in H as (-> & H). cbv beta in H.
    cbn [set_cap length] in H.
    rewrite !Nat.sub_0_r, !firstn_all in H. injection H as <- _.
    exists (a :: m), [c]. split; [|reflexivity].
    split; [exact Hlong|]. right. now exists ws, c.
  - apply exec_Eot_inv in H as (-> & H). cbv beta in H.
    cbn [set_cap length] in H.
    rewrite !Nat.sub_0_r, !firstn_all in H. injection H as <- _.
    exists (a :: m), []. rewrite app_nil_r. split; [|reflexivity].
    split; [exact Hlong|]. now left.
Qed.

Lemma firstn_sub_nil (s : gostring) :
  firstn (length s - length (@nil ascii)) s = s.
Proof. cbn [length]. now rewrite Nat.sub_0_r, firstn_all. Qed.

(** [flagRe] on the texts of the grammar. *)
Lemma flagRe_match_complete (long short s : gostring) :
  flag_text long short s ->
  match_here (length s) flagRe s = Some ([s; long; short], []).
Proof.
  intros [Hlong Hs]. destruct long as [|a rest]; [discriminate|].
  cbn [long_name] in Hlong.
  apply andb_true_iff in Hlong as [Hlong Hrest].
  apply andb_true_iff in Hlong as [Ha Hne].
  assert (Hne' : rest <> []) by now destruct rest.
  unfold match_here, flagRe.
  change (repeat [] _) with ([[]; []; []] : captures).
  rewrite exec_Cat, exec_Bot by reflexivity.
  rewrite exec_Cat, exec_Cap, exec_Cat.
  destruct Hs as [[-> ->]|(ws & c & -> & Hc & Hws & ->)].
  - rewrite exec_Cls_here by assumption.
    erewrite exec_Plus_all; [reflexivity | assumption | assumption |].
    rewrite firstn_sub_nil.
    rewrite exec_Cat, exec_Opt, exec_Cat. cbn [exec set_cap].
    now rewrite firstn_sub_nil.
  - set (t := (a :: rest) ++ "," ++ ws ++ [c]).
    change t with (a :: rest ++ ("," ++ ws ++ [c])) at 2.
    rewrite exec_Cls_here by assumption.
    erewrite exec_Plus_greedy;
      [reflexivity | assumption | assumption | reflexivity |].
    replace (firstn (length t - length ("," ++ ws ++ [c])) t)
      with (a :: rest)
      by (symmetry; apply (firstn_length_diff (a :: rest) ("," ++ ws ++ [c]))).
    rewrite exec_Cat, exec_Opt, exec_Cat.
    change ("," ++ ws ++ [c]) with (","%char :: ws ++ [c]).
    rewrite exec_Chr_here, exec_Cat.
    erewrite exec_Star_greedy;
      [reflexivity | assumption | now apply short_byte_not_space |].
    rewrite exec_Cap, exec_Cls_here by assumption.
    cbn [exec set_cap length Nat.sub firstn].
    now rewrite Nat.sub_0_r, firstn_all.
Qed.

Lemma flag_text_nonempty (long short v : gostring) :
  flag_text long short v -> v <> [].
Proof.
  intros [Hlong [[_ ->]|(ws & c & _ & _ & _ & ->)]];
    now destruct long.
Qed.

Lemma parseFlag_iff (v long short : gostring) (spec : FlagSpec) :
  TrimSpace v = v ->
  parseFlag v spec = (true, mkFlagSpec long short) <-> flag_text long short v.
Proof.
  intros Hv. unfold parseFlag. rewrite Hv, FindStringSubmatch_flagRe. split.
  - destruct (is_empty v); [discriminate|].
    destruct (match_here _ _ _) as [[caps rest]|] eqn:E; [|discriminate].
    apply flagRe_match_inv in E as (l & s & Htext & ->).
    cbn [is_empty_list length Nat.eqb negb nth].
    intros H. now injection H as <- <-.
  - intros H. rewrite (is_empty_false _ (flag_text_nonempty _ _ _ H)).
    now rewrite (flagRe_match_complete _ _ _ H).
Qed.

Lemma flag_value_clean (tag : Tag) : clean (flag_value tag).
Proof.
  unfold flag_value. rewrite decompose_directives. apply last_value_clean.
Qed.

Lemma Flag_flag_text (tag : Tag) (long short : gostring) :
  Flag tag = Some (mkFlagSpec long short)
  <-> flag_text long short (flag_value tag).
Proof.
  rewrite Flag_of_flag_value.
  pose proof (flag_value_clean tag) as [Htrim _].
  pose proof (parseFlag_iff (flag_value tag) long short (mkFlagSpec [] []) Htrim)
    as Hiff.
  split.
  - destruct (is_empty (flag_value tag)); [discriminate|].
    destruct (parseFlag _ _) as [ok ret]. destruct ok; [|discriminate].
    intros H. injection H as ->. now apply Hiff.
  - intros H. rewrite (is_empty_false _ (flag_text_nonempty _ _ _ H)).
    apply Hiff in H. now rewrite H.
Qed.

(** X12: [Flag] returns a specification exactly on the flag values of the
    grammar of [flagRe], with the long name and the short form read off
    the value. *)
Theorem Flag_ok_iff (tag : Tag) (spec : FlagSpec) :
  Flag tag = Some spec
  <-> flag_text (Long spec) (Short spec) (flag_value tag).
Proof. destruct spec as [long short]. apply Flag_flag_text. Qed.

Lemma Flag_ok_iff_witness :
  Flag "default:x; flag:foo, f" = Some (mkFlagSpec "foo" "f").
Proof.
  apply (Flag_ok_iff _ (mkFlagSpec "foo" "f")). split; [reflexivity|]. right.
  exists " ", "f"%char. repeat split.
Defined.

Lemma name_byte_clean (c : ascii) :
  name_byte c = true -> plain c && other_than ";" c = true.
Proof.
  intros H. rewrite (name_byte_plain c H). unfold other_than.
  destruct (Ascii.eqb_spec c ";") as [->|]; [discriminate | reflexivity].
Qed.

Lemma long_name_clean (long : gostring) :
  long_name long = true ->
  forallb (fun c => plain c && other_than ";" c) long = true.
Proof.
  destruct long as [|a rest]; [discriminate|]. cbn [long_name]. intros H.
  apply andb_true_iff in H as [H Hrest]. apply andb_true_iff in H as [Ha _].
  cbn [forallb]. apply andb_true_iff. split.
  - rewrite (letter_plain a Ha). unfold other_than.
    destruct (Ascii.eqb_spec a ";") as [->|]; [discriminate | reflexivity].
  - revert Hrest. apply forallb_impl. exact name_byte_clean.
Qed.

Lemma short_byte_clean (c : ascii) :
  short_byte c = true -> plain c && other_than ";" c = true.
Proof.
  intros H. pose proof (short_byte_bounds c H) as Hb.
  rewrite (graphic_plain c) by lia. unfold other_than.
  destruct (Ascii.eqb_spec c ";") as [->|]; [discriminate | reflexivity].
Qed.

(** The flag directive value of a tag that is one flag directive. *)
Lemma flag_value_single (v : gostring) :
  clean v -> flag_value ("flag:" ++ v) = v.
Proof.
  intros Hv. unfold flag_value, decompose.
  replace (is_empty ("flag:" ++ v)) with false by reflexivity.
  replace (Split ("flag:" ++ v) ";") with ["flag:" ++ v].
  - cbn [fold_left]. rewrite decompose_step_cases. cbv zeta.
    rewrite TrimSpace_directive by (discriminate || reflexivity || assumption).
    rewrite HasPrefix_app.
    change 5 with (length ("flag:" : gostring)).
    rewrite skipn_prefix. now destruct Hv as [-> _].
  - symmetry. apply (Split_Join ["flag:" ++ v] ";"); [discriminate|].
    destruct Hv as [_ Hv]. repeat constructor.
    intros Hin. apply in_app_or in Hin as [Hin|Hin]; [|contradiction].
    vm_compute in Hin. intuition congruence.
Qed.

(** X13: what [Flag] returns, printed by [String], is a tag that [Flag]
    reads as the same specification. *)
Theorem FlagSpec_String_parses_back (tag : Tag) (spec : FlagSpec) :
  Flag tag = Some spec ->
  Flag (FlagSpec_String (Some spec)) = Some spec.
Proof.
  destruct spec as [long short]. intros H.
  apply Flag_flag_text in H as [Hlong H].
  assert (Hne : is_empty long = false) by now destruct long.
  pose proof (long_name_clean long Hlong) as Hclean.
  unfold FlagSpec_String, Posixy. cbn [Long Short]. rewrite Hne.
  apply Flag_flag_text.
  destruct H as [[-> _]|(ws & c & -> & Hc & _ & _)]; cbn [length Nat.eqb negb andb].
  - rewrite flag_value_single by now apply clean_plain.
    split; [exact Hlong | now left].
  - rewrite flag_value_single.
    + split; [exact Hlong|]. right. now exists [], c.
    + apply clean_plain. rewrite forallb_app, Hclean.
      cbn [list_ascii_of_string app forallb]. rewrite (short_byte_clean c Hc).
      reflexivity.
Qed.

Lemma FlagSpec_String_parses_back_witness :
  Flag (FlagSpec_String (Some (mkFlagSpec "foo" "f")))
  = Some (mkFlagSpec "foo" "f").
Proof.
  apply (FlagSpec_String_parses_back "default:x; flag:foo, f"). reflexivity.
Defined.

(** X14: on what [Flag] returns the long name has two bytes or more, the
    short form one byte or none, and [Posixy] holds exactly when there
    is a short form. *)
Theorem Flag_result_Posixy (tag : Tag) (spec : FlagSpec) :
  Flag tag = Some spec ->
  2 <= length (Long spec)
  /\ length (Short spec) <= 1
  /\ Posixy (Some spec) = negb (is_empty (Short spec)).
Proof.
  destruct spec as [long short]. intros H.
  apply Flag_flag_text in H as [Hlong H]. cbn [Long Short Posixy].
  assert (Hlen : 2 <= length long).
  { destruct long as [|a [|b rest]]; try discriminate.
    - cbn in Hlong. now rewrite andb_false_r in Hlong.
    - cbn [length]. lia. }
  split; [exact Hlen|].
  assert (Hne : is_empty long = false) by now destruct long.
  rewrite Hne.
  destruct H as [[-> _]|(ws & c & -> & _ & _ & _)]; cbn; split; (lia || reflexivity).
Qed.

Lemma Flag_result_Posixy_witness :
  2 <= length (Long (mkFlagSpec "foo" "f"))
  /\ length (Short (mkFlagSpec "foo" "f")) <= 1
  /\ Posixy (Some (mkFlagSpec "foo" "f"))
     = negb (is_empty (Short (mkFlagSpec "foo" "f"))).
Proof.
  apply (Flag_result_Posixy "flag:foo,f"). reflexivity.
Defined.

(** ** The help text of [sanitizeHelp] *)

Lemma star_k_run {A : Type} p (s : gostring) (g : gostring -> A) :
  exists s1 s2, s = s1 ++ s2 /\ forallb p s1 = true /\ stops p s2
                /\ star_k p s (fun s' => Some (g s')) = Some (g s2).
Proof.
  induction s as [|c s IH].
  - now exists [], [].
  - cbn [star_k]. destruct (p c) eqn:Hc.
    + destruct IH as (s1 & s2 & -> & H1 & H2 & ->).
      exists (c :: s1), s2. cbn [forallb app]. now rewrite Hc.
    + exists [], (c :: s). cbn [forallb app stops]. now rewrite Hc.
Qed.

(** The leftmost white-space run of a text: no white space before it, all
    of the run taken. *)
Lemma search_space_run (n : nat) (s : gostring) :
  match search n whitespaceRunsRe s with
  | None => forallb (fun c => negb (space c)) s = true
  | Some (before, _, rest) =>
      exists run, s = before ++ run ++ rest
                  /\ forallb (fun c => negb (space c)) before = true
                  /\ run <> [] /\ forallb space run = true
                  /\ stops space rest
  end.
Proof.
  induction s as [|c t IH]; [reflexivity|].
  cbn [search]. unfold match_here, whitespaceRunsRe.
  cbn [exec NumSubexp repeat]. fold whitespaceRunsRe.
  destruct (space c) eqn:Esp.
  - destruct (star_k_run space t
                (fun s' => (set_cap 0 (firstn (length (c :: t) - length s') (c :: t))
                                    [[]], s')))
      as (s1 & s2 & -> & H1 & H2 & ->).
    exists (c :: s1). cbn [app forallb]. rewrite Esp, H1.
    repeat split; (discriminate || assumption).
  - destruct (search n whitespaceRunsRe t) as [[[before caps] rest]|].
    + destruct IH as (run & -> & Hb & Hne & Hrun & Hrest).
      exists run. cbn [app forallb]. rewrite Esp, Hb. now repeat split.
    + cbn [forallb]. now rewrite Esp, IH.
Qed.

Lemma single_spaced_no_space (s t : gostring) :
  forallb (fun c => negb (space c)) s = true ->
  single_spaced (s ++ t) = single_spaced t.
Proof.
  induction s as [|c s IH]; intros H; [reflexivity|].
  cbn [forallb] in H. apply andb_true_iff in H as [Hc H].
  cbn [app single_spaced]. apply negb_true_iff in Hc. rewrite Hc.
  now apply IH.
Qed.

Lemma single_spaced_after_space (t : gostring) :
  stops space t -> single_spaced t = true ->
  single_spaced (" " ++ t) = true.
Proof.
  intros Hstop Ht. cbn [list_ascii_of_string app single_spaced].
  rewrite Ht. destruct t as [|c t]; [reflexivity|].
  cbn [stops] in Hstop. now rewrite Hstop.
Qed.

(** Replacing the runs keeps the first byte of a text that does not start
    with white space. *)
Lemma replace_from_stops (fuel n : nat) (s : gostring) :
  stops space s ->
  stops space (replace_from fuel n whitespaceRunsRe s " ").
Proof.
  intros Hs. destruct fuel as [|fuel]; [exact Hs|]. cbn [replace_from].
  pose proof (search_space_run n s) as H.
  destruct (search n whitespaceRunsRe s) as [[[before caps] rest]|];
    [|exact Hs].
  destruct H as (run & -> & Hb & Hne & Hrun & _).
  destruct before as [|b before].
  - destruct run as [|r run]; [contradiction|].
    cbn [app stops forallb] in Hs, Hrun. now rewrite Hs in Hrun.
  - exact Hs.
Qed.

Lemma replace_from_single (fuel n : nat) (s : gostring) :
  length s < fuel ->
  single_spaced (replace_from fuel n whitespaceRunsRe s " ") = true.
Proof.
  revert s; induction fuel as [|fuel IH]; intros s Hlen; [lia|].
  cbn [replace_from].
  pose proof (search_space_run n s) as H.
  destruct (search n whitespaceRunsRe s) as [[[before caps] rest]|].
  - destruct H as (run & -> & Hb & Hne & Hrun & Hrest).
    rewrite single_spaced_no_space by exact Hb.
    apply single_spaced_after_space.
    + now apply replace_from_stops.
    + apply IH. rewrite !length_app in Hlen.
      destruct run as [|r run]; [contradiction|]. cbn [length] in Hlen. lia.
  - rewrite <- (app_nil_r s). now rewrite single_spaced_no_space.
Qed.

Lemma single_spaced_app_l (s t : gostring) :
  single_spaced (s ++ t) = true -> single_spaced s = true.
Proof.
  induction s as [|c s IH]; [reflexivity|].
  cbn [app single_spaced]. intros H.
  apply andb_true_iff in H as [Hc H]. rewrite (IH H), andb_true_r.
  destruct (space c); [|reflexivity].
  apply andb_true_iff in Hc as [-> Hn]. cbn [andb].
  destruct s as [|c' s]; [reflexivity | exact Hn].
Qed.

Lemma single_spaced_app_r (s t : gostring) :
  single_spaced (s ++ t) = true -> single_spaced t = true.
Proof.
  induction s as [|c s IH]; [trivial|].
  cbn [app single_spaced]. intros H.
  apply andb_true_iff in H as [_ H]. now apply IH.
Qed.

Lemma single_spaced_infix (v s : gostring) :
  infix v s -> single_spaced s = true -> single_spaced v = true.
Proof.
  intros (l & r & ->) H.
  apply single_spaced_app_r in H. now apply single_spaced_app_l in H.
Qed.

(** X15: the help text of package [meta] holds no white-space byte of [\s]
    but single spaces between other bytes, and no white space at either
    end. *)
Theorem sanitizeHelp_single_spaced (doc pkg cmd : gostring) :
  single_spaced (meta.sanitizeHelp doc pkg cmd) = true
  /\ TrimSpace (meta.sanitizeHelp doc pkg cmd) = meta.sanitizeHelp doc pkg cmd.
Proof.
  rewrite meta_sanitizeHelp_helpText. split.
  - eapply single_spaced_infix; [apply TrimSpace_infix|].
    unfold ReplaceAllLiteralString. apply replace_from_single. lia.
  - apply TrimSpace_idempotent.
Qed.

Lemma str_eqb_eq (a b : gostring) : str_eqb a b = true <-> a = b.
Proof.
  unfold str_eqb. destruct (list_eq_dec ascii_dec a b) as [E|E]; split;
    intros H; (reflexivity || assumption || discriminate || now elim E).
Qed.

Lemma Index_prefix (p r : gostring) : Index (p ++ r) p = Some 0.
Proof. destruct (p ++ r) eqn:E; cbn [Index]; rewrite <- E, HasPrefix_app; reflexivity. Qed.

(** Replacing the first occurrence of a prefix replaces the prefix. *)
Lemma Replace_prefix (p r new : gostring) :
  Replace (p ++ r) p new = new ++ r.
Proof.
  unfold Replace. destruct (str_eqb p new) eqn:E.
  - apply str_eqb_eq in E. now subst.
  - rewrite Index_prefix. cbn [firstn Nat.add app].
    now rewrite skipn_prefix.
Qed.

Lemma helpText_leading_package (pkg cmd rest : gostring) :
  pkg ++ rest <> [] ->
  helpText ("Package " ++ pkg ++ rest) pkg cmd = cmd ++ rest.
Proof.
  intros Hne. unfold helpText, CutPrefix.
  rewrite HasPrefix_app, skipn_prefix, (is_empty_false _ Hne), HasPrefix_app.
  apply Replace_prefix.
Qed.

(** X16: on a doc comment that reads [Package], the package name and then
    the rest, both [sanitizeHelp] put the command name where the package
    name stands and keep the rest, later occurrences of the package name
    included, up to their treatment of white space. *)
Theorem sanitizeHelp_renames_leading_package (pkg cmd rest : gostring) :
  pkg ++ rest <> [] ->
  meta.sanitizeHelp ("Package " ++ pkg ++ rest) pkg cmd
  = TrimSpace (ReplaceAllLiteralString whitespaceRunsRe (cmd ++ rest) " ")
  /\ cliche.sanitizeHelp ("Package " ++ pkg ++ rest) pkg cmd
     = TrimSpace (cmd ++ rest).
Proof.
  intros Hne.
  rewrite meta_sanitizeHelp_helpText, cliche_sanitizeHelp_helpText.
  now rewrite helpText_leading_package.
Qed.

Lemma sanitizeHelp_renames_leading_package_witness :
  meta.sanitizeHelp ("Package " ++ "simple" ++ " is not so simple.")
                    "simple" "simple-cmd"
  = TrimSpace (ReplaceAllLiteralString whitespaceRunsRe
                 ("simple-cmd" ++ " is not so simple.") " ")
  /\ cliche.sanitizeHelp ("Package " ++ "simple" ++ " is not so simple.")
                         "simple" "simple-cmd"
     = TrimSpace ("simple-cmd" ++ " is not so simple.").
Proof.
  apply sanitizeHelp_renames_leading_package. discriminate.
Defined.


(** ** The two [sanitizeHelp] compared *)

Lemma squeeze_cons_other (c : ascii) (t : gostring) :
  space c = false -> squeeze (c :: t) = c :: squeeze t.
Proof. intros H. cbn [squeeze]. now rewrite H. Qed.

Lemma squeeze_space_stop (c : ascii) (t : gostring) :
  space c = true -> stops space t ->
  squeeze (c :: t) = " "%char :: squeeze t.
Proof.
  intros Hc Ht. cbn [squeeze]. rewrite Hc.
  destruct t as [|c' t]; [reflexivity|]. cbn [stops] in Ht. now rewrite Ht.
Qed.

Lemma squeeze_space_go (c c' : ascii) (t : gostring) :
  space c = true -> space c' = true ->
  squeeze (c :: c' :: t) = squeeze (c' :: t).
Proof.
  intros Hc Hc'.
  change (squeeze (c :: c' :: t))
    with (if space c
          then if space c' then squeeze (c' :: t)
               else " "%char :: squeeze (c' :: t)
          else c :: squeeze (c' :: t)).
  now rewrite Hc, Hc'.
Qed.

(** After a white-space byte the squeezed text starts with the space. *)
Lemma squeeze_space_head (c : ascii) (t : gostring) :
  space c = true -> exists x, squeeze (c :: t) = " "%char :: x.
Proof.
  revert c; induction t as [|c' t IH]; intros c Hc.
  - exists []. cbn [squeeze]. now rewrite Hc.
  - destruct (space c') eqn:Hc'.
    + rewrite squeeze_space_go by assumption. now apply IH.
    + exists (squeeze (c' :: t)). apply squeeze_space_stop; assumption.
Qed.

Lemma squeeze_app_other (u v : gostring) :
  forallb (fun c => negb (space c)) u = true ->
  squeeze (u ++ v) = u ++ squeeze v.
Proof.
  induction u as [|c u IH]; intros H; [reflexivity|].
  cbn [forallb] in H. apply andb_true_iff in H as [Hc H].
  apply negb_true_iff in Hc. cbn [app].
  now rewrite squeeze_cons_other, IH.
Qed.

Lemma squeeze_run (run rest : gostring) :
  run <> [] -> forallb space run = true -> stops space rest ->
  squeeze (run ++ rest) = " "%char :: squeeze rest.
Proof.
  induction run as [|c run IH]; intros Hne Hrun Hrest; [contradiction|].
  cbn [forallb] in Hrun. apply andb_true_iff in Hrun as [Hc Hrun].
  destruct run as [|c' run].
  - now apply squeeze_space_stop.
  - cbn [forallb] in Hrun. pose proof Hrun as Hrun'.
    apply andb_true_iff in Hrun' as [Hc' _].
    cbn [app]. rewrite squeeze_space_go by assumption.
    apply IH; [discriminate | exact Hrun | exact Hrest].
Qed.

(** Replacing the runs of [\s+] by a space is squeezing. *)
Lemma replace_from_squeeze (fuel n : nat) (s : gostring) :
  length s < fuel ->
  replace_from fuel n whitespaceRunsRe s " " = squeeze s.
Proof.
  revert s; induction fuel as [|fuel IH]; intros s Hlen; [lia|].
  cbn [replace_from].
  pose proof (search_space_run n s) as H.
  destruct (search n whitespaceRunsRe s) as [[[before caps] rest]|].
  - destruct H as (run & -> & Hb & Hne & Hrun & Hrest).
    rewrite squeeze_app_other by exact Hb.
    rewrite squeeze_run by assumption.
    rewrite IH; [reflexivity|].
    rewrite !length_app in Hlen.
    destruct run as [|r run]; [contradiction|]. cbn [length] in Hlen. lia.
  - pose proof (squeeze_app_other s [] H) as E.
    cbn [squeeze] in E. rewrite !app_nil_r in E. now symmetry.
Qed.

Lemma collapse_squeeze (s : gostring) :
  ReplaceAllLiteralString whitespaceRunsRe s " " = squeeze s.
Proof. unfold ReplaceAllLiteralString. apply replace_from_squeeze. lia. Qed.

Lemma squeeze_app_stops (u v : gostring) :
  stops space v -> squeeze (u ++ v) = squeeze u ++ squeeze v.
Proof.
  intros Hv. induction u as [|c u IH]; [reflexivity|].
  destruct (space c) eqn:Hc.
  - destruct u as [|c' u].
    + cbn [app]. rewrite squeeze_space_stop by assumption.
      cbn [squeeze]. now rewrite Hc.
    + destruct (space c') eqn:Hc'.
      * cbn [app] in *. now rewrite !squeeze_space_go by assumption.
      * cbn [app] in *.
        rewrite !(squeeze_space_stop c) by (assumption || exact Hc').
        now rewrite IH.
  - cbn [app]. now rewrite !squeeze_cons_other, IH by assumption.
Qed.

Lemma squeeze_after_other (u : gostring) (z : ascii) (v : gostring) :
  space z = false ->
  squeeze ((u ++ [z]) ++ v) = squeeze (u ++ [z]) ++ squeeze v.
Proof.
  intros Hz. induction u as [|c u IH].
  - cbn [app]. now rewrite !squeeze_cons_other by assumption.
  - destruct (space c) eqn:Hc.
    + destruct u as [|c' u].
      * cbn [app].
        rewrite !(squeeze_space_stop c) by (assumption || exact Hz).
        now rewrite !squeeze_cons_other by assumption.
      * destruct (space c') eqn:Hc'.
        -- cbn [app] in *. now rewrite !squeeze_space_go by assumption.
        -- cbn [app] in *.
           rewrite !(squeeze_space_stop c) by (assumption || exact Hc').
           now rewrite IH.
    + cbn [app] in *. now rewrite !squeeze_cons_other, IH by assumption.
Qed.

Lemma squeeze_snoc_space (u : gostring) (z c : ascii) :
  space z = true -> space c = true ->
  squeeze (u ++ [z; c]) = squeeze (u ++ [z]).
Proof.
  intros Hz Hc. induction u as [|x u IH].
  - cbn [app]. rewrite squeeze_space_go by assumption.
    cbn [squeeze]. now rewrite Hz, Hc.
  - destruct (space x) eqn:Hx.
    + destruct u as [|x' u].
      * cbn [app] in *. now rewrite !(squeeze_space_go x), IH by assumption.
      * destruct (space x') eqn:Hx'.
        -- cbn [app] in *. now rewrite !(squeeze_space_go x) by assumption.
        -- cbn [app] in *.
           rewrite !(squeeze_space_stop x) by (assumption || exact Hx').
           now rewrite IH.
    + cbn [app] in *. now rewrite !squeeze_cons_other, IH by assumption.
Qed.

(** Squeezing does the same from either end. *)
Lemma squeeze_rev (s : gostring) : squeeze (rev s) = rev (squeeze s).
Proof.
  induction s as [|c t IH]; [reflexivity|]. cbn [rev].
  destruct (space c) eqn:Hc.
  - destruct t as [|c' t]; [cbn; now rewrite Hc|].
    destruct (space c') eqn:Hc'.
    + rewrite squeeze_space_go by assumption. rewrite <- IH.
      cbn [rev]. rewrite <- app_assoc. cbn [app].
      now apply squeeze_snoc_space.
    + rewrite (squeeze_space_stop c) by (assumption || exact Hc').
      cbn [rev] in *. rewrite squeeze_after_other by assumption.
      rewrite IH. cbn [squeeze]. now rewrite Hc.
  - rewrite squeeze_cons_other by assumption. cbn [rev].
    rewrite squeeze_app_stops by exact Hc.
    rewrite IH. cbn [squeeze]. now rewrite Hc.
Qed.

Section TrimSqueeze.
Variable w : gostring -> nat.
Hypothesis w_le : forall s, w s <= length s.
Hypothesis w_squeeze_stop : forall s, w s = 0 -> w (squeeze s) = 0.
Hypothesis w_squeeze_step :
  forall s, w s <> 0 ->
    squeeze s = squeeze (skipn (w s) s)
    \/ exists r, r <> []
                 /\ squeeze s = r ++ squeeze (skipn (w s) s)
                 /\ w (r ++ squeeze (skipn (w s) s)) = length r.

(** Trimming the squeezed text by runes of width [w] is squeezing the
    trimmed text. *)
Lemma trim_with_squeeze (n : nat) :
  forall (s : gostring) (m : nat),
    length s <= n -> length (squeeze s) <= m ->
    trim_with w m (squeeze s) = squeeze (trim_with w n s).
Proof.
  induction n as [|n IH]; intros s m Hn Hm.
  - destruct s; [|cbn [length] in Hn; lia].
    cbn [squeeze trim_with]. apply trim_with_stop.
    pose proof (w_le []). cbn [length] in *. lia.
  - destruct (w s) as [|k] eqn:Ew.
    + rewrite (trim_with_stop w (S n) s) by exact Ew.
      apply trim_with_stop. now apply w_squeeze_stop.
    + cbn [trim_with]. rewrite Ew.
      assert (Hs : length (skipn (S k) s) <= n)
        by (rewrite length_skipn; lia).
      destruct (w_squeeze_step s) as [E|(r & Hr & E & Hw)];
        [rewrite Ew; discriminate | |]; rewrite Ew in *.
      * rewrite E in Hm |- *. now apply IH.
      * rewrite E in Hm |- *. rewrite length_app in Hm.
        destruct r as [|x r]; [contradiction|].
        destruct m as [|m]; [cbn [length] in Hm; lia|].
        cbn [trim_with]. rewrite Hw.
        change (length (x :: r)) with (S (length r)). cbv iota.
        change (S (length r)) with (length (x :: r)).
        rewrite skipn_prefix.
        apply IH; [exact Hs | cbn [length] in Hm; lia].
Qed.

End TrimSqueeze.

Lemma space_asciiSpace (c : ascii) : space c = true -> asciiSpace c = true.
Proof.
  unfold space, asciiSpace. destruct (byte c) as [|p]; [discriminate|].
  do 6 (destruct p as [p|p|]; try discriminate; try reflexivity).
Qed.

Lemma asciiSpace_low (c : ascii) : asciiSpace c = true -> (byte c < 128)%N.
Proof.
  unfold asciiSpace. destruct (byte c) as [|p]; [discriminate|].
  do 6 (destruct p as [p|p|]; try discriminate; try lia).
Qed.

Lemma space2_high (a b : ascii) :
  space2 a b = true -> (128 <= byte a)%N /\ (128 <= byte b)%N.
Proof.
  unfold space2. intros H. apply andb_true_iff in H as [Ha Hb].
  apply N.eqb_eq in Ha. apply orb_true_iff in Hb as [Hb|Hb];
    apply N.eqb_eq in Hb; lia.
Qed.

Lemma space3_high (a b c : ascii) :
  space3 a b c = true ->
  (128 <= byte a)%N /\ (128 <= byte b)%N /\ (128 <= byte c)%N.
Proof.
  unfold space3. intros H.
  repeat match type of H with
         | (_ || _)%bool = true => apply orb_true_iff in H as [H|H]
         end;
    repeat match goal with
           | H : (_ && _)%bool = true |- _ => apply andb_true_iff in H as [? ?]
           | H : (_ || _)%bool = true |- _ => apply orb_true_iff in H as [?|?]
           | H : (_ =? _)%N = true |- _ => apply N.eqb_eq in H
           | H : (_ <=? _)%N = true |- _ => apply N.leb_le in H
           end; lia.
Qed.

Lemma high_not_space (c : ascii) : (128 <= byte c)%N -> space c = false.
Proof.
  intros H. destruct (space c) eqn:E; [|reflexivity].
  apply space_asciiSpace, asciiSpace_low in E. lia.
Qed.

Lemma high_not_asciiSpace (c : ascii) :
  (128 <= byte c)%N -> asciiSpace c = false.
Proof.
  intros H. destruct (asciiSpace c) eqn:E; [|reflexivity].
  apply asciiSpace_low in E. lia.
Qed.

Lemma space2_low_l (a b : ascii) : (byte a < 128)%N -> space2 a b = false.
Proof.
  intros H. destruct (space2 a b) eqn:E; [|reflexivity].
  apply space2_high in E. lia.
Qed.

Lemma space2_low_r (a b : ascii) : (byte b < 128)%N -> space2 a b = false.
Proof.
  intros H. destruct (space2 a b) eqn:E; [|reflexivity].
  apply space2_high in E. lia.
Qed.

Lemma space3_low (a b c : ascii) :
  (byte a < 128)%N \/ (byte b < 128)%N \/ (byte c < 128)%N ->
  space3 a b c = false.
Proof.
  intros H. destruct (space3 a b c) eqn:E; [|reflexivity].
  apply space3_high in E. lia.
Qed.

Lemma blank_low : (byte " " < 128)%N.
Proof. reflexivity. Qed.

(** The first bytes of a squeezed text: the first byte of the text when
    it is no white space of [\s], and then either the second byte, under
    the same condition, or the space. *)
Lemma squeeze_head (a : ascii) (t : gostring) :
  space a = false ->
  squeeze (a :: t) = a :: squeeze t
  /\ (t = [] \/ exists b u, t = b :: u
                 /\ ((space b = true /\ exists x, squeeze t = " "%char :: x)
                     \/ (space b = false /\ squeeze t = b :: squeeze u))).
Proof.
  intros Ha. split; [now apply squeeze_cons_other|].
  destruct t as [|b u]; [now left|]. right. exists b, u. split; [reflexivity|].
  destruct (space b) eqn:Hb.
  - left. split; [reflexivity|]. now apply squeeze_space_head.
  - right. split; [reflexivity|]. now apply squeeze_cons_other.
Qed.

Lemma space_width_squeeze_stop (s : gostring) :
  space_width s = 0 -> space_width (squeeze s) = 0.
Proof.
  destruct s as [|a t]; [reflexivity|]. intros H.
  assert (Ha : asciiSpace a = false).
  { cbn [space_width] in H. now destruct (asciiSpace a). }
  assert (Hsa : space a = false).
  { destruct (space a) eqn:E; [|reflexivity].
    apply space_asciiSpace in E. congruence. }
  destruct (squeeze_head a t Hsa) as [-> Ht].
  cbn [space_width] in H |- *. rewrite Ha in H |- *.
  destruct Ht as [->|(b & u & -> & [[Hb (x & ->)]|[Hb ->]])];
    [reflexivity | |].
  - rewrite space2_low_r by exact blank_low.
    destruct x as [|y x]; [reflexivity|].
    now rewrite space3_low by (right; left; exact blank_low).
  - destruct (space2 a b); [discriminate|].
    destruct u as [|c v]; [reflexivity|].
    destruct (space c) eqn:Hc.
    + destruct (squeeze_space_head c v Hc) as (x & ->).
      now rewrite space3_low by (right; right; exact blank_low).
    + rewrite squeeze_cons_other by exact Hc.
      now destruct (space3 a b c).
Qed.

Lemma space_width_back_squeeze_stop (s : gostring) :
  space_width_back s = 0 -> space_width_back (squeeze s) = 0.
Proof.
  destruct s as [|a t]; [reflexivity|]. intros H.
  assert (Ha : asciiSpace a = false).
  { cbn [space_width_back] in H. now destruct (asciiSpace a). }
  assert (Hsa : space a = false).
  { destruct (space a) eqn:E; [|reflexivity].
    apply space_asciiSpace in E. congruence. }
  destruct (squeeze_head a t Hsa) as [-> Ht].
  cbn [space_width_back] in H |- *. rewrite Ha in H |- *.
  destruct Ht as [->|(b & u & -> & [[Hb (x & ->)]|[Hb ->]])];
    [reflexivity | |].
  - rewrite space2_low_l by exact blank_low.
    destruct x as [|y x]; [reflexivity|].
    now rewrite space3_low by (right; left; exact blank_low).
  - destruct (space2 b a); [discriminate|].
    destruct u as [|c v]; [reflexivity|].
    destruct (space c) eqn:Hc.
    + destruct (squeeze_space_head c v Hc) as (x & ->).
      now rewrite space3_low by (left; exact blank_low).
    + rewrite squeeze_cons_other by exact Hc.
      now destruct (space3 c b a).
Qed.

(** A white-space byte at the head: the squeezed text starts with the
    squeezed rest, or with one byte of white space before it. *)
Lemma squeeze_asciiSpace_step (a : ascii) (t : gostring) :
  asciiSpace a = true ->
  squeeze (a :: t) = squeeze t
  \/ exists x, asciiSpace x = true /\ squeeze (a :: t) = [x] ++ squeeze t.
Proof.
  intros Ha. destruct (space a) eqn:Hsa.
  - destruct t as [|c' t].
    + right. exists " "%char. split; [reflexivity|].
      cbn [squeeze]. now rewrite Hsa.
    + destruct (space c') eqn:Hc'.
      * left. now apply squeeze_space_go.
      * right. exists " "%char. split; [reflexivity|].
        apply squeeze_space_stop; assumption.
  - right. exists a. split; [exact Ha|]. now apply squeeze_cons_other.
Qed.

Lemma space_width_squeeze_step (s : gostring) :
  space_width s <> 0 ->
  squeeze s = squeeze (skipn (space_width s) s)
  \/ exists r, r <> []
               /\ squeeze s = r ++ squeeze (skipn (space_width s) s)
               /\ space_width (r ++ squeeze (skipn (space_width s) s))
                  = length r.
Proof.
  destruct s as [|a t]; [contradiction|]. cbn [space_width].
  destruct (asciiSpace a) eqn:Ha.
  - intros _. cbn [skipn].
    destruct (squeeze_asciiSpace_step a t Ha) as [E|(x & Hx & E)];
      [now left|].
    right. exists [x]. split; [discriminate|]. split; [exact E|].
    cbn [app space_width length]. now rewrite Hx.
  - destruct t as [|b u]; [contradiction|].
    destruct (space2 a b) eqn:H2.
    + intros _. cbn [skipn]. right. exists [a; b].
      pose proof (space2_high a b H2) as [Hha Hhb].
      split; [discriminate|]. split.
      * now rewrite !squeeze_cons_other by now apply high_not_space.
      * cbn [app space_width length]. now rewrite Ha, H2.
    + destruct u as [|c v]; [contradiction|].
      destruct (space3 a b c) eqn:H3; [|contradiction].
      intros _. cbn [skipn]. right. exists [a; b; c].
      pose proof (space3_high a b c H3) as (Hha & Hhb & Hhc).
      split; [discriminate|]. split.
      * now rewrite !squeeze_cons_other by now apply high_not_space.
      * cbn [app space_width length]. now rewrite Ha, H2, H3.
Qed.

Lemma space_width_back_squeeze_step (s : gostring) :
  space_width_back s <> 0 ->
  squeeze s = squeeze (skipn (space_width_back s) s)
  \/ exists r, r <> []
               /\ squeeze s = r ++ squeeze (skipn (space_width_back s) s)
               /\ space_width_back (r ++ squeeze (skipn (space_width_back s) s))
                  = length r.
Proof.
  destruct s as [|a t]; [contradiction|]. cbn [space_width_back].
  destruct (asciiSpace a) eqn:Ha.
  - intros _. cbn [skipn].
    destruct (squeeze_asciiSpace_step a t Ha) as [E|(x & Hx & E)];
      [now left|].
    right. exists [x]. split; [discriminate|]. split; [exact E|].
    cbn [app space_width_back length]. now rewrite Hx.
  - destruct t as [|b u]; [contradiction|].
    destruct (space2 b a) eqn:H2.
    + intros _. cbn [skipn]. right. exists [a; b].
      pose proof (space2_high b a H2) as [Hhb Hha].
      split; [discriminate|]. split.
      * now rewrite !squeeze_cons_other by now apply high_not_space.
      * cbn [app space_width_back length]. now rewrite Ha, H2.
    + destruct u as [|c v]; [contradiction|].
      destruct (space3 c b a) eqn:H3; [|contradiction].
      intros _. cbn [skipn]. right. exists [a; b; c].
      pose proof (space3_high c b a H3) as (Hhc & Hhb & Hha).
      split; [discriminate|]. split.
      * now rewrite !squeeze_cons_other by now apply high_not_space.
      * cbn [app space_width_back length]. now rewrite Ha, H2, H3.
Qed.

(** Trimming and squeezing commute. *)
Lemma TrimSpace_squeeze (s : gostring) :
  TrimSpace (squeeze s) = squeeze (TrimSpace s).
Proof.
  unfold TrimSpace.
  rewrite (trim_with_squeeze space_width space_width_le
             space_width_squeeze_stop space_width_squeeze_step
             (length s) s (length (squeeze s))) by lia.
  set (l := trim_with space_width (length s) s).
  rewrite <- squeeze_rev.
  rewrite (trim_with_squeeze space_width_back space_width_back_le
             space_width_back_squeeze_stop space_width_back_squeeze_step
             (length l) (rev l) (length (squeeze l))).
  - now rewrite squeeze_rev.
  - rewrite length_rev. lia.
  - rewrite squeeze_rev, length_rev. lia.
Qed.

Lemma TrimSpace_collapse (s : gostring) :
  TrimSpace (ReplaceAllLiteralString whitespaceRunsRe s " ")
  = ReplaceAllLiteralString whitespaceRunsRe (TrimSpace s) " ".
Proof. rewrite !collapse_squeeze. apply TrimSpace_squeeze. Qed.

(** A text is left as it is by the replacement exactly when it is
    single-spaced. *)
Lemma collapse_fixed_iff (s : gostring) :
  ReplaceAllLiteralString whitespaceRunsRe s " " = s
  <-> single_spaced s = true.
Proof.
  split.
  - intros E. rewrite <- E. unfold ReplaceAllLiteralString.
    apply replace_from_single. lia.
  - apply collapse_single_spaced.
Qed.

(** C10, as amended: the [sanitizeHelp] of package [meta] returns what
    the one of package [cliche] returns with every run of white space
    replaced by one space, so that the two return the same string exactly
    on the inputs for which the result of package [cliche] has no white
    space but single spaces. *)
Theorem sanitizeHelp_agree_iff (doc pkg cmd : gostring) :
  meta.sanitizeHelp doc pkg cmd
  = ReplaceAllLiteralString whitespaceRunsRe
      (cliche.sanitizeHelp doc pkg cmd) " "
  /\ (meta.sanitizeHelp doc pkg cmd = cliche.sanitizeHelp doc pkg cmd
      <-> single_spaced (cliche.sanitizeHelp doc pkg cmd) = true).
Proof.
  assert (E : meta.sanitizeHelp doc pkg cmd
              = ReplaceAllLiteralString whitespaceRunsRe
                  (cliche.sanitizeHelp doc pkg cmd) " ").
  { rewrite meta_sanitizeHelp_helpText, cliche_sanitizeHelp_helpText.
    apply TrimSpace_collapse. }
  split; [exact E|]. rewrite E. apply collapse_fixed_iff.
Qed.

Lemma sanitizeHelp_agree_iff_witness :
  meta.sanitizeHelp ("Package simple is a simple test." ++ [LF])
                    "simple" "simple-cmd"
  = cliche.sanitizeHelp ("Package simple is a simple test." ++ [LF])
                        "simple" "simple-cmd".
Proof.
  apply (proj2 (sanitizeHelp_agree_iff _ _ _)). reflexivity.
Defined.

(** ** The walk of a declaration and [FromFile] *)

Lemma extends_refl (m : Command.t) : extends m m.
Proof. exists []. rewrite app_nil_r. now destruct m. Qed.

Lemma extends_trans (m1 m2 m3 : Command.t) :
  extends m1 m2 -> extends m2 m3 -> extends m1 m3.
Proof.
  intros [e1 ->] [e2 ->]. exists (e1 ++ e2).
  destruct m1. cbn. now rewrite app_assoc.
Qed.

Lemma fold_left_extends {Y : Type} (f : Command.t -> Y -> Command.t)
      (l : list Y) :
  Forall (fun y => forall m, extends m (f m y)) l ->
  forall m, extends m (fold_left f l m).
Proof.
  induction 1 as [|y l Hy _ IH]; intros m; cbn [fold_left].
  - apply extends_refl.
  - eapply extends_trans; [apply Hy | apply IH].
Qed.

Section Walk.
Context {lib : Library}.

Lemma Compile_extends (meta : Command.t) (n : option ast.Node) :
  extends meta (snd (Compile meta n)).
Proof.
  destruct n as [[specs|[name|] [| |fields| |]| | |]|]; cbn [Compile snd];
    try apply extends_refl;
    destruct (negb (str_eqb name (Command.typ meta)));
    cbn [snd]; try apply extends_refl.
  now exists (compileInputs (Some fields)).
Qed.

Lemma Compile_stays (meta : Command.t) (n : option ast.Node) :
  fst (Compile meta n) = true -> snd (Compile meta n) = meta.
Proof.
  destruct n as [[specs|[name|] [| |fields| |]| | |]|]; cbn [Compile fst snd];
    try reflexivity; try discriminate;
    destruct (negb (str_eqb name (Command.typ meta)));
    cbn [fst snd]; try reflexivity; discriminate.
Qed.

Lemma Inspect_extends (n : ast.Node) :
  forall meta : Command.t, extends meta (Inspect n meta).
Proof.
  induction n as [specs IH|name type IH|fields IH| |name|children IH]
    using Node_induction; intros meta; cbn [Inspect].
  - cbn [Compile snd]. now apply fold_left_extends.
  - pose proof (Compile_extends meta (Some (ast.TypeSpec name type))) as H.
    destruct (Compile meta (Some (ast.TypeSpec name type))) as [descend m].
    cbn [snd] in H. destruct descend; [|exact H].
    cbn [Compile snd]. eapply extends_trans; [exact H | apply IH].
  - cbn [Compile snd]. apply fold_left_extends.
    rewrite Forall_forall in IH |- *. intros [d ns t tg] Hin m.
    apply (IH _ Hin).
  - apply extends_refl.
  - apply extends_refl.
  - cbn [Compile snd]. now apply fold_left_extends.
Qed.

(** X17: the walk of a declaration changes nothing of the [Command] but
    its inputs, and these only by adding at the end. *)
Theorem Inspect_only_appends_inputs (n : ast.Node) (meta : Command.t) :
  exists extra,
    Inspect n meta
    = Command.with_Inputs (Command.Inputs meta ++ extra) meta.
Proof. apply Inspect_extends. Qed.

(** X18: on the declaration of a struct type named as the field [typ]
    says, the walk adds the inputs [compileInputs] makes of the fields,
    and does not go below the type. *)
Theorem Inspect_compiles_named_struct (meta : Command.t) (name : gostring)
        (fields : option (list ast.Field)) :
  Command.typ meta = name ->
  Inspect (ast.GenDecl [ast.TypeSpec (Some name) (ast.StructType fields)]) meta
  = Command.with_Inputs
      (Command.Inputs meta ++ compileInputs (Some fields)) meta.
Proof.
  intros <-. cbn [Inspect Compile fold_left snd].
  replace (str_eqb (Command.typ meta) (Command.typ meta)) with true
    by (symmetry; now apply str_eqb_eq).
  reflexivity.
Qed.

(** X19: [FromFile] returns nil on a parsed source exactly when the
    package has no type of the name asked for. *)
Theorem FromFile_nil_iff (pkg : doc.Package.t) (typeName : gostring) :
  FromFile (Parsed pkg) typeName = None
  <-> ~ In typeName (map doc.Type_.Name (doc.Package.Types pkg)).
Proof.
  unfold FromFile.
  destruct (find _ (doc.Package.Types pkg)) as [ourType|] eqn:Efind; split.
  - discriminate.
  - intros H. exfalso. apply H. apply find_some in Efind as [Hin Heq].
    apply str_eqb_eq in Heq. subst typeName. now apply in_map.
  - intros _ Hin. apply in_map_iff in Hin as (ty & <- & Hin).
    pose proof (find_none _ _ Efind ty Hin) as H. cbv beta in H.
    assert (str_eqb (doc.Type_.Name ty) (doc.Type_.Name ty) = true)
      by now apply str_eqb_eq.
    congruence.
  - reflexivity.
Qed.

(** X20: the [Command] of [FromFile] has the kebab-case package name as
    its name, the package name, the name asked for as its type, the
    sanitized package comment as its help, the trimmed comment of a type
    of that name as its description, and an empty [typ]. *)
Theorem FromFile_fields (pkg : doc.Package.t) (typeName : gostring)
        (c : Command.t) :
  FromFile (Parsed pkg) typeName = Some c ->
  Command.Name c = ToKebab (doc.Package.Name pkg)
  /\ Command.Package c = doc.Package.Name pkg
  /\ Command.Type_ c = typeName
  /\ Command.Help c
     = sanitizeHelp (doc.Package.Doc pkg) (doc.Package.Name pkg)
                    (ToKebab (doc.Package.Name pkg))
  /\ (exists ty, In ty (doc.Package.Types pkg)
                 /\ doc.Type_.Name ty = typeName
                 /\ Command.Description c = TrimSpace (doc.Type_.Doc ty))
  /\ Command.typ c = [].
Proof.
  unfold FromFile.
  destruct (find _ (doc.Package.Types pkg)) as [ourType|] eqn:Efind;
    [|discriminate].
  apply find_some in Efind as [Hin Heq]. apply str_eqb_eq in Heq.
  cbv zeta. intros [= <-].
  match goal with
  | |- context [Inspect ?n ?m] =>
      destruct (Inspect_extends n m) as [extra ->]
  end.
  cbn. repeat split; try assumption.
  exists ourType. now repeat split.
Qed.

(** X21: whatever the package and the type asked for, the [Command] of
    [FromFile] has no inputs: [FromFile] leaves [typ] empty, and no type
    of a parsed source is named by the empty string. *)
Theorem FromFile_inputs_empty (pkg : doc.Package.t) (typeName : gostring)
        (c : Command.t) :
  forallb (fun typ => well_named (doc.Type_.Decl typ))
          (doc.Package.Types pkg) = true ->
  FromFile (Parsed pkg) typeName = Some c ->
  Command.Inputs c = [].
Proof.
  intros Hnamed. unfold FromFile.
  destruct (find _ (doc.Package.Types pkg)) as [ourType|] eqn:Efind;
    [|discriminate].
  apply find_some in Efind as [Hin _].
  rewrite forallb_forall in Hnamed. specialize (Hnamed _ Hin).
  cbv zeta. rewrite Inspect_typ_empty by (assumption || reflexivity).
  now intros [= <-].
Qed.

(** X22: every input of [compileInputs] is named by an exported
    identifier, there are no more inputs than fields, and the inputs of
    a field list in two parts are those of the parts, in this order. *)
Theorem compileInputs_exported_names :
  (forall st, Forall (fun i => IsExported (CommandInput.FieldName i) = true)
                     (compileInputs st))
  /\ (forall fields,
         length (compileInputs (Some (Some fields))) <= length fields)
  /\ (forall fields1 fields2,
         compileInputs (Some (Some (fields1 ++ fields2)))
         = compileInputs (Some (Some fields1))
           ++ compileInputs (Some (Some fields2))).
Proof.
  assert (H : forall fields,
             compileInputs (Some (Some fields))
             = map input_of (filter eligible fields))
    by (intros fields; unfold compileInputs; now rewrite fold_compile_field).
  split; [|split].
  - intros [[fields|]|]; try constructor. rewrite H.
    apply Forall_forall. intros i Hi.
    apply in_map_iff in Hi as (f & <- & Hf).
    apply filter_In in Hf as [_ Hf].
    unfold eligible in Hf. unfold input_of, sole_name.
    cbn [CommandInput.FieldName].
    now destruct (ast.Names f) as [|name [|name' names]].
  - intros fields. rewrite H, length_map. apply filter_length_le.
  - intros fields1 fields2. now rewrite !H, filter_app, map_app.
Qed.

End Walk.

Lemma Inspect_compiles_named_struct_witness :
  @Inspect words_library
    (ast.GenDecl [ast.TypeSpec (Some ("Cmd" : gostring))
                               (ast.StructType (Some filtering_fields))])
    (Command.mk "sample" "sample" "Cmd" [] [] [] "Cmd")
  = Command.with_Inputs
      (Command.Inputs (Command.mk "sample" "sample" "Cmd" [] [] [] "Cmd")
       ++ @compileInputs words_library (Some (Some filtering_fields)))
      (Command.mk "sample" "sample" "Cmd" [] [] [] "Cmd").
Proof.
  apply (@Inspect_compiles_named_struct words_library). reflexivity.
Defined.

Lemma FromFile_fields_witness :
  Command.Name (Command.mk "sample" "sample" "Cmd" "sample is an example."
                           "Cmd is a command." [] [])
  = @ToKebab words_library (doc.Package.Name sample_package)
  /\ Command.Package (Command.mk "sample" "sample" "Cmd" "sample is an example."
                                 "Cmd is a command." [] [])
     = doc.Package.Name sample_package
  /\ Command.Type_ (Command.mk "sample" "sample" "Cmd" "sample is an example."
                               "Cmd is a command." [] [])
     = "Cmd"
  /\ Command.Help (Command.mk "sample" "sample" "Cmd" "sample is an example."
                              "Cmd is a command." [] [])
     = @sanitizeHelp (doc.Package.Doc sample_package)
                     (doc.Package.Name sample_package)
                     (@ToKebab words_library (doc.Package.Name sample_package))
  /\ (exists ty, In ty (doc.Package.Types sample_package)
                 /\ doc.Type_.Name ty = "Cmd"
                 /\ Command.Description
                      (Command.mk "sample" "sample" "Cmd" "sample is an example."
                                  "Cmd is a command." [] [])
                    = TrimSpace (doc.Type_.Doc ty))
  /\ Command.typ (Command.mk "sample" "sample" "Cmd" "sample is an example."
                             "Cmd is a command." [] [])
     = [].
Proof.
  apply (@FromFile_fields words_library sample_package "Cmd"). reflexivity.
Defined.

Lemma FromFile_inputs_empty_witness :
  Command.Inputs (Command.mk "sample" "sample" "Cmd" "sample is an example."
                             "Cmd is a command." [] [])
  = [].
Proof.
  apply (@FromFile_inputs_empty words_library sample_package "Cmd");
    reflexivity.
Defined.

(** ** The tests of the repository, on the embedding *)

(** [TestTagArg]. *)
Example TestTagArg :
  map Arg
      [[]; "arg:42" : Tag; "arg:[42]" : Tag; "arg:[2:4]" : Tag;
       "arg:[0:4]" : Tag; "arg:[:4]" : Tag; "arg:[2:]" : Tag; "arg:[:]" : Tag;
       "arg:" : Tag; "arg:[2:2]" : Tag; "arg:[4:2]" : Tag; "arg:[2:0]" : Tag;
       "arg:[2:a]" : Tag; "arg:[]" : Tag; "arg:I thrive in chaos." : Tag]
  = [None; Some (mkArgSpec 42 0); Some (mkArgSpec 42 0);
     Some (mkArgSpec 2 4); Some (mkArgSpec 0 4); Some (mkArgSpec 0 4);
     Some (mkArgSpec 2 (-1)); Some (mkArgSpec 0 (-1));
     None; None; None; None; None; None; None].
Proof. reflexivity. Qed.

(** [TestTagDecompose]. *)
Example TestTagDecompose :
  map decompose
      [[]; "arg:;default:;flag:" : Tag; "arg:FOO;default:BAR;flag:BAZ" : Tag;
       "default:BAR;flag:BAZ;arg:FOO" : Tag;
       "arg: FOO ; default: BAR ; flag: BAZ ;" : Tag;
       "arg:FOO;default:BAR;nonsense:CANTFINDTHIS!;flag:BAZ" : Tag]
  = [([], [], []); ([], [], []);
     ("FOO" : gostring, "BAR" : gostring, "BAZ" : gostring);
     ("FOO" : gostring, "BAR" : gostring, "BAZ" : gostring);
     ("FOO" : gostring, "BAR" : gostring, "BAZ" : gostring);
     ("FOO" : gostring, "BAR" : gostring, "BAZ" : gostring)].
Proof. reflexivity. Qed.

(** [TestTagDefault]. *)
Example TestTagDefault :
  map Default
      [[]; "default:42" : Tag; "default:" ++ dquote :: "foo" ++ [dquote];
       "default:" : Tag]
  = [([], false); ("42" : gostring, true); (dquote :: "foo" ++ [dquote], true);
     ([], false)].
Proof. reflexivity. Qed.

(** [TestTagFlag]. *)
Example TestTagFlag :
  map Flag
      [[]; "flag:foo" : Tag; "flag:foo,F" : Tag; "flag:f,b" : Tag;
       "flag:foo,bar" : Tag; "default:" : Tag]
  = [None; Some (mkFlagSpec "foo" []); Some (mkFlagSpec "foo" "F");
     None; None; None].
Proof. reflexivity. Qed.

(** [TestFromFile]: the test wants a [Command] without inputs for the
    eight fields of [Tester] (it does not look at [typ]). *)
Example TestFromFile :
  @FromFile words_library testdata_simple "Tester"
  = Some (Command.mk
            "simple" "simple" "Tester"
            "simple is a simple test for cliche. It contains a single Command with no tags."
            "Tester is a cliche command which exercises default inputs."
            [] []).
Proof. reflexivity. Qed.
